(** * The generalized Hopfield-matrix method of legume (legume/pol/pol.py)

    A shallow embedding of the class [HopfieldPol]: the constructor, the
    layer lookup [_z_to_lind], the fraction analysis
    [_calculate_fraction], the coupling blocks [_calculate_C_D], the
    assembly [_construct_Hopfield] and the per-k-point pipeline of [run];
    and of the class [Lattice] of legume/lattice.py: the constructor with
    the reciprocal lattice, the grid [xy_grid], the named points
    [_parse_point] and the paths [bz_path].

    Numbers.  The program computes with numpy's complex128 and float64.
    Here they are the elements of a numeric closed field [C] (MathComp's
    [numClosedFieldType]; the algebraic numbers [algC] are the instance
    used for the concrete examples): arithmetic is exact; rounding,
    overflow, nan and the result of a division by zero are not
    represented.  A real array holds elements of [C] whose imaginary part
    is zero.

    Arrays.  A two-dimensional numpy array whose shape is fixed by the
    run ([N_max], [M_max], [num_QWs]) is a MathComp matrix ['M[C]_(m, n)];
    [np.hstack] and [np.vstack] are [row_mx] and [col_mx]; Python lists
    are [seq]; an index taken from a [range] is a [nat].

    Failures.  A Python exception is a [Raise] in the [result] monad.

    The lattice.  The real arrays of [Lattice] hold elements of a real
    closed field [R] (MathComp's [rcfType]; the real algebraic numbers
    [algR] for the concrete examples), [np.pi] is a constant [pi] of
    [R] of which nothing is assumed, and strings are ASCII. *)

From Stdlib Require Ascii String.
From HB Require Import structures.
From Equations Require Import Equations.
From mathcomp Require Import boot order algebra.
From mathcomp Require Import algC.

Set Implicit Arguments.
Unset Strict Implicit.
Unset Printing Implicit Defensive.

Import Order.Theory GRing.Theory Num.Theory.
Import String.StringSyntax.

(** * Part I: the program *)

(** ** Python results *)

Inductive exn := IndexError | ValueError | NameError.

Inductive result (T : Type) := Ok of T | Raise of exn.
Arguments Raise {T} e.

Definition bind T U (c : result T) (k : T -> result U) : result U :=
  match c with Ok x => k x | Raise e => Raise e end.

Notation "x <- c ;; k" := (bind c (fun x => k))
  (at level 100, c at next level, right associativity).

(** [s[i]] for a list index [i >= 0]. *)
Definition getitem T (s : seq T) (i : nat) : result T :=
  if drop i s is x :: _ then Ok x else Raise IndexError.

(** [s[i] = x] for a list index [i >= 0]. *)
Definition setitem T (s : seq T) (i : nat) (x : T) : result (seq T) :=
  if (i < size s)%N then Ok (take i s ++ x :: drop i.+1 s)
  else Raise IndexError.

(** A [for] loop whose body may raise. *)
Fixpoint for_loop S T (body : S -> T -> result S) (st : S) (s : seq T)
  : result S :=
  if s is x :: s' then st' <- body st x ;; for_loop body st' s' else Ok st.

(** [enumerate(s)]. *)
Definition enumerate T (s : seq T) : seq (nat * T) :=
  zip (iota 0 (size s)) s.

Definition inspect {A} (a : A) : {b | a = b} := exist _ a erefl.

(** ** Layer index lookup: [_z_to_lind] *)

Section ZToLind.

Variables (disp : Order.disp_t) (R : orderType disp).

(** Of a layer the lookup reads the upper boundary [z_max] only. *)
Record layer := Layer { z_max : R }.

Record phot_cryst := PhotCryst {
  claddings : seq layer;
  layers : seq layer
}.

(** The attributes of [self] that [_z_to_lind] reads. *)
Record lind_self := LindSelf { phc : phot_cryst; N_layers : nat }.

(** The [while] loop, on its state [(lind, z_max)]; [layers[lind - 1]] is
    read after [lind += 1]. *)
Equations? z_to_lind_while (self : lind_self) (z : R) (lind : nat) (zmax : R)
  : result (nat * R) by wf (N_layers self - lind)%N lt :=
  z_to_lind_while self z lind zmax
    with inspect ((zmax < z)%O && (lind < N_layers self)%N) := {
    | exist _ true _ with getitem (layers (phc self)) (lind.+1 - 1) := {
       | Ok l => z_to_lind_while self z lind.+1 (z_max l)
       | Raise e => Raise e };
    | exist _ false _ => Ok (lind, zmax) }.
Proof.
move: e => /andP[_ lt_lind]; apply/ssrnat.ltP.
by rewrite subnS prednK // subn_gt0.
Qed.

Definition z_to_lind (self : lind_self) (z : R) : result nat :=
  clad <- getitem (claddings (phc self)) 0 ;;
  st <- z_to_lind_while self z 0 (z_max clad) ;;
  let: (lind, zmax) := st in
  Ok (if (zmax < z)%O && (lind == N_layers self) then lind.+1 else lind).

(** The upper boundaries the loop walks: the lower cladding, then the
    layers [1 .. N_layers]. *)
Definition boundaries (self : lind_self) (clad : layer) : seq R :=
  z_max clad :: [seq z_max l | l <- take (N_layers self) (layers (phc self))].

End ZToLind.

Local Open Scope ring_scope.

(** ** numpy operations on arrays *)

Section Numpy.

Variable C : numClosedFieldType.

(** [np.sum(A)] *)
Definition np_sum m n (A : 'M[C]_(m, n)) : C := \sum_i \sum_j A i j.

(** [A * B] and [A / B], element by element *)
Definition np_mul m n (A B : 'M[C]_(m, n)) : 'M[C]_(m, n) :=
  \matrix_(i, j) (A i j * B i j).

Definition np_div m n (A B : 'M[C]_(m, n)) : 'M[C]_(m, n) :=
  \matrix_(i, j) (A i j / B i j).

Definition np_conjugate m n (A : 'M[C]_(m, n)) : 'M[C]_(m, n) :=
  map_mx Num.conj A.

Definition np_real m n (A : 'M[C]_(m, n)) : 'M[C]_(m, n) :=
  map_mx (fun x => 'Re x) A.

Definition np_sqrt m n (A : 'M[C]_(m, n)) : 'M[C]_(m, n) := map_mx sqrtC A.

(** [A.astype(float)]: the imaginary parts are discarded. *)
Definition astype_float m n (A : 'M[C]_(m, n)) : 'M[C]_(m, n) := np_real A.

(** [A[i, :]] for [i] taken from [range(m)]. *)
Definition getrow m n (A : 'M[C]_(m, n)) (i : nat) : 'rV[C]_n :=
  \row_j (if insub i is Some i' then A i' j else 0).

(** [A[i, j] = v] for [i] and [j] taken from ranges. *)
Definition setitem2 m n (A : 'M[C]_(m, n)) (i j : nat) (v : C)
  : 'M[C]_(m, n) :=
  \matrix_(i', j')
    (if (nat_of_ord i' == i) && (nat_of_ord j' == j) then v else A i' j').

(** [np.fill_diagonal(A, v)] *)
Definition fill_diagonal n (A : 'M[C]_n) (v : 'rV[C]_n) : 'M[C]_n :=
  \matrix_(i, j) (if i == j then v 0 i else A i j).

(** [np.shape(A)[0]] *)
Definition shape0 m n (A : 'M[C]_(m, n)) : nat := m.

(** A column of a two-dimensional array, as the list of its entries. *)
Definition seq_of_col r (v : 'cV[C]_r) : seq C := [seq v i 0 | i <- enum 'I_r].

(** [s[a:b]] and [s[a:]] for [0 <= a] and [0 <= b]. *)
Definition slice T (a b : nat) (s : seq T) : seq T := take (b - a) (drop a s).

Definition slice_from T (a : nat) (s : seq T) : seq T := drop a s.

(** [s[0:k]] for an integer [k] of either sign. *)
Definition slice_to T (k : int) (s : seq T) : seq T :=
  match k with
  | Posz n => take n s
  | Negz n => take (size s - n.+1) s
  end.

(** [np.sum(np.abs(s)**2)] *)
Definition sum_abs2 (s : seq C) : C := \sum_(x <- s) `|x| ^+ 2.

(** numpy orders complex numbers by real part, then by imaginary part. *)
Definition lexle (x y : C) : bool :=
  ('Re x < 'Re y) || (('Re x == 'Re y) && ('Im x <= 'Im y)).

(** [np.argsort(s)]; equal elements are left in the order of their
    indices. *)
Definition argsort (s : seq C) : seq nat :=
  sort (fun i j => lexle (nth 0 s i) (nth 0 s j)) (iota 0 (size s)).

(** [s[idx]] for an index array [idx]. *)
Definition take_idx T (x0 : T) (s : seq T) (idx : seq nat) : seq T :=
  [seq nth x0 s i | i <- idx].

End Numpy.

(** ** The constants of [legume.constants] *)

Module cs.
Record t (C : Type) := Make {
  hbar : C;
  e : C;
  m_e : C;
  epsilon_0 : C;
  h_eV_Hz : C;
  c : C
}.
End cs.

(** ** The providers *)

(** The value of [gme.symmetry.lower()]: one of the four strings the
    assembly tests, or any other string. *)
Inductive symmetry_t := sym_none | sym_both | sym_odd | sym_even | sym_other.

(** The guided-mode expansion after its [run]: [N_max] bands, fields with
    [ncomp] components over [Ng] reciprocal lattice vectors.  The arrays
    [freqs...] are read by rows [freqs[kind, :]]; [ft_field_xy g kind mind z]
    is [ft_field_xy("E", kind=kind, mind=mind, z=z)], its components stacked
    as the rows of one array, as [np.dot] reads them. *)
Module gme.
Record t (C : Type) (N_max ncomp Ng : nat) := Make {
  symmetry : symmetry_t;
  freqs : nat -> 'rV[C]_N_max;
  freqs_im : nat -> 'rV[C]_N_max;
  freqs_odd : nat -> 'rV[C]_N_max;
  freqs_im_odd : nat -> 'rV[C]_N_max;
  freqs_even : nat -> 'rV[C]_N_max;
  freqs_im_even : nat -> 'rV[C]_N_max;
  ft_field_xy : nat -> nat -> C -> 'M[C]_(ncomp, Ng)
}.
Definition numeig (C : Type) (N_max ncomp Ng : nat) (g : t C N_max ncomp Ng)
  : nat := N_max.
End gme.

(** One excitonic solver after its [run]: [M_max] bands. *)
Module exc.
Record t (C : Type) (M_max ncomp Ng : nat) := Make {
  z : C;
  a : C;
  osc_str : 'rV[C]_ncomp;
  eners : nat -> 'rV[C]_M_max;
  ft_wavef_xy : nat -> nat -> 'rV[C]_Ng
}.
Definition numeig_ex (C : Type) (M_max ncomp Ng : nat)
  (ex : t C M_max ncomp Ng) : nat := M_max.
(** The same solver with another lattice constant. *)
Definition with_a (C : Type) (M_max ncomp Ng : nat)
  (ex : t C M_max ncomp Ng) (a' : C) : t C M_max ncomp Ng :=
  Make (z ex) a' (osc_str ex) (eners ex) (ft_wavef_xy ex).
End exc.

(** ** The class [HopfieldPol] *)

Section HopfieldPol.

Variable C : numClosedFieldType.

(** [self.N_max], [self.M_max], and the shapes of the providers' arrays *)
Variables (N_max M_max ncomp Ng : nat).

Variable k : cs.t C.

Notation gme_t := (gme.t C N_max ncomp Ng).
Notation exc_t := (exc.t C M_max ncomp Ng).

(** *** [_calculate_fraction] *)

Definition calculate_fraction (num_QWs : nat) r (eigenvectors : seq 'cV[C]_r)
  : seq C * seq C :=
  let num_bands := size eigenvectors in
  let frac_ex := nseq num_bands (0 : C) in
  let frac_ph := nseq num_bands (0 : C) in
  foldl (fun st band =>
    let: (frac_ex, frac_ph) := st in
    let col := seq_of_col (nth 0 eigenvectors band) in
    let frac_ph := set_nth 0 frac_ph band
      (sum_abs2 (slice 0 N_max col)
       + sum_abs2 (slice (N_max + M_max * num_QWs)
                         (2 * N_max + M_max * num_QWs) col)) in
    let frac_ex := set_nth 0 frac_ex band
      (sum_abs2 (slice N_max (N_max + M_max * num_QWs) col)
       + sum_abs2 (slice_from (2 * N_max + M_max * num_QWs) col)) in
    (frac_ex, frac_ph))
  (frac_ex, frac_ph) (iota 0 num_bands).

(** *** [_calculate_C_D] *)

(** The prefactor of [C], for the lattice constant [self.a]. *)
Definition pref (a : C) : C :=
  - 'i * sqrtC (cs.hbar k ^+ 2 * cs.e k ^+ 2
                / (4 * cs.m_e k * cs.epsilon_0 k))
  / cs.e k / sqrtC a.

Definition calculate_C_D (g : gme_t) (a : C) (ex : exc_t) (kind : nat)
  : 'M[C]_(N_max, M_max) * 'M[C]_N_max :=
  let pref := pref a in
  let C0 : 'M[C]_(N_max, M_max) := 0 in
  let Cm :=
    foldl (fun Cm n =>
      let E_comp := gme.ft_field_xy g kind n (exc.z ex) in
      foldl (fun Cm nu =>
        let W_comp := exc.ft_wavef_xy ex kind nu in
        setitem2 Cm n nu
          (pref * np_sum (np_mul
                    (np_sqrt (astype_float (exc.osc_str ex)) *m E_comp)
                    (np_conjugate W_comp))))
      Cm (iota 0 M_max))
    C0 (iota 0 N_max) in
  let D0 : 'M[C]_N_max := 0 in
  let D :=
    foldl (fun D n_1 =>
      foldl (fun D n_2 =>
        setitem2 D n_1 n_2
          (np_sum (np_div
             (np_mul (np_conjugate (getrow Cm n_1)) (getrow Cm n_2))
             (np_real (exc.eners ex kind)))))
      D (iota 0 N_max))
    D0 (iota 0 N_max) in
  (Cm, D).

(** *** [_construct_Hopfield] *)

(** The number of rows of the assembled matrix, as [np.vstack] of four
    block-rows of heights [N_max], [num_QWs * M_max], [N_max],
    [num_QWs * M_max] gives it. *)
Definition hopfield_size (num_QWs : nat) : nat :=
  (N_max + (num_QWs * M_max + (N_max + num_QWs * M_max)))%N.

(** [bd.hstack] of the list [C_blocks] of [num_QWs] blocks: column
    [q * M_max + nu] of the result is column [nu] of block [q].  A
    placeholder [[]] left in the list cannot be stacked. *)
Definition hstack (num_QWs : nat) (blocks : seq (option 'M[C]_(N_max, M_max)))
  : result 'M[C]_(N_max, num_QWs * M_max) :=
  if all isSome blocks then
    Ok (\matrix_(n < N_max, j < num_QWs * M_max)
          mxvec (\matrix_(q < num_QWs, nu < M_max)
                   (odflt 0 (nth None blocks q)) n nu) 0 j)
  else Raise ValueError.

(** [np.concatenate([exc_out.eners[kind] for exc_out in exc_list])] *)
Definition concatenate_eners (num_QWs : nat) (ex0 : exc_t)
  (exc_list : seq exc_t) (kind : nat) : 'rV[C]_(num_QWs * M_max) :=
  mxvec (\matrix_(q < num_QWs, nu < M_max)
           exc.eners (nth ex0 exc_list q) kind 0 nu).

(** The values written on the diagonal of [diag_phot], if any. *)
Definition photon_diagonal (g : gme_t) (conv_fact : C) (kind : nat)
  : option 'rV[C]_N_max :=
  match gme.symmetry g with
  | sym_none | sym_both =>
      Some (conv_fact *: gme.freqs g kind
            + conv_fact *: ('i *: gme.freqs_im g kind))
  | sym_odd =>
      Some (conv_fact *: gme.freqs_odd g kind
            + conv_fact *: ('i *: gme.freqs_im_odd g kind))
  | sym_even =>
      Some (conv_fact *: gme.freqs_even g kind
            + conv_fact *: ('i *: gme.freqs_im_even g kind))
  | sym_other => None
  end.

(** The state of the loop over the quantum wells: [D_final_block],
    [C_blocks], and the loop variable [D], unbound before the first
    iteration. *)
Definition qw_state : Type :=
  ('M[C]_N_max * seq (option 'M[C]_(N_max, M_max)) * option 'M[C]_N_max)%type.

Definition qw_body (g : gme_t) (a : C) (kind : nat) (st : qw_state)
  (it : nat * exc_t) : result qw_state :=
  let: (D_final_block, C_blocks, _) := st in
  let: (ind_ex, exc_sch) := it in
  let: (Cm, D) := calculate_C_D g a exc_sch kind in
  let D_final_block := D_final_block + D in
  C_blocks <- setitem C_blocks ind_ex (Some Cm) ;;
  Ok (D_final_block, C_blocks, Some D).

Definition construct_Hopfield (g : gme_t) (num_QWs : nat)
  (exc_list : seq exc_t) (kind : nat)
  : result 'M[C]_(hopfield_size num_QWs) :=
  ex0 <- getitem exc_list 0 ;;
  let a := exc.a ex0 in
  let conv_fact := cs.h_eV_Hz k * cs.c k / a in
  let C_blocks : seq (option 'M[C]_(N_max, M_max)) := nseq num_QWs None in
  let D_final_block : 'M[C]_N_max := 0 in
  let diag_phot : 'M[C]_N_max := 0 in
  let diag_phot :=
    if photon_diagonal g conv_fact kind is Some v
    then fill_diagonal diag_phot v else diag_phot in
  st <- for_loop (qw_body g a kind) (D_final_block, C_blocks, None)
          (enumerate exc_list) ;;
  let: (D_final_block, C_blocks, D) := st in
  C_final_block <- hstack num_QWs C_blocks ;;
  let C_dagger_final_block := np_conjugate (C_final_block^T) in
  let diag_exc : 'M[C]_(num_QWs * M_max) := 0 in
  let exc_el := concatenate_eners num_QWs ex0 exc_list kind in
  let diag_exc := fill_diagonal diag_exc exc_el in
  let diag_phot := diag_phot + 2 *: np_real D_final_block in
  D <- (if D is Some D then Ok D else Raise NameError) ;;
  let row_0 :=
    row_mx diag_phot (row_mx (- 'i *: C_final_block)
      (row_mx (- 2 *: D) (- 'i *: C_final_block))) in
  let row_1 :=
    row_mx ('i *: C_dagger_final_block) (row_mx diag_exc
      (row_mx (- 'i *: C_dagger_final_block) (0 *: diag_exc))) in
  let row_2 :=
    row_mx (2 *: D) (row_mx (- 'i *: C_final_block)
      (row_mx (- diag_phot) (- 'i *: C_final_block))) in
  let row_3 :=
    row_mx (- 'i *: C_dagger_final_block) (row_mx (0 *: diag_exc)
      (row_mx ('i *: C_dagger_final_block) (- diag_exc))) in
  Ok (col_mx row_0 (col_mx row_1 (col_mx row_2 row_3))).

(** *** [run] *)

(** [bd.eig]: the eigenvalues, and the eigenvectors as the list of the
    columns of the array numpy returns. *)
Variable eig : forall n, 'M[C]_n -> seq C * seq 'cV[C]_n.

(** What [run] appends for one k-point. *)
Record kpoint_result (n : nat) := KpointResult {
  ener : seq C;
  ener_im : seq C;
  evec : seq 'cV[C]_n;
  fraction_ex : seq C;
  fraction_ph : seq C
}.

(** [ener2 - bd.ones(n)] *)
Definition unshift (ener2 : seq C) : seq C := [seq e - 1 | e <- ener2].

(** [bd.real(ener1) >= 0] *)
Definition filter_positive (ener1 : seq C) : seq bool :=
  [seq 0 <= 'Re e | e <- ener1].

(** The body of the loop over the k-points, after the assembly. *)
Definition diagonalise (num_QWs : nat) (mat : 'M[C]_(hopfield_size num_QWs))
  : kpoint_result (hopfield_size num_QWs) :=
  let numeig := shape0 mat in
  let: (ener2, evecs) := eig (mat + 1%:M) in
  let ener1 := unshift ener2 in
  let filt_pos := filter_positive ener1 in
  let ener1 := mask filt_pos ener1 in
  let evecs := mask filt_pos evecs in
  let: (fractions_ex, fractions_ph) := calculate_fraction num_QWs evecs in
  let i_sort := slice_to ((numeig %/ 2)%:Z - 1) (argsort ener1) in
  KpointResult
    [seq 'Re e | e <- take_idx 0 ener1 i_sort]
    [seq 'Im e | e <- take_idx 0 ener1 i_sort]
    (take_idx 0 evecs i_sort)
    (take_idx 0 fractions_ex i_sort)
    (take_idx 0 fractions_ph i_sort).

Definition run_kpoint (g : gme_t) (num_QWs : nat) (exc_list : seq exc_t)
  (ik : nat)
  : result (kpoint_result (hopfield_size num_QWs)
            * 'M[C]_(hopfield_size num_QWs)) :=
  mat <- construct_Hopfield g num_QWs exc_list ik ;;
  Ok (diagonalise mat, mat).

(** The state of the loop over the k-points: what was appended so far,
    and the local variable [mat], unbound before the first iteration. *)
Definition run_body (g : gme_t) (num_QWs : nat) (exc_list : seq exc_t)
  (kpoints : seq (C * C))
  : result (seq (kpoint_result (hopfield_size num_QWs))
            * 'M[C]_(hopfield_size num_QWs)) :=
  ex0 <- getitem exc_list 0 ;;
  let M_max' := exc.numeig_ex ex0 in
  st <- for_loop (fun st ikk =>
          let: (results, _) := st in
          r <- run_kpoint g num_QWs exc_list ikk.1 ;;
          Ok (rcons results r.1, Some r.2))
        ([::], None) (enumerate kpoints) ;;
  let: (results, mat) := st in
  mat <- (if mat is Some mat then Ok mat else Raise NameError) ;;
  Ok (results, mat).

Definition run (g : gme_t) (exc_list : seq exc_t) (kpoints : seq (C * C)) :=
  run_body g (size exc_list) exc_list kpoints.

End HopfieldPol.

(** ** The formulas of the specification *)

Section SpecFormulas.

Variable C : numClosedFieldType.
Variables (N_max M_max ncomp Ng : nat).
Variable k : cs.t C.

(** prefactor = -i sqrt(hbar^2 e^2 / (4 m_e epsilon_0)) / e / sqrt(a) *)
Definition spec_prefactor (a : C) : C :=
  - 'i * sqrtC (cs.hbar k ^+ 2 * cs.e k ^+ 2
                / (4 * cs.m_e k * cs.epsilon_0 k))
  / cs.e k / sqrtC a.

(** C[n, nu] = prefactor * sum over the Fourier components of
    (sum over the field components of sqrt(oscillator strength) * field)
    * conjugate(wavefunction), the oscillator strengths cast to real. *)
Definition spec_C (g : gme.t C N_max ncomp Ng) (a : C)
  (ex : exc.t C M_max ncomp Ng) (kind : nat) (n : 'I_N_max) (nu : 'I_M_max)
  : C :=
  spec_prefactor a *
  \sum_(G < Ng)
     (\sum_(c < ncomp) sqrtC ('Re (exc.osc_str ex 0 c))
                         * gme.ft_field_xy g kind n (exc.z ex) c G)
     * (exc.ft_wavef_xy ex kind nu 0 G)^*.

(** D[n1, n2] = sum over nu of conjugate(C[n1, nu]) * C[n2, nu]
    / Re(exciton_energy[nu]) *)
Definition spec_D (Cm : 'M[C]_(N_max, M_max)) (ex : exc.t C M_max ncomp Ng)
  (kind : nat) (n1 n2 : 'I_N_max) : C :=
  \sum_(nu < M_max) (Cm n1 nu)^* * Cm n2 nu / 'Re (exc.eners ex kind 0 nu).

(** The matrix of the specification: four block-rows
    [diag_photon, -i C_total, -2 D, -i C_total],
    [i C_dagger, diag_exciton, -i C_dagger, 0],
    [2 D, -i C_total, -diag_photon, -i C_total],
    [-i C_dagger, 0, i C_dagger, -diag_exciton],
    with [C_dagger = conjugate(transpose(C_total))]. *)
Definition spec_Hopfield N K (diag_photon : 'M[C]_N) (C_total : 'M[C]_(N, K))
  (D : 'M[C]_N) (diag_exciton : 'M[C]_K) : 'M[C]_(N + (K + (N + K))) :=
  let C_dagger := map_mx Num.conj (C_total^T) in
  col_mx
    (row_mx diag_photon
       (row_mx (- 'i *: C_total) (row_mx (- 2 *: D) (- 'i *: C_total))))
    (col_mx
       (row_mx ('i *: C_dagger)
          (row_mx diag_exciton (row_mx (- 'i *: C_dagger) 0)))
       (col_mx
          (row_mx (2 *: D)
             (row_mx (- 'i *: C_total)
                (row_mx (- diag_photon) (- 'i *: C_total))))
          (row_mx (- 'i *: C_dagger)
             (row_mx 0 (row_mx ('i *: C_dagger) (- diag_exciton)))))).

(** The block of block-row 0 and block-column 2, and its mirror. *)
Definition block_0_2 N K (A : 'M[C]_(N + (K + (N + K)))) : 'M[C]_N :=
  lsubmx (rsubmx (rsubmx (usubmx A))).

Definition block_2_0 N K (A : 'M[C]_(N + (K + (N + K)))) : 'M[C]_N :=
  lsubmx (usubmx (dsubmx (dsubmx A))).

(** The blocks of one quantum well, for the lattice constant [a]. *)
Definition well_C (g : gme.t C N_max ncomp Ng) (a : C) (kind : nat)
  (ex : exc.t C M_max ncomp Ng) : 'M[C]_(N_max, M_max) :=
  (calculate_C_D k g a ex kind).1.

Definition well_D (g : gme.t C N_max ncomp Ng) (a : C) (kind : nat)
  (ex : exc.t C M_max ncomp Ng) : 'M[C]_N_max :=
  (calculate_C_D k g a ex kind).2.

(** [C_total]: the coupling blocks of all the quantum wells, side by
    side. *)
Definition C_total (g : gme.t C N_max ncomp Ng) (a : C) (kind : nat)
  (num_QWs : nat) (ex0 : exc.t C M_max ncomp Ng)
  (exc_list : seq (exc.t C M_max ncomp Ng)) : 'M[C]_(N_max, num_QWs * M_max) :=
  \matrix_(n < N_max, j < num_QWs * M_max)
     mxvec (\matrix_(q < num_QWs, nu < M_max)
              well_C g a kind (nth ex0 exc_list q) n nu) 0 j.

(** [D]: the self-energy block summed over the quantum wells. *)
Definition D_total (g : gme.t C N_max ncomp Ng) (a : C) (kind : nat)
  (exc_list : seq (exc.t C M_max ncomp Ng)) : 'M[C]_N_max :=
  \sum_(ex <- exc_list) well_D g a kind ex.

(** The diagonal matrix of the photonic energies, in eV. *)
Definition photon_block (g : gme.t C N_max ncomp Ng) (a : C) (kind : nat)
  : 'M[C]_N_max :=
  if photon_diagonal g (cs.h_eV_Hz k * cs.c k / a) kind is Some v
  then diag_mx v else 0.

(** The diagonal matrix of the excitonic energies of all the wells. *)
Definition exciton_block (num_QWs : nat) (ex0 : exc.t C M_max ncomp Ng)
  (exc_list : seq (exc.t C M_max ncomp Ng)) (kind : nat)
  : 'M[C]_(num_QWs * M_max) :=
  diag_mx (concatenate_eners num_QWs ex0 exc_list kind).

(** The matrix of the specification on the blocks the assembly
    computes for the wells [ex0 :: rest]: the summed [D] in the photonic
    diagonal, the [D] of the last well in the off-diagonal blocks. *)
Definition assembled (g : gme.t C N_max ncomp Ng)
  (ex0 : exc.t C M_max ncomp Ng) (rest : seq (exc.t C M_max ncomp Ng))
  (kind : nat) : 'M[C]_(hopfield_size N_max M_max (size (ex0 :: rest))) :=
  spec_Hopfield
    (photon_block g (exc.a ex0) kind
     + 2 *: np_real (D_total g (exc.a ex0) kind (ex0 :: rest)))
    (C_total g (exc.a ex0) kind (size (ex0 :: rest)) ex0 (ex0 :: rest))
    (well_D g (exc.a ex0) kind (last ex0 rest))
    (exciton_block (size (ex0 :: rest)) ex0 (ex0 :: rest) kind).

End SpecFormulas.

(** ** Vocabulary of the specification *)

Section Vocabulary.

Variable C : numClosedFieldType.

(** The 2-norm of an eigenvector column. *)
Definition norm2 r (v : 'cV[C]_r) : C := sqrtC (\sum_i `|v i 0| ^+ 2).

(** [s] lists the eigenvalues of [A] with their multiplicities. *)
Definition is_spectrum n (A : 'M[C]_n) (s : seq C) : Prop :=
  char_poly A = \prod_(x <- s) ('X - x%:P).

(** An eigen-solver is exact when it returns the spectrum, and as many
    eigenvector columns as eigenvalues. *)
Definition eig_exact (eig : forall n, 'M[C]_n -> seq C * seq 'cV[C]_n)
  : Prop :=
  forall n (A : 'M[C]_n),
    is_spectrum A (eig n A).1 /\ size (eig n A).2 = size (eig n A).1.

(** An exact eigen-solver: the roots of the characteristic polynomial,
    each with an eigenvector column when it has one. *)
Definition ideal_eigvals n (A : 'M[C]_n) : seq C :=
  sval (closed_field_poly_normal (char_poly A)).

Definition ideal_eigvec n (A : 'M[C]_n) (x : C) : 'cV[C]_n :=
  (nz_row (kermx ((A - x%:M)^T)))^T.

Definition ideal_eig n (A : 'M[C]_n) : seq C * seq 'cV[C]_n :=
  (ideal_eigvals A, [seq ideal_eigvec A x | x <- ideal_eigvals A]).

(** The entries of a row, in order. *)
Definition seq_of_row n (v : 'rV[C]_n) : seq C := [seq v 0 i | i <- enum 'I_n].

(** The [k] lowest, in numpy's order, of the numbers of [s] with a
    non-negative real part. *)
Definition lowest_positive (k : nat) (s : seq C) : seq C :=
  take k (sort (@lexle C) [seq e <- s | 0 <= 'Re e]).

End Vocabulary.

(** ** The decoupled limit *)

Section Decoupled.

Variable C : numClosedFieldType.
Variables (N_max M_max ncomp Ng : nat).
Variable k : cs.t C.

(** The photonic energies the assembly writes on the diagonal (zeros when
    it writes none). *)
Definition photon_levels (g : gme.t C N_max ncomp Ng) (a : C) (kind : nat)
  : 'rV[C]_N_max :=
  if photon_diagonal g (cs.h_eV_Hz k * cs.c k / a) kind is Some v
  then v else 0.

(** The bare photonic energies: the real parts of the photonic levels. *)
Definition bare_photonic_energies (g : gme.t C N_max ncomp Ng) (a : C)
  (kind : nat) : seq C :=
  [seq 'Re e | e <- seq_of_row (photon_levels g a kind)].

(** The photonic levels, the excitonic levels of all the wells, and their
    opposites. *)
Definition decoupled_levels (g : gme.t C N_max ncomp Ng)
  (ex0 : exc.t C M_max ncomp Ng) (rest : seq (exc.t C M_max ncomp Ng))
  (kind : nat) : seq C :=
  let p := photon_levels g (exc.a ex0) kind in
  let x := concatenate_eners (size (ex0 :: rest)) ex0 (ex0 :: rest) kind in
  seq_of_row (row_mx p (row_mx x (row_mx (- p) (- x)))).

End Decoupled.

(** ** Small configurations *)

Section Configurations.

(** Constants for which the prefactor of [C] is [- i] and the conversion
    factor is 1, at lattice constant 1. *)
Definition k_unit : cs.t algC := cs.Make 1 1 1 (4^-1) 1 1.

(** One photonic band of frequency [f] without loss, one field
    component over one reciprocal lattice vector, of coefficient 1. *)
Definition gme_one (f : algC) : gme.t algC 1 1 1 :=
  gme.Make sym_none (fun _ => const_mx f) (fun _ => 0) (fun _ => 0)
    (fun _ => 0) (fun _ => 0) (fun _ => 0) (fun _ _ _ => const_mx 1).

(** One quantum well at [z = 0] with lattice constant 1: one excitonic
    band of energy [E] and oscillator strength [os], of wavefunction
    coefficient 1. *)
Definition exc_one (os E : algC) : exc.t algC 1 1 1 :=
  exc.Make 0 1 (const_mx os) (fun _ => const_mx E) (fun _ _ => const_mx 1).

End Configurations.

(** ** Eigenpairs *)

Section EigenPairs.

Variable C : numClosedFieldType.

(** [bd.eig] returns eigenpairs when column [i] of its second result is
    an eigenvector of the matrix for entry [i] of its first result. *)
Definition eig_pairs (eig : forall n, 'M[C]_n -> seq C * seq 'cV[C]_n)
  : Prop :=
  forall n (A : 'M[C]_n),
    size (eig n A).2 = size (eig n A).1 /\
    forall i, (i < size (eig n A).1)%N ->
      A *m nth 0 (eig n A).2 i = nth 0 (eig n A).1 i *: nth 0 (eig n A).2 i.

(** The result [run] appends for a k-point at which it retains nothing. *)
Definition no_band n : kpoint_result C n :=
  KpointResult [::] [::] [::] [::] [::].

End EigenPairs.

(** ** The constructor: [HopfieldPol.__init__] *)

(** [s[i]] for an integer index [i] of either sign. *)
Definition getitem_int T (s : seq T) (i : int) : result T :=
  match i with
  | Posz n => getitem s n
  | Negz n =>
      if (n < size s)%N then getitem s (size s - n.+1) else Raise IndexError
  end.

(** A property that holds of every element of a list. *)
Fixpoint every T (P : T -> Prop) (s : seq T) : Prop :=
  if s is x :: s' then P x /\ every P s' else True.

(** A block of quantum wells added with [add_qw]: the positions [z] of
    its wells and, per well, the parameters handed to the excitonic
    solver. *)
Module qw.
Record t (Z P : Type) := Make {
  z : seq Z;
  Vmax : seq P;
  a : seq P;
  M : seq P;
  E0 : seq P;
  loss : seq P;
  osc_str : seq P
}.
End qw.

(** Of the photonic crystal the constructor reads [layers] and [qws]. *)
Module PhotCryst.
Record t (L Z P : Type) := Make {
  layers : seq L;
  qws : seq (qw.t Z P)
}.
End PhotCryst.

(** The two solver objects, each as the arguments its class is
    constructed with. *)
Module GuidedModeExp.
Record t (L Z P G T : Type) := Make {
  phc : PhotCryst.t L Z P;
  gmax : G;
  truncate_g : T
}.
End GuidedModeExp.

Module ExcitonSchroedEq.
Record t (L Z P G T : Type) := Make {
  layer : L;
  z : Z;
  Vmax : P;
  a : P;
  M : P;
  E0 : P;
  loss : P;
  osc_str : P;
  gmax : G;
  truncate_g : T
}.
End ExcitonSchroedEq.

Section Constructor.

(** Layers, positions, well parameters, and the two truncation
    arguments. *)
Variables (L Z P G T : Type).

(** [self.gme._z_to_lind], the layer lookup of the guided-mode
    expansion. *)
Variable gme_z_to_lind : GuidedModeExp.t L Z P G T -> Z -> result nat.

(** The attributes [__init__] sets. *)
Record hopfield_pol := HopfieldPol {
  gme_of : GuidedModeExp.t L Z P G T;
  exc_list_of : seq (ExcitonSchroedEq.t L Z P G T)
}.

(** The body of the loop over the wells of one block. *)
Definition init_well (phc : PhotCryst.t L Z P)
  (gme : GuidedModeExp.t L Z P G T) (gmax : G) (truncate_g : T)
  (qw : qw.t Z P) (exc_list : seq (ExcitonSchroedEq.t L Z P G T))
  (it : nat * Z) : result (seq (ExcitonSchroedEq.t L Z P G T)) :=
  let: (ind, z) := it in
  layer_ind <- gme_z_to_lind gme z ;;
  layer <- getitem_int (PhotCryst.layers phc) (layer_ind%:Z - 1) ;;
  Vmax <- getitem (qw.Vmax qw) ind ;;
  a <- getitem (qw.a qw) ind ;;
  M <- getitem (qw.M qw) ind ;;
  E0 <- getitem (qw.E0 qw) ind ;;
  loss <- getitem (qw.loss qw) ind ;;
  osc_str <- getitem (qw.osc_str qw) ind ;;
  Ok (rcons exc_list
        (ExcitonSchroedEq.Make layer z Vmax a M E0 loss osc_str
           gmax truncate_g)).

Definition init (phc : PhotCryst.t L Z P) (gmax : G) (truncate_g : T)
  : result hopfield_pol :=
  let gme := GuidedModeExp.Make phc gmax truncate_g in
  let exc_list : seq (ExcitonSchroedEq.t L Z P G T) := [::] in
  exc_list <- for_loop (fun exc_list qw =>
                for_loop (init_well phc gme gmax truncate_g qw) exc_list
                  (enumerate (qw.z qw)))
              exc_list (PhotCryst.qws phc) ;;
  Ok (HopfieldPol gme exc_list).

(** The positions of all the wells of the crystal, block after block. *)
Definition well_positions (phc : PhotCryst.t L Z P) : seq Z :=
  flatten [seq qw.z qw | qw <- PhotCryst.qws phc].

(** The values of one parameter for all the wells of the crystal: of
    each block, the entries of the parameter's list at the indices of
    the wells of the block. *)
Definition well_params (param : qw.t Z P -> seq P) (phc : PhotCryst.t L Z P)
  : seq P :=
  flatten [seq take (size (qw.z qw)) (param qw) | qw <- PhotCryst.qws phc].

End Constructor.

(** ** Bravais lattices: [legume/lattice.py] *)

Bind Scope string_scope with String.string.
Delimit Scope string_scope with string.

(** [s.lower()] on ASCII strings. *)
Definition lower_ascii (c : Ascii.ascii) : Ascii.ascii :=
  let n := Ascii.nat_of_ascii c in
  if (65 <= n)%N && (n <= 90)%N then Ascii.ascii_of_nat (n + 32) else c.

Fixpoint lower (s : String.string) : String.string :=
  match s with
  | String.EmptyString => String.EmptyString
  | String.String c s' => String.String (lower_ascii c) (lower s')
  end.

(** [A[:, a:b] = X] on the list of the columns of [A]: the slice is
    clipped to the array, and [X] has as many columns as the slice, or
    one column that is repeated. *)
Definition setslice T (s : seq T) (a b : nat) (X : seq T) : result (seq T) :=
  let w := (minn b (size s) - a)%N in
  if size X == w then Ok (take a s ++ X ++ drop (a + w) s)
  else if X is [:: x] then Ok (take a s ++ nseq w x ++ drop (a + w) s)
  else Raise ValueError.

Module Lattice.

Section Lattice.

(** The real numbers, and [np.pi]. *)
Variable R : rcfType.
Variable pi : R.

(** [bd.array([x, y, z])] and [np.array([x, y])] *)
Definition array3 (x y z : R) : 'rV[R]_3 := \row_i nth 0 [:: x; y; z] i.

Definition array2 (x y : R) : 'rV[R]_2 := \row_i nth 0 [:: x; y] i.

(** [v[i]] for a literal index [i]. *)
Definition at_ n (v : 'rV[R]_n) (i : nat) : R :=
  if insub i is Some i' then v 0 i' else 0.

(** [v[0:2]] *)
Definition slice02 (v : 'rV[R]_3) : 'rV[R]_2 := array2 (at_ v 0) (at_ v 1).

(** [bd.cross], [bd.dot] and [bd.norm] on arrays of three elements. *)
Definition cross (u v : 'rV[R]_3) : 'rV[R]_3 :=
  array3 (at_ u 1 * at_ v 2 - at_ u 2 * at_ v 1)
         (at_ u 2 * at_ v 0 - at_ u 0 * at_ v 2)
         (at_ u 0 * at_ v 1 - at_ u 1 * at_ v 0).

Definition dot n (u v : 'rV[R]_n) : R := \sum_i u 0 i * v 0 i.

Definition norm n (u : 'rV[R]_n) : R := Num.sqrt (\sum_i `|u 0 i| ^+ 2).

(** [self.type] *)
Inductive lattice_type := square | hexagonal | custom.

(** The arguments of the constructor: none, one string, two arrays of
    two elements each, or more than two arguments. *)
Inductive args_t :=
  | Args0
  | Args1 of String.string
  | Args2 of 'rV[R]_2 & 'rV[R]_2
  | ArgsMore.

Definition parse_input (args : args_t)
  : result (lattice_type * 'rV[R]_3 * 'rV[R]_3) :=
  match args with
  | Args1 s =>
      if String.eqb s "square" then
        Ok (square, array3 1 0 0, array3 0 1 0)
      else if String.eqb s "hexagonal" then
        Ok (hexagonal, array3 (2^-1) (Num.sqrt 3 / 2) 0,
                       array3 (2^-1) (- Num.sqrt 3 / 2) 0)
      else Raise ValueError
  | Args2 v1 v2 =>
      Ok (custom, array3 (at_ v1 0) (at_ v1 1) 0,
                  array3 (at_ v2 0) (at_ v2 1) 0)
  | Args0 | ArgsMore => Raise NameError
  end.

Record t := Make {
  type : lattice_type;
  a1 : 'rV[R]_2;
  a2 : 'rV[R]_2;
  b1 : 'rV[R]_2;
  b2 : 'rV[R]_2;
  ec_area : R;
  bz_area : R
}.

(** [__init__] *)
Definition init (args : args_t) : result t :=
  r <- parse_input args ;;
  let: (type, a1, a2) := r in
  let ec_area := norm (cross a1 a2) in
  let a3 := array3 0 0 1 in
  let b1 := map_mx (fun x => 2 * pi * x / dot a1 (cross a2 a3))
              (cross a2 a3) in
  let b2 := map_mx (fun x => 2 * pi * x / dot a2 (cross a3 a1))
              (cross a3 a1) in
  let bz_area := norm (cross b1 b2) in
  Ok (Make type (slice02 a1) (slice02 a2) (slice02 b1) (slice02 b2)
        ec_area bz_area).

(** [max([x, y])] *)
Definition max2 (x y : R) : R := if x < y then y else x.

(** [np.linspace(start, stop, num)] and
    [np.linspace(start, stop, num, endpoint=False)] *)
Definition linspace (start stop : R) (num : nat) : seq R :=
  [seq start + i%:R * ((stop - start) / (num.-1)%:R) | i <- iota 0 num].

Definition linspace_open (start stop : R) (num : nat) : seq R :=
  [seq start + i%:R * ((stop - start) / num%:R) | i <- iota 0 num].

Definition xy_grid (self : t) (Nx Ny : nat) : seq R * seq R :=
  let ymax := `|max2 (at_ (a1 self) 1) (at_ (a2 self) 1)| in
  let ymin := - ymax in
  let xmax := `|max2 (at_ (a1 self) 0) (at_ (a2 self) 0)| in
  let xmin := - xmax in
  (linspace xmin xmax Nx, linspace ymin ymax Ny).

(** A point of the Brillouin zone as [bz_path] receives it: an array of
    two elements, a string, or a value of another type, which is given
    by its [str]. *)
Inductive point :=
  | PtArray of 'rV[R]_2
  | PtStr of String.string
  | PtOther of String.string.

Definition parse_point (self : t) (pt : point) : result 'rV[R]_2 :=
  match pt with
  | PtArray v => Ok v
  | PtStr s =>
      if String.eqb (lower s) "g" || String.eqb (lower s) "gamma" then
        Ok (array2 0 0)
      else if String.eqb (lower s) "x" then
        if type self is square then Ok (array2 pi 0) else Raise ValueError
      else if String.eqb (lower s) "m" then
        match type self with
        | square => Ok (array2 pi pi)
        | hexagonal => Ok (array2 pi (pi / Num.sqrt 3))
        | custom => Raise ValueError
        end
      else if String.eqb (lower s) "k" then
        if type self is hexagonal then Ok (array2 (4 / 3 * pi) 0)
        else Raise ValueError
      else Raise ValueError
  | PtOther _ => Raise ValueError
  end.

(** [str(pt)]; [array_str] prints an array. *)
Variable array_str : 'rV[R]_2 -> String.string.

Definition str (pt : point) : String.string :=
  match pt with
  | PtArray v => array_str v
  | PtStr s => s
  | PtOther s => s
  end.

(** The object [bz_path] returns; [kpoints] is the list of the columns
    of the array. *)
Record path := Path {
  kpoints : seq 'rV[R]_2;
  pt_labels : seq String.string;
  pt_inds : seq nat
}.

(** The state of the loop of [bz_path]: [kpoints], [inds], [count], and
    the local variable [p2], unbound before the first iteration. *)
Definition bz_state : Type :=
  (seq 'rV[R]_2 * seq nat * nat * option 'rV[R]_2)%type.

Definition bz_body (self : t) (pts : seq point) (ns : seq nat)
  (st : bz_state) (ip : nat) : result bz_state :=
  let: (kpoints, inds, count, _) := st in
  pt1 <- getitem pts ip ;;
  p1 <- parse_point self pt1 ;;
  pt2 <- getitem pts ip.+1 ;;
  p2 <- parse_point self pt2 ;;
  n <- getitem ns ip ;;
  kpoints <- setslice kpoints count (count + n)
               [seq p1 + t *: (p2 - p1) | t <- linspace_open 0 1 n] ;;
  let count := (count + n)%N in
  Ok (kpoints, rcons inds count, count, Some p2).

(** [bz_path(pts, ns)], for counts [ns] that are not negative. *)
Definition bz_path (self : t) (pts : seq point) (ns : seq nat)
  : result path :=
  let npts := size pts in
  if (npts < 2)%N then Raise ValueError else
  ns <- (if size ns == 1%N then
           n0 <- getitem ns 0 ;; Ok (nseq (npts - 1) n0)
         else if size ns == (npts - 1)%N then Ok ns
         else Raise ValueError) ;;
  let kpoints : seq 'rV[R]_2 := nseq (sumn ns + 1) 0 in
  let inds := [:: 0%N] in
  let count := 0%N in
  st <- for_loop (bz_body self pts ns) (kpoints, inds, count, None)
          (iota 0 (npts - 1)) ;;
  let: (kpoints, inds, count, p2) := st in
  p2 <- (if p2 is Some p2 then Ok p2 else Raise NameError) ;;
  kpoints <- setitem kpoints (size kpoints).-1 p2 ;;
  Ok (Path kpoints [seq str pt | pt <- pts] inds).

(** The points [bz_path] writes for the segment from [p] to [q]: [n]
    points at equal steps from [p] on, [q] left out. *)
Definition segment (p q : 'rV[R]_2) (n : nat) : seq 'rV[R]_2 :=
  [seq p + t *: (q - p) | t <- linspace_open 0 1 n].

(** The signed area of the cell spanned by two vectors of the plane. *)
Definition det2 (u v : 'rV[R]_2) : R :=
  at_ u 0 * at_ v 1 - at_ u 1 * at_ v 0.

End Lattice.

End Lattice.

(** * Part II: properties *)

(** ** List indexing *)

Lemma getitem_nth T (x0 : T) (s : seq T) (i : nat) :
  (i < size s)%N -> getitem s i = Ok (nth x0 s i).
Proof. by move=> lt_i; rewrite /getitem (drop_nth x0 lt_i). Qed.

Lemma getitem_oversize T (s : seq T) (i : nat) :
  (size s <= i)%N -> getitem s i = Raise IndexError.
Proof. by move=> le_i; rewrite /getitem drop_oversize. Qed.

Lemma bind_Ok T U (x : T) (f : T -> result U) : bind (Ok x) f = f x.
Proof. by []. Qed.

Lemma bind_Raise T U (e : exn) (f : T -> result U) :
  bind (Raise e) f = Raise e.
Proof. by []. Qed.

(** ** The layer lookup *)

Section ZToLindFacts.

Variables (disp : Order.disp_t) (R : orderType disp).
Implicit Types (self : lind_self R) (z : R) (clad : layer R).

Lemma size_boundaries self clad :
  (N_layers self <= size (layers (phc self)))%N ->
  size (boundaries self clad) = (N_layers self).+1.
Proof. by move=> leN; rewrite /= size_map size_takel. Qed.

Lemma nth_boundaries self clad (x0 : R) (l0 : layer R) (i : nat) :
  (i < N_layers self)%N -> (N_layers self <= size (layers (phc self)))%N ->
  nth x0 (boundaries self clad) i.+1 = z_max (nth l0 (layers (phc self)) i).
Proof.
move=> lt_i leN; rewrite /= (nth_map l0) ?size_takel // nth_take //.
Qed.

(** The loop stops at the first boundary from [lind] on that [z] does not
    exceed, and at [N_layers] at the latest. *)
Lemma z_to_lind_whileE self clad z lind zmax :
  (N_layers self <= size (layers (phc self)))%N ->
  (lind <= N_layers self)%N ->
  zmax = nth (z_max clad) (boundaries self clad) lind ->
  z_to_lind_while self z lind zmax
  = Ok (minn (N_layers self)
          (lind + find (fun b => (z <= b)%O)
                    (drop lind (boundaries self clad))),
        nth (z_max clad) (boundaries self clad)
          (minn (N_layers self)
             (lind + find (fun b => (z <= b)%O)
                       (drop lind (boundaries self clad))))).
Proof.
move=> leN le_lind eq_zmax.
funelim (z_to_lind_while self z lind zmax).
- move=> {H Heqcall}; move: e; set B := boundaries self clad => e.
  have szB : size B = (N_layers self).+1 by apply: size_boundaries.
  have dropB := drop_nth (z_max clad) (_ : lind < size B)%N.
  rewrite dropB ?szB ?ltnS //=.
  case: ltP e => [_ /= /negbT|le_z _].
    rewrite -leqNgt => leNl.
    have -> : lind = N_layers self by apply/eqP; rewrite eqn_leq le_lind.
    by rewrite (minn_idPl _) // leq_addr.
  by rewrite addn0 (minn_idPr _).
- move=> {H0 Heqcall}.
  move: e; set B := boundaries self clad => /andP[lt_z lt_lind].
  have szB : size B = (N_layers self).+1 by apply: size_boundaries.
  have dropB := drop_nth (z_max clad) (_ : lind < size B)%N.
  rewrite dropB ?szB ?ltnS //= leNgt lt_z /= addnS -addSn.
  apply: H => //.
  have lt_sz : (lind < size (layers (phc self)))%N := leq_trans lt_lind leN.
  move: Heq; rewrite subn1 /= (getitem_nth l) // => -[<-].
  by rewrite -(nth_boundaries clad (z_max clad) l).
- move=> {H Heqcall}; move: e1 Heq => /andP[_ lt_lind].
  have lt_sz : (lind < size (layers (phc self)))%N := leq_trans lt_lind leN.
  by rewrite subn1 /= (getitem_nth (Layer z)).
Qed.

Lemma z_to_lind_find self clad z :
  getitem (claddings (phc self)) 0 = Ok clad ->
  (N_layers self <= size (layers (phc self)))%N ->
  z_to_lind self z
  = Ok (find (fun b => (z <= b)%O) (boundaries self clad)).
Proof.
move=> eq_clad leN; rewrite /z_to_lind eq_clad /bind.
rewrite (@z_to_lind_whileE self clad z 0 _ leN (leq0n _) erefl) add0n drop0.
set B := boundaries self clad; set p := fun b => (z <= b)%O.
have szB : size B = (N_layers self).+1 by apply: size_boundaries.
have := find_size p B; rewrite szB leq_eqVlt ltnS => /predU1P[eqf|lef].
  rewrite eqf (minn_idPl (leqnSn _)) eqxx andbT.
  have: ~~ has p B by rewrite has_find eqf szB ltnn.
  rewrite -all_predC => /allP/(_ (nth (z_max clad) B (N_layers self))).
  by rewrite mem_nth ?szB //= -ltNge => ->.
rewrite (minn_idPr lef).
have /(nth_find (z_max clad)) : has p B by rewrite has_find szB ltnS.
by rewrite /p leNgt => /negbTE ->.
Qed.

(** C6.  With the lower cladding present and [N_layers] layers in the stack,
    the layer lookup returns for every [z], without raising.  The index it
    returns is that of the first boundary (lower cladding, then the layers
    in order) that [z] does not exceed: every boundary before it lies
    strictly below [z], and its own boundary does not.  When [z] exceeds
    every boundary the result is [N_layers + 1], one past the index of the
    last layer. *)
Theorem z_to_lind_returns self clad z :
  getitem (claddings (phc self)) 0 = Ok clad ->
  (N_layers self <= size (layers (phc self)))%N ->
  exists lind,
    [/\ z_to_lind self z = Ok lind,
        (lind <= (N_layers self).+1)%N,
        forall i, (i < lind)%N ->
          (nth (z_max clad) (boundaries self clad) i < z)%O,
        (lind <= N_layers self)%N ->
          (z <= nth (z_max clad) (boundaries self clad) lind)%O
      & (forall i, (i <= N_layers self)%N ->
          (nth (z_max clad) (boundaries self clad) i < z)%O) ->
        lind = (N_layers self).+1].
Proof.
move=> eq_clad leN; set B := boundaries self clad.
set p := fun b => (z <= b)%O.
have szB : size B = (N_layers self).+1 by apply: size_boundaries.
exists (find p B); split.
- exact: z_to_lind_find.
- by rewrite -szB find_size.
- by move=> i /(before_find (z_max clad)); rewrite /p leNgt => /negbFE.
- by rewrite -ltnS -szB -has_find => /(nth_find (z_max clad)).
- move=> all_lt; apply/eqP; rewrite -szB eqn_leq find_size andTb leqNgt -has_find.
  apply/hasPn => b /(nthP (z_max clad))[i lt_i <-].
  by rewrite /p leNgt all_lt // -ltnS -szB.
Qed.

End ZToLindFacts.


(** ** The fraction analysis *)

Section FractionFacts.

Variable C : numClosedFieldType.
Variables (N_max M_max num_QWs : nat).

(** A loop that writes [f i] and [g i] at every index [i] of two arrays. *)
Lemma foldl_set_nth2 (f g : nat -> C) (n m : nat) (s t : seq C) (i : nat) :
  let res :=
    foldl (fun st band => let: (a, b) := st in
             let b' := set_nth 0 b band (g band) in
             let a' := set_nth 0 a band (f band) in (a', b'))
          (s, t) (iota m n) in
  nth 0 res.1 i = (if (m <= i < m + n)%N then f i else nth 0 s i) /\
  nth 0 res.2 i = (if (m <= i < m + n)%N then g i else nth 0 t i).
Proof.
elim: n m s t => [|n IHn] m s t /=.
  by rewrite addn0; case: (leqP m i) => //; case: (ltnP i m).
have /= [-> ->] := IHn m.+1 (set_nth 0 s m (f m)) (set_nth 0 t m (g m)).
rewrite !nth_set_nth /= addSnnS [(m <= i)%N]leq_eqVlt [m == i]eq_sym.
case: (eqVneq i m) => [->|ne_im] /=; last by [].
by rewrite ltnn /= -[X in (X < _)%N]addn0 ltn_add2l.
Qed.

Lemma sum_abs2_cat (s t : seq C) :
  sum_abs2 (s ++ t) = sum_abs2 s + sum_abs2 t.
Proof. by rewrite /sum_abs2 big_cat. Qed.

Lemma sum_abs2_col r (v : 'cV[C]_r) :
  sum_abs2 (seq_of_col v) = \sum_i `|v i 0| ^+ 2.
Proof. by rewrite /sum_abs2 /seq_of_col big_map big_enum. Qed.

(** The four row ranges cover every row once. *)
Lemma slices_partition T (s : seq T) (N K : nat) :
  s = slice 0 N s ++ slice N (N + K) s
      ++ slice (N + K) (2 * N + K) s ++ slice_from (2 * N + K) s.
Proof.
rewrite /slice /slice_from subn0 drop0 addKn.
have -> : (2 * N + K - (N + K) = N)%N by rewrite mul2n -addnn -addnA addnK.
have -> : (2 * N + K = N + (K + N))%N.
  by rewrite mul2n -addnn -addnA [(K + N)%N]addnC.
rewrite -[drop (N + (K + N)) s]drop_drop -[drop (K + N) _]drop_drop.
rewrite [(N + K)%N]addnC -[drop (K + N) s]drop_drop.
by rewrite !cat_take_drop.
Qed.

Lemma calculate_fraction_nth r (eigenvectors : seq 'cV[C]_r) (band : nat) :
  (band < size eigenvectors)%N ->
  let col := seq_of_col (nth 0 eigenvectors band) in
  let res := calculate_fraction N_max M_max num_QWs eigenvectors in
  nth 0 res.1 band
  = sum_abs2 (slice N_max (N_max + M_max * num_QWs) col)
    + sum_abs2 (slice_from (2 * N_max + M_max * num_QWs) col) /\
  nth 0 res.2 band
  = sum_abs2 (slice 0 N_max col)
    + sum_abs2 (slice (N_max + M_max * num_QWs)
                      (2 * N_max + M_max * num_QWs) col).
Proof.
move=> lt_band /=.
have [eq1 eq2] :=
  foldl_set_nth2 (fun b => sum_abs2 (slice N_max (N_max + M_max * num_QWs)
                              (seq_of_col (nth 0 eigenvectors b)))
                    + sum_abs2 (slice_from (2 * N_max + M_max * num_QWs)
                              (seq_of_col (nth 0 eigenvectors b))))
    (fun b => sum_abs2 (slice 0 N_max (seq_of_col (nth 0 eigenvectors b)))
              + sum_abs2 (slice (N_max + M_max * num_QWs)
                            (2 * N_max + M_max * num_QWs)
                            (seq_of_col (nth 0 eigenvectors b))))
    (size eigenvectors) 0
    (nseq (size eigenvectors) 0) (nseq (size eigenvectors) 0) band.
by split; [apply: etrans eq1 _ | apply: etrans eq2 _]; rewrite add0n lt_band.
Qed.

(** C9.  For every eigenvector array and every band, the photonic and the
    excitonic fraction add up to the sum of the squared magnitudes of all
    the entries of the column; they add up to 1 exactly when the column
    has 2-norm 1. *)
Theorem fractions_sum r (eigenvectors : seq 'cV[C]_r) (band : nat) :
  (band < size eigenvectors)%N ->
  let v := nth 0 eigenvectors band in
  let res := calculate_fraction N_max M_max num_QWs eigenvectors in
  let frac_ex := nth 0 res.1 band in
  let frac_ph := nth 0 res.2 band in
  frac_ph + frac_ex = \sum_i `|v i 0| ^+ 2 /\
  (frac_ph + frac_ex = 1 <-> norm2 v = 1).
Proof.
move=> lt_band v res frac_ex frac_ph.
have eq_sum : frac_ph + frac_ex = \sum_i `|v i 0| ^+ 2.
  have [eq_ex eq_ph] := calculate_fraction_nth lt_band.
  rewrite /frac_ph /frac_ex /res eq_ex eq_ph -sum_abs2_col.
  rewrite [in RHS](slices_partition (seq_of_col v) N_max (M_max * num_QWs)).
  by rewrite !sum_abs2_cat -/v; ring.
split=> //; rewrite eq_sum /norm2; split=> [->|eq1]; first exact: sqrtC1.
by rewrite -[LHS]sqrtCK eq1 expr1n.
Qed.

End FractionFacts.

(** ** The coupling blocks *)

Section CouplingFacts.

Variable C : numClosedFieldType.
Variables (N_max M_max ncomp Ng : nat).
Variable k : cs.t C.

Notation gme_t := (gme.t C N_max ncomp Ng).
Notation exc_t := (exc.t C M_max ncomp Ng).

(** The inner loop writes row [i] between the columns [b] and [b + n]. *)
Lemma fill_row m p (f : nat -> C) (A : 'M[C]_(m, p)) (i b n : nat)
  (i' : 'I_m) (j' : 'I_p) :
  foldl (fun A j => setitem2 A i j (f j)) A (iota b n) i' j'
  = if (nat_of_ord i' == i) && (b <= j' < b + n)%N then f j' else A i' j'.
Proof.
elim: n b A => [|n IHn] b A /=.
  by rewrite addn0; case: (leqP b j'); rewrite ?andbF //; case: ltnP;
     rewrite ?andbF.
rewrite IHn mxE addSnnS [(b <= j')%N]leq_eqVlt.
case: (eqVneq (nat_of_ord i') i) => //= eq_i.
case: (eqVneq b j') => [<-|ne_bj] /=; last by [].
by rewrite ltnn /= -[X in (X < _)%N]addn0 ltn_add2l.
Qed.

(** The two nested loops write every entry. *)
Lemma fill_matrix m p (f : nat -> nat -> C) (A : 'M[C]_(m, p)) :
  foldl (fun A i => foldl (fun A j => setitem2 A i j (f i j)) A (iota 0 p))
        A (iota 0 m)
  = \matrix_(i, j) f i j.
Proof.
suff fill_rows b n (B : 'M[C]_(m, p)) (i' : 'I_m) (j' : 'I_p) :
    foldl (fun A i => foldl (fun A j => setitem2 A i j (f i j)) A (iota 0 p))
          B (iota b n) i' j'
    = if (b <= i' < b + n)%N then f i' j' else B i' j'.
  by apply/matrixP => i j; rewrite fill_rows mxE add0n leq0n ltn_ord.
elim: n b B => [|n IHn] b B /=.
  by rewrite addn0; case: (leqP b i') => //; case: ltnP.
rewrite IHn fill_row add0n leq0n ltn_ord andbT addSnnS.
rewrite [(b <= i')%N]leq_eqVlt [b == i']eq_sym.
case: (eqVneq (nat_of_ord i') b) => [->|ne_ib] /=; last by [].
by rewrite ltnn /= -[X in (X < _)%N]addn0 ltn_add2l.
Qed.

Lemma getrow_ord m p (A : 'M[C]_(m, p)) (i : 'I_m) : getrow A i = row i A.
Proof. by apply/rowP => j; rewrite !mxE valK. Qed.

Lemma np_sum_row p (v : 'rV[C]_p) : np_sum v = \sum_j v 0 j.
Proof. by rewrite /np_sum big_ord1. Qed.

(** The first component: the coupling block. *)
Lemma calculate_C_E (g : gme_t) (a : C) (ex : exc_t) (kind : nat) :
  (calculate_C_D k g a ex kind).1
  = \matrix_(n, nu)
      (pref k a * np_sum (np_mul
         (np_sqrt (astype_float (exc.osc_str ex))
          *m gme.ft_field_xy g kind n (exc.z ex))
         (np_conjugate (exc.ft_wavef_xy ex kind nu)))).
Proof.
rewrite /calculate_C_D /=.
exact: (fill_matrix (fun n nu => pref k a * np_sum (np_mul
         (np_sqrt (astype_float (exc.osc_str ex))
          *m gme.ft_field_xy g kind n (exc.z ex))
         (np_conjugate (exc.ft_wavef_xy ex kind nu))))).
Qed.

(** The second component: the self-energy block, from the first. *)
Lemma calculate_D_E (g : gme_t) (a : C) (ex : exc_t) (kind : nat) :
  (calculate_C_D k g a ex kind).2
  = \matrix_(n_1, n_2)
      np_sum (np_div
        (np_mul (np_conjugate (row n_1 (calculate_C_D k g a ex kind).1))
                (row n_2 (calculate_C_D k g a ex kind).1))
        (np_real (exc.eners ex kind))).
Proof.
set Cm := (calculate_C_D k g a ex kind).1.
transitivity (\matrix_(n_1 < N_max, n_2 < N_max) np_sum (np_div
        (np_mul (np_conjugate (getrow Cm n_1)) (getrow Cm n_2))
        (np_real (exc.eners ex kind)))).
  exact: (fill_matrix (fun n_1 n_2 => np_sum (np_div
        (np_mul (np_conjugate (getrow Cm n_1)) (getrow Cm n_2))
        (np_real (exc.eners ex kind))))).
by apply/matrixP => i j; rewrite !mxE !getrow_ord.
Qed.

(** The entries of the two blocks, as the specification writes them. *)
Lemma calculate_C_entry (g : gme_t) (a : C) (ex : exc_t) (kind : nat)
  (n : 'I_N_max) (nu : 'I_M_max) :
  (calculate_C_D k g a ex kind).1 n nu = spec_C k g a ex kind n nu.
Proof.
rewrite calculate_C_E mxE /spec_C /spec_prefactor -/(pref k a).
congr (_ * _); rewrite np_sum_row; apply: eq_bigr => G _.
rewrite !mxE; congr (_ * _); apply: eq_bigr => c _.
by rewrite !mxE.
Qed.

Lemma calculate_D_entry (g : gme_t) (a : C) (ex : exc_t) (kind : nat)
  (n1 n2 : 'I_N_max) :
  (calculate_C_D k g a ex kind).2 n1 n2
  = spec_D (calculate_C_D k g a ex kind).1 ex kind n1 n2.
Proof.
rewrite calculate_D_E mxE /spec_D np_sum_row; apply: eq_bigr => nu _.
by rewrite !mxE.
Qed.

(** C4.  The coupling block holds, at every [(n, nu)], the prefactor times
    the overlap of the field of photonic band [n], weighted by the square
    roots of the real-cast oscillator strengths, with the conjugate
    wavefunction of excitonic band [nu]; the self-energy contribution
    holds, at every [(n1, n2)], the sum over [nu] of
    [conj(C[n1, nu]) * C[n2, nu] / Re(exciton_energy[nu])]. *)
Theorem calculate_C_D_spec (g : gme_t) (a : C) (ex : exc_t) (kind : nat) :
  let Cm := (calculate_C_D k g a ex kind).1 in
  let D := (calculate_C_D k g a ex kind).2 in
  (forall n nu, Cm n nu = spec_C k g a ex kind n nu) /\
  (forall n1 n2, D n1 n2 = spec_D Cm ex kind n1 n2).
Proof.
by split=> [n nu|n1 n2]; [exact: calculate_C_entry | exact: calculate_D_entry].
Qed.

End CouplingFacts.

(** ** The assembly *)

Arguments calculate_C_D : simpl never.
Arguments qw_body : simpl never.

Section AssemblyFacts.

Variable C : numClosedFieldType.
Variables (N_max M_max ncomp Ng : nat).
Variable k : cs.t C.

Notation gme_t := (gme.t C N_max ncomp Ng).
Notation exc_t := (exc.t C M_max ncomp Ng).

Lemma fill_diagonal0 n (v : 'rV[C]_n) : fill_diagonal 0 v = diag_mx v.
Proof.
by apply/matrixP => i j; rewrite !mxE; case: eqP => // _; rewrite mulr0n.
Qed.

Lemma setitem_cat_nseq T (pre : seq (option T)) (n : nat) (x : T) :
  setitem (pre ++ nseq n.+1 None) (size pre) (Some x)
  = Ok (rcons pre (Some x) ++ nseq n None).
Proof.
rewrite /setitem size_cat size_nseq -[X in (X < _)%N]addn0 ltn_add2l /=.
rewrite take_size_cat // -[(size pre).+1]addn1 drop_cat.
by rewrite ltnNge leq_addr /= addKn /= drop0 cat_rcons.
Qed.

Lemma qw_bodyE (g : gme_t) (a : C) (kind : nat) (D0 : 'M[C]_N_max)
  (C_blocks : seq (option 'M[C]_(N_max, M_max))) (Dopt : option 'M[C]_N_max)
  (ind_ex : nat) (ex : exc_t) :
  qw_body k g a kind (D0, C_blocks, Dopt) (ind_ex, ex)
  = (C_blocks' <- setitem C_blocks ind_ex (Some (well_C k g a kind ex)) ;;
     Ok (D0 + well_D k g a kind ex, C_blocks', Some (well_D k g a kind ex))).
Proof. by rewrite /qw_body /well_C /well_D; case: calculate_C_D. Qed.

(** The loop over the quantum wells adds up the [D] blocks, fills the
    list of the [C] blocks, and leaves in [D] the block of the well it
    visited last. *)
Lemma qw_loopE (g : gme_t) (a : C) (kind : nat) (s : seq exc_t)
  (D0 : 'M[C]_N_max) (pre : seq (option 'M[C]_(N_max, M_max)))
  (Dopt : option 'M[C]_N_max) :
  for_loop (qw_body k g a kind) (D0, pre ++ nseq (size s) None, Dopt)
    (zip (iota (size pre) (size s)) s)
  = Ok (D0 + \sum_(ex <- s) well_D k g a kind ex,
        pre ++ [seq Some (well_C k g a kind ex) | ex <- s],
        foldl (fun _ ex => Some (well_D k g a kind ex)) Dopt s).
Proof.
elim: s D0 pre Dopt => [|ex s IHs] D0 pre Dopt /=.
  by rewrite big_nil addr0.
rewrite qw_bodyE setitem_cat_nseq /=.
rewrite -(size_rcons pre (Some (well_C k g a kind ex))).
by rewrite IHs big_cons addrA cat_rcons.
Qed.

Lemma foldl_last_D (g : gme_t) (a : C) (kind : nat) (ex0 : exc_t)
  (s : seq exc_t) (Dopt : option 'M[C]_N_max) :
  foldl (fun _ ex => Some (well_D k g a kind ex)) Dopt (ex0 :: s)
  = Some (well_D k g a kind (last ex0 s)).
Proof. by elim: s ex0 Dopt => [|ex s IHs] ex0 Dopt //=; exact: IHs. Qed.

Lemma hstack_wells (g : gme_t) (a : C) (kind : nat) (ex0 : exc_t)
  (exc_list : seq exc_t) :
  hstack (size exc_list) [seq Some (well_C k g a kind ex) | ex <- exc_list]
  = Ok (C_total k g a kind (size exc_list) ex0 exc_list).
Proof.
have allS : all isSome [seq Some (well_C k g a kind ex) | ex <- exc_list].
  by elim: exc_list.
rewrite /hstack allS.
congr Ok; apply/matrixP => n j; rewrite !mxE; congr (mxvec _ _ _).
apply/matrixP => q nu; rewrite !mxE.
by rewrite (nth_map ex0).
Qed.

(** Column [q * M_max + nu] of [C_total] is column [nu] of the block of
    well [q]; entry [q * M_max + nu] of the concatenated energies is the
    energy of band [nu] of well [q]. *)
Lemma C_total_entry (g : gme_t) (a : C) (kind : nat) (num_QWs : nat)
  (ex0 : exc_t) (exc_list : seq exc_t) (n : 'I_N_max) (q : 'I_num_QWs)
  (nu : 'I_M_max) :
  C_total k g a kind num_QWs ex0 exc_list n (mxvec_index q nu)
  = well_C k g a kind (nth ex0 exc_list q) n nu.
Proof. by rewrite mxE mxvecE mxE. Qed.

Lemma concatenate_eners_entry (num_QWs : nat) (ex0 : exc_t)
  (exc_list : seq exc_t) (kind : nat) (q : 'I_num_QWs) (nu : 'I_M_max) :
  concatenate_eners num_QWs ex0 exc_list kind 0 (mxvec_index q nu)
  = exc.eners (nth ex0 exc_list q) kind 0 nu.
Proof. by rewrite /concatenate_eners mxvecE mxE. Qed.

(** What the assembly returns: the matrix of the specification, built on
    the summed [D] in the photonic diagonal and on the [D] of the last
    quantum well in the two off-diagonal blocks. *)
Lemma construct_HopfieldE (g : gme_t) (ex0 : exc_t) (rest : seq exc_t)
  (kind : nat) :
  let exc_list := ex0 :: rest in
  let a := exc.a ex0 in
  construct_Hopfield k g (size exc_list) exc_list kind
  = Ok (spec_Hopfield
          (photon_block k g a kind
           + 2 *: np_real (D_total k g a kind exc_list))
          (C_total k g a kind (size exc_list) ex0 exc_list)
          (well_D k g a kind (last ex0 rest))
          (exciton_block (size exc_list) ex0 exc_list kind)).
Proof.
move=> exc_list a; rewrite /construct_Hopfield.
rewrite (_ : getitem exc_list 0 = Ok ex0) // bind_Ok -/a /enumerate.
have := qw_loopE g a kind exc_list 0 [::] None.
rewrite [size [::]]/= !cat0s add0r => ->.
rewrite bind_Ok (hstack_wells g a kind ex0 exc_list) bind_Ok.
rewrite foldl_last_D bind_Ok /spec_Hopfield /exciton_block /photon_block.
rewrite !fill_diagonal0 !scale0r.
by case: (photon_diagonal _ _ _) => [v|]; rewrite ?fill_diagonal0.
Qed.

End AssemblyFacts.

(** ** The blocks of the assembled matrix *)

Section BlockFacts.

Variable C : numClosedFieldType.
Variables (N_max M_max ncomp Ng : nat).
Variable k : cs.t C.

Notation gme_t := (gme.t C N_max ncomp Ng).
Notation exc_t := (exc.t C M_max ncomp Ng).

Lemma block_0_2_spec N K (P : 'M[C]_N) (Ct : 'M[C]_(N, K)) (D : 'M[C]_N)
  (X : 'M[C]_K) :
  block_0_2 (spec_Hopfield P Ct D X) = - 2 *: D.
Proof.
by rewrite /block_0_2 /spec_Hopfield col_mxKu !row_mxKr row_mxKl.
Qed.

Lemma block_2_0_spec N K (P : 'M[C]_N) (Ct : 'M[C]_(N, K)) (D : 'M[C]_N)
  (X : 'M[C]_K) :
  block_2_0 (spec_Hopfield P Ct D X) = 2 *: D.
Proof.
by rewrite /block_2_0 /spec_Hopfield !col_mxKd col_mxKu row_mxKl.
Qed.

(** The size of the matrix, as the specification writes it. *)
Lemma hopfield_sizeE (num_QWs : nat) :
  hopfield_size N_max M_max num_QWs = (2 * (N_max + M_max * num_QWs))%N.
Proof.
by rewrite /hopfield_size addnA addnn [(num_QWs * _)%N]mulnC mul2n.
Qed.

Lemma D_total1 (g : gme_t) (a : C) (kind : nat) (ex : exc_t) :
  D_total k g a kind [:: ex] = well_D k g a kind ex.
Proof. by rewrite /D_total big_seq1. Qed.

(** With one quantum well the assembly returns the matrix of the
    specification on the summed self-energy block. *)
Lemma construct_Hopfield_one_well (g : gme_t) (ex0 : exc_t) (kind : nat) :
  construct_Hopfield k g 1 [:: ex0] kind
  = Ok (spec_Hopfield
          (photon_block k g (exc.a ex0) kind
           + 2 *: np_real (D_total k g (exc.a ex0) kind [:: ex0]))
          (C_total k g (exc.a ex0) kind 1 ex0 [:: ex0])
          (D_total k g (exc.a ex0) kind [:: ex0])
          (exciton_block 1 ex0 [:: ex0] kind)).
Proof. by rewrite (construct_HopfieldE k g ex0 [::] kind) /= D_total1. Qed.

(** C3, as the code has it.  The assembled matrix has
    [2 (N_max + M_max num_QWs)] rows; the block of block-row 2 and
    block-column 0 is the opposite of the block of block-row 0 and
    block-column 2; with one quantum well the former is [2 D] and the
    latter is [- 2 D], for the self-energy block [D]. *)
Theorem mirror_blocks (g : gme_t) (ex0 : exc_t) (rest : seq exc_t)
  (kind : nat) :
  (exists mat,
     [/\ construct_Hopfield k g (size (ex0 :: rest)) (ex0 :: rest) kind
         = Ok mat,
         shape0 mat = (2 * (N_max + M_max * size (ex0 :: rest)))%N
       & block_0_2 mat = - block_2_0 mat]) /\
  (exists mat,
     [/\ construct_Hopfield k g 1 [:: ex0] kind = Ok mat,
         block_2_0 mat = 2 *: D_total k g (exc.a ex0) kind [:: ex0]
       & block_0_2 mat = - 2 *: D_total k g (exc.a ex0) kind [:: ex0]]).
Proof.
split.
  eexists; split; first exact: construct_HopfieldE.
    by rewrite /shape0 hopfield_sizeE.
  by rewrite block_0_2_spec block_2_0_spec scaleNr.
eexists; split; first exact: (construct_HopfieldE k g ex0 [::] kind).
  by rewrite block_2_0_spec D_total1.
by rewrite block_0_2_spec D_total1.
Qed.

End BlockFacts.

(** ** The small configurations *)

Section ConfigurationFacts.

Lemma pref_unit : pref k_unit 1 = - 'i.
Proof.
rewrite /pref /= !expr1n !mulr1 divff ?pnatr_eq0 //.
by rewrite !divr1 !sqrtC1 !divr1 mulr1.
Qed.

Lemma well_C_one (f os E : algC) (kind : nat) :
  well_C k_unit (gme_one f) 1 kind (exc_one os E)
  = (- 'i * sqrtC ('Re os))%:M.
Proof.
rewrite /well_C [LHS]mx11_scalar; congr (_%:M).
rewrite calculate_C_entry /spec_C /spec_prefactor -/(pref k_unit 1) pref_unit !big_ord1 /=.
by rewrite !mxE conjC1 !mulr1.
Qed.

Lemma well_D_one (f os E : algC) (kind : nat) :
  well_D k_unit (gme_one f) 1 kind (exc_one os E)
  = (`|sqrtC ('Re os)| ^+ 2 / 'Re E)%:M.
Proof.
rewrite /well_D [LHS]mx11_scalar; congr (_%:M).
rewrite calculate_D_entry /spec_D big_ord1 -/(well_C _ _ _ _ _) well_C_one !mxE /= !mulr1n.
by rewrite [_^* * _]mulrC -normCK normrM normrN normCi mul1r.
Qed.

Lemma Re1 : 'Re (1 : algC) = 1.
Proof. by rewrite (Creal_ReP _ _) ?rpred1. Qed.

Lemma well_D_one11 (f : algC) (kind : nat) :
  well_D k_unit (gme_one f) 1 kind (exc_one 1 1) = 1%:M.
Proof. by rewrite well_D_one Re1 sqrtC1 normr1 expr1n divr1. Qed.

End ConfigurationFacts.

(** ** The off-diagonal self-energy blocks on small configurations *)

Section SmallAssemblies.

Lemma scalar_mx_inj1 (a b : algC) : a%:M = b%:M :> 'M_1 -> a = b.
Proof. by move/matrixP/(_ 0 0); rewrite !mxE eqxx !mulr1n. Qed.

Lemma D_total_two (f : algC) (kind : nat) :
  D_total k_unit (gme_one f) 1 kind [:: exc_one 1 1; exc_one 1 1] = 2%:M.
Proof.
rewrite /D_total big_cons big_seq1 !well_D_one11.
by rewrite -raddfD.
Qed.

(** C3 as stated fails on one quantum well with a non-zero coupling: the
    block of block-row 0 and block-column 2 is [- 2 D], not [2 D]. *)
Lemma mirror_blocks_counterexample :
  ~ (exists mat,
       [/\ construct_Hopfield k_unit (gme_one 2) 1 [:: exc_one 1 1] 0 = Ok mat,
           shape0 mat = (2 * (1 + 1 * 1))%N,
           block_0_2 mat
           = 2 *: D_total k_unit (gme_one 2) 1 0 [:: exc_one 1 1]
         & block_2_0 mat
           = 2 *: D_total k_unit (gme_one 2) 1 0 [:: exc_one 1 1]]).
Proof.
case=> mat [].
rewrite (construct_HopfieldE k_unit (gme_one 2) (exc_one 1 1) [::] 0).
move=> [<-] _; rewrite block_0_2_spec D_total1 /= well_D_one11 !scalemx1.
move=> /scalar_mx_inj1/eqP; rewrite eq_sym -subr_eq0 opprK -natrD.
by rewrite pnatr_eq0.
Qed.

(** C1 on two quantum wells: the assembled matrix is not the matrix of
    the specification built on the summed self-energy block.  Its block
    of block-row 0 and block-column 2 is [- 2], twice the block of the
    last well, where the summed block gives [- 4]. *)
Theorem construct_Hopfield_two_wells :
  let exc_list := [:: exc_one 1 1; exc_one 1 1] in
  let g := gme_one 2 in
  exists mat,
    [/\ construct_Hopfield k_unit g 2 exc_list 0 = Ok mat,
        block_0_2 mat = (- 2)%:M,
        - 2 *: D_total k_unit g 1 0 exc_list = (- 4)%:M
      & mat <> spec_Hopfield
                 (photon_block k_unit g 1 0
                  + 2 *: np_real (D_total k_unit g 1 0 exc_list))
                 (C_total k_unit g 1 0 2 (exc_one 1 1) exc_list)
                 (D_total k_unit g 1 0 exc_list)
                 (exciton_block 2 (exc_one 1 1) exc_list 0)].
Proof.
move=> exc_list g; eexists; split.
- exact: (construct_HopfieldE k_unit g (exc_one 1 1) [:: exc_one 1 1] 0).
- by rewrite block_0_2_spec /= well_D_one11 scalemx1.
- by rewrite D_total_two scale_scalar_mx mulNr -natrM.
- move/(congr1 (@block_0_2 _ _ _)); rewrite !block_0_2_spec /=.
  rewrite well_D_one11 D_total_two !scale_scalar_mx mulr1 mulNr -natrM.
  by move=> /scalar_mx_inj1/eqP; rewrite eqr_opp eqr_nat.
Qed.

End SmallAssemblies.

(** ** The lattice constant *)

Section LatticeConstantFacts.

Variable C : numClosedFieldType.
Variables (N_max M_max ncomp Ng : nat).
Variable k : cs.t C.
Variable eig : forall n, 'M[C]_n -> seq C * seq 'cV[C]_n.

Notation gme_t := (gme.t C N_max ncomp Ng).
Notation exc_t := (exc.t C M_max ncomp Ng).

Lemma for_loop_ext S T (body1 body2 : S -> T -> result S) (st : S)
  (s : seq T) :
  (forall st x, body1 st x = body2 st x) ->
  for_loop body1 st s = for_loop body2 st s.
Proof.
move=> eq_body; elim: s st => [|x s IHs] st //=.
by rewrite eq_body; case: (body2 st x) => //= st'; rewrite IHs.
Qed.

Lemma for_loop_map S T U (h : U -> T) (body : S -> T -> result S) (st : S)
  (s : seq U) :
  for_loop body st [seq h x | x <- s]
  = for_loop (fun st x => body st (h x)) st s.
Proof.
elim: s st => [|x s IHs] st //=.
by case: (body st (h x)) => //= st'; rewrite IHs.
Qed.

Lemma enumerate_map T U (h : U -> T) (s : seq U) :
  enumerate [seq h x | x <- s]
  = [seq (p.1, h p.2) | p <- enumerate s].
Proof.
rewrite /enumerate size_map; move: (iota _ _) => s1.
by elim: s s1 => [|x s IHs] [|i s1] //=; rewrite IHs.
Qed.

(** The blocks of a quantum well do not read its own lattice constant. *)
Lemma calculate_C_D_with_a (g : gme_t) (a a' : C) (ex : exc_t) (kind : nat) :
  calculate_C_D k g a (exc.with_a ex a') kind = calculate_C_D k g a ex kind.
Proof. by []. Qed.

Lemma qw_body_with_a (g : gme_t) (a a' : C) (kind : nat)
  (st : qw_state C N_max M_max) (i : nat) (ex : exc_t) :
  qw_body k g a kind st (i, exc.with_a ex a') = qw_body k g a kind st (i, ex).
Proof. by []. Qed.

Lemma getitem0 T (x : T) (s : seq T) : getitem (x :: s) 0 = Ok x.
Proof. by []. Qed.

Lemma concatenate_eners_with_a (num_QWs : nat) (ex0 : exc_t)
  (others : seq (exc_t * C)) (kind : nat) :
  concatenate_eners num_QWs ex0
    (ex0 :: [seq exc.with_a p.1 p.2 | p <- others]) kind
  = concatenate_eners num_QWs ex0 (ex0 :: [seq p.1 | p <- others]) kind.
Proof.
congr mxvec; apply/matrixP => q nu; rewrite !mxE.
case: (nat_of_ord q) => [|q'] //=.
case: (ltnP q' (size others)) => [lt_q|le_q].
  by rewrite !(nth_map (ex0, 0)).
by rewrite !nth_default ?size_map.
Qed.

Lemma qw_loop_with_a (g : gme_t) (a : C) (kind : nat) (ex0 : exc_t)
  (others : seq (exc_t * C)) (st : qw_state C N_max M_max) :
  for_loop (qw_body k g a kind) st
    (enumerate (ex0 :: [seq exc.with_a p.1 p.2 | p <- others]))
  = for_loop (qw_body k g a kind) st
      (enumerate (ex0 :: [seq p.1 | p <- others])).
Proof.
have -> : ex0 :: [seq exc.with_a p.1 p.2 | p <- others]
          = [seq exc.with_a p.1 p.2 | p <- (ex0, exc.a ex0) :: others].
  by case: (ex0).
have -> : ex0 :: [seq p.1 | p <- others]
          = [seq p.1 | p <- (ex0, exc.a ex0) :: others] by [].
rewrite !enumerate_map !for_loop_map; apply: for_loop_ext => st' p.
exact: qw_body_with_a.
Qed.

Lemma construct_Hopfield_with_a (g : gme_t) (num_QWs : nat) (ex0 : exc_t)
  (others : seq (exc_t * C)) (kind : nat) :
  construct_Hopfield k g num_QWs
    (ex0 :: [seq exc.with_a p.1 p.2 | p <- others]) kind
  = construct_Hopfield k g num_QWs (ex0 :: [seq p.1 | p <- others]) kind.
Proof.
rewrite /construct_Hopfield !getitem0.
rewrite [X in X = _]bind_Ok [X in _ = X]bind_Ok.
rewrite concatenate_eners_with_a qw_loop_with_a.
reflexivity.
Qed.

Lemma run_kpoint_with_a (g : gme_t) (num_QWs : nat) (ex0 : exc_t)
  (others : seq (exc_t * C)) (ik : nat) :
  run_kpoint k eig g num_QWs
    (ex0 :: [seq exc.with_a p.1 p.2 | p <- others]) ik
  = run_kpoint k eig g num_QWs (ex0 :: [seq p.1 | p <- others]) ik.
Proof. by rewrite /run_kpoint construct_Hopfield_with_a. Qed.

(** C10.  Give the quantum wells after the first any other lattice
    constants: the list keeps its length, the assembled matrix is the
    same at every k-point, and so is everything [run] computes, for any
    [num_QWs]; [run] itself passes the length of the list for [num_QWs].
    The assembled matrix is the one built from the prefactor and the
    conversion factor of the lattice constant of the first well. *)
Theorem lattice_constant_of_first_well (g : gme_t) (ex0 : exc_t)
  (others : seq (exc_t * C)) (num_QWs kind : nat) (kpoints : seq (C * C)) :
  let exc_list := ex0 :: [seq p.1 | p <- others] in
  let exc_list' := ex0 :: [seq exc.with_a p.1 p.2 | p <- others] in
  [/\ size exc_list' = size exc_list,
      construct_Hopfield k g num_QWs exc_list' kind
      = construct_Hopfield k g num_QWs exc_list kind,
      run_body k eig g num_QWs exc_list' kpoints
      = run_body k eig g num_QWs exc_list kpoints
    & construct_Hopfield k g (size exc_list') exc_list' kind
      = Ok (spec_Hopfield
              (photon_block k g (exc.a ex0) kind
               + 2 *: np_real (D_total k g (exc.a ex0) kind exc_list'))
              (C_total k g (exc.a ex0) kind (size exc_list') ex0 exc_list')
              (well_D k g (exc.a ex0) kind
                 (last ex0 [seq exc.with_a p.1 p.2 | p <- others]))
              (exciton_block (size exc_list') ex0 exc_list' kind))].
Proof.
move=> exc_list exc_list'; split.
- by rewrite /exc_list /exc_list' /= !size_map.
- exact: construct_Hopfield_with_a.
- have eq_loop :
    for_loop (fun st ikk =>
       let: (results, _) := st in
       r <- run_kpoint k eig g num_QWs exc_list' ikk.1 ;;
       Ok (rcons results r.1, Some r.2)) ([::], None) (enumerate kpoints)
    = for_loop (fun st ikk =>
       let: (results, _) := st in
       r <- run_kpoint k eig g num_QWs exc_list ikk.1 ;;
       Ok (rcons results r.1, Some r.2)) ([::], None) (enumerate kpoints).
    apply: for_loop_ext => -[results mat] ikk.
    by rewrite run_kpoint_with_a.
  rewrite /run_body !getitem0.
  rewrite [X in X = _]bind_Ok [X in _ = X]bind_Ok.
  exact: (congr1 (fun c => bind c _) eq_loop).
- exact: construct_HopfieldE.
Qed.

End LatticeConstantFacts.

(** ** Spectra *)

Section SpectrumFacts.

Variable C : numClosedFieldType.

Lemma is_spectrum_size n (A : 'M[C]_n) (s : seq C) :
  is_spectrum A s -> size s = n.
Proof.
move=> /(congr1 (fun p : {poly C} => size p)).
by rewrite size_char_poly size_prod_XsubC => -[].
Qed.

(** Two lists of the eigenvalues of one matrix are permutations of each
    other. *)
Lemma is_spectrum_perm n (A : 'M[C]_n) (s t : seq C) :
  is_spectrum A s -> is_spectrum A t -> perm_eq s t.
Proof. by rewrite /is_spectrum => -> /prod_XsubC_eq. Qed.

Lemma perm_is_spectrum n (A : 'M[C]_n) (s t : seq C) :
  perm_eq s t -> is_spectrum A s -> is_spectrum A t.
Proof. by rewrite /is_spectrum => perm_st ->; apply: perm_big. Qed.

(** The characteristic polynomial of [A] is that of [A + 1], read at
    ['X + 1]. *)
Lemma char_poly_shift n (A : 'M[C]_n) :
  char_poly A = char_poly (A + 1%:M) \Po ('X + 1%:P).
Proof.
rewrite /char_poly -det_map_mx; congr (\det _).
apply/matrixP => i j; rewrite !mxE.
rewrite rmorphB /= rmorphMn /= comp_polyX comp_polyC.
case: (i == j); last by rewrite !mulr0n addr0.
by rewrite !mulr1n polyCD opprD addrACA subrr addr0.
Qed.

Lemma is_spectrum_unshift n (A : 'M[C]_n) (s : seq C) :
  is_spectrum (A + 1%:M) s -> is_spectrum A (unshift s).
Proof.
move=> spec1; rewrite /is_spectrum char_poly_shift spec1.
rewrite rmorph_prod /unshift big_map; apply: eq_bigr => x _.
by rewrite /= rmorphB /= comp_polyX comp_polyC polyCB opprB addrA addrAC.
Qed.

(** C5.  Take any matrix [mat] and any list [ener2] of the eigenvalues of
    [mat + 1]: the list [ener1] that [run] computes by subtracting 1 from
    each of them lists the eigenvalues of [mat], and is a permutation of
    every list of the eigenvalues of [mat]. *)
Theorem shift_unshift_eigenvalues n (mat : 'M[C]_n) (ener2 : seq C) :
  is_spectrum (mat + 1%:M) ener2 ->
  is_spectrum mat (unshift ener2) /\
  (forall s, is_spectrum mat s -> perm_eq (unshift ener2) s).
Proof.
move=> /is_spectrum_unshift spec1; split=> // s.
exact: is_spectrum_perm.
Qed.

(** The exact eigen-solver is exact. *)
Lemma ideal_eigvals_spectrum n (A : 'M[C]_n) : is_spectrum A (ideal_eigvals A).
Proof.
rewrite /is_spectrum /ideal_eigvals.
case: closed_field_poly_normal => s /= {1}->.
by rewrite (monicP (char_poly_monic A)) scale1r.
Qed.

Lemma ideal_eig_exact : eig_exact (@ideal_eig C).
Proof.
by move=> n A; split; [exact: ideal_eigvals_spectrum | rewrite /= size_map].
Qed.

(** The spectrum of a diagonal matrix is its diagonal. *)
Lemma is_spectrum_diag n (d : 'rV[C]_n) : is_spectrum (diag_mx d) (seq_of_row d).
Proof.
rewrite /is_spectrum char_poly_trig ?diag_mx_is_trig //.
rewrite /seq_of_row big_map big_enum /=; apply: eq_bigr => i _.
by rewrite mxE eqxx mulr1n.
Qed.

End SpectrumFacts.

(** ** The mirror symmetry of the assembled matrix *)

Section MirrorFacts.

Variable C : numClosedFieldType.
Variables (N K : nat).

(** The exchange of the two halves, with a change of sign on the
    excitonic rows. *)
Let mirror : 'M[C]_(N + (K + (N + K))) :=
  col_mx (row_mx 0 (row_mx 0 (row_mx 1%:M 0)))
    (col_mx (row_mx 0 (row_mx 0 (row_mx 0 (- 1%:M))))
       (col_mx (row_mx 1%:M (row_mx 0 (row_mx 0 0)))
          (row_mx 0 (row_mx (- 1%:M) (row_mx 0 0))))).

Lemma mirror_mul_col n (r0 : 'M[C]_(N, n)) (r1 : 'M[C]_(K, n))
  (r2 : 'M[C]_(N, n)) (r3 : 'M[C]_(K, n)) :
  mirror *m col_mx r0 (col_mx r1 (col_mx r2 r3))
  = col_mx r2 (col_mx (- r3) (col_mx r0 (- r1))).
Proof.
rewrite /mirror !mul_col_mx !mul_row_col !mul0mx !mul1mx !mulNmx !mul1mx.
by rewrite !add0r !addr0.
Qed.

Lemma mul_row_mirror m (a : 'M[C]_(m, N)) (b : 'M[C]_(m, K))
  (c : 'M[C]_(m, N)) (d : 'M[C]_(m, K)) :
  row_mx a (row_mx b (row_mx c d)) *m mirror
  = row_mx c (row_mx (- d) (row_mx a (- b))).
Proof.
rewrite /mirror !mul_row_col !mul_mx_row !mulmx0 !mulmx1 !mulmxN !mulmx1.
by rewrite !add_row_mx !add0r !addr0.
Qed.

Lemma mirror_involutive : mirror *m mirror = 1%:M.
Proof.
have twice n (X : 'M[C]_(N + (K + (N + K)), n)) :
    mirror *m (mirror *m X) = X.
  rewrite -[X]vsubmxK -[dsubmx X]vsubmxK -[dsubmx (dsubmx X)]vsubmxK.
  by rewrite !mirror_mul_col !opprK.
by rewrite -[LHS]mulmx1 -mulmxA twice.
Qed.

Lemma mirror_unit : mirror \in unitmx.
Proof. by case: (mulmx1_unit mirror_involutive). Qed.

(** The matrix of the specification anticommutes with the mirror. *)
Lemma mirror_anticommutes (P : 'M[C]_N) (Ct : 'M[C]_(N, K)) (D : 'M[C]_N)
  (X : 'M[C]_K) :
  mirror *m spec_Hopfield P Ct D X = - (spec_Hopfield P Ct D X *m mirror).
Proof.
rewrite /spec_Hopfield mirror_mul_col !mul_col_mx !mul_row_mirror.
rewrite !opp_col_mx !opp_row_mx !opprK !oppr0 -!scaleNr !opprK.
by [].
Qed.

(** Hence it has the characteristic polynomial of its opposite. *)
Lemma char_poly_anticommute n (A T : 'M[C]_n) :
  T \in unitmx -> T *m A = - (A *m T) -> char_poly (- A) = char_poly A.
Proof.
move=> unitT anti; rewrite /char_poly.
have detT : \det (map_mx polyC T) != 0.
  by rewrite det_map_mx polyC_eq0 -unitfE -unitmxE.
apply: (mulfI detT); rewrite [RHS]mulrC -!det_mulmx; congr (\det _).
rewrite /char_poly_mx map_mxN opprK mulmxDr mulmxBl scalar_mxC.
by rewrite -!map_mxM anti map_mxN.
Qed.

Lemma prod_XsubC_opp (s : seq C) :
  (- 1) ^+ size s * \prod_(x <- s) (- 'X - x%:P)
  = \prod_(x <- [seq - x | x <- s]) ('X - x%:P) :> {poly C}.
Proof.
elim: s => [|x s IHs] /=; first by rewrite !big_nil expr0 mulr1.
rewrite !big_cons exprS mulrACA IHs; congr (_ * _).
by rewrite mulN1r opprB opprK polyCN opprK addrC.
Qed.

Lemma is_spectrum_opp n (A : 'M[C]_n) (s : seq C) :
  is_spectrum A s -> is_spectrum (- A) [seq - x | x <- s].
Proof.
move=> specA; have sz_s := is_spectrum_size specA.
rewrite /is_spectrum /char_poly.
have -> : char_poly_mx (- A)
          = - map_mx (comp_poly (- 'X)) (char_poly_mx A).
  apply/matrixP => i j; rewrite !mxE rmorphB /= rmorphMn /=.
  by rewrite comp_polyX comp_polyC polyCN opprK opprB mulNrn opprK addrC.
rewrite -scaleN1r detZ det_map_mx -/(char_poly A) specA rmorph_prod.
rewrite -sz_s -prod_XsubC_opp; congr (_ * _); apply: eq_bigr => x _.
by rewrite rmorphB /= comp_polyX comp_polyC.
Qed.

(** The eigenvalues of the matrix of the specification come in opposite
    pairs. *)
Lemma spec_Hopfield_spectrum_opp (P : 'M[C]_N) (Ct : 'M[C]_(N, K))
  (D : 'M[C]_N) (X : 'M[C]_K) (s : seq C) :
  is_spectrum (spec_Hopfield P Ct D X) s -> perm_eq s [seq - x | x <- s].
Proof.
move=> specA; apply: (is_spectrum_perm specA).
have := is_spectrum_opp specA.
by rewrite /is_spectrum (char_poly_anticommute mirror_unit)
     ?mirror_anticommutes.
Qed.

End MirrorFacts.

(** ** The eigen-decomposition and the branch filter *)

Section FilterFacts.

Variable C : numClosedFieldType.

Lemma lexle_total : total (@lexle C).
Proof.
move=> x y; rewrite /lexle.
have := real_ltgtP (Creal_Re x) (Creal_Re y).
have := real_leVge (Creal_Im x) (Creal_Im y).
by case/orP=> ->; case=> //=; rewrite ?orbT.
Qed.

Lemma lexle_trans : transitive (@lexle C).
Proof.
move=> y x z /orP[lt_xy|/andP[/eqP eq_xy le_xy]] /orP[lt_yz|/andP[/eqP eq_yz le_yz]];
  rewrite /lexle.
- by rewrite (lt_trans lt_xy lt_yz).
- by rewrite -eq_yz lt_xy.
- by rewrite eq_xy lt_yz.
- by rewrite eq_xy eq_yz eqxx (le_trans le_xy le_yz) orbT.
Qed.

Lemma lexle_anti : antisymmetric (@lexle C).
Proof.
move=> x y /andP[/orP[lt_xy|/andP[/eqP eq_xy le_xy]]
                 /orP[lt_yx|/andP[/eqP eq_yx le_yx]]].
- by move: (lt_trans lt_xy lt_yx); rewrite ltxx.
- by move: lt_xy; rewrite eq_yx ltxx.
- by move: lt_yx; rewrite eq_xy ltxx.
- rewrite [x]Crect [y]Crect eq_xy; congr (_ + 'i * _).
  by apply/eqP; rewrite eq_le le_xy le_yx.
Qed.

(** Reading an array along its [argsort] sorts it. *)
Lemma take_idx_argsort (s : seq C) :
  take_idx 0 s (argsort s) = sort (@lexle C) s.
Proof.
rewrite /take_idx /argsort.
rewrite -[in RHS](take_size s) -(map_nth_iota0 0 (leqnn _)).
by rewrite sort_map.
Qed.

Lemma size_argsort (s : seq C) : size (argsort s) = size s.
Proof. by rewrite /argsort size_sort size_iota. Qed.

Lemma mask_filter_positive (s : seq C) :
  mask (filter_positive s) s = [seq e <- s | 0 <= 'Re e].
Proof. by rewrite /filter_positive -filter_mask. Qed.

(** When the eigenvalues come in opposite pairs, at least half of them
    pass the filter. *)
Lemma half_positive (s : seq C) :
  perm_eq s [seq - x | x <- s] ->
  (size s <= 2 * count (fun e : C => (0 <= 'Re e)%R) s)%N.
Proof.
move=> perm_s; rewrite mul2n -addnn.
rewrite {2}(permP perm_s) count_map.
rewrite -[X in (X <= _)%N](count_predT s) -count_predUI.
apply: leq_trans (leq_addr _ _); apply: sub_count => e _ /=.
rewrite raddfN /= oppr_ge0.
exact: (real_leVge real0 (Creal_Re e)).
Qed.

(** The loop of the fraction analysis keeps the lengths. *)
Lemma size_foldl_set_nth2 (f g : nat -> C) (n m : nat) (s t : seq C) :
  (m + n <= size s)%N -> (m + n <= size t)%N ->
  let res :=
    foldl (fun st band => let: (a, b) := st in
             let b' := set_nth 0 b band (g band) in
             let a' := set_nth 0 a band (f band) in (a', b'))
          (s, t) (iota m n) in
  size res.1 = size s /\ size res.2 = size t.
Proof.
elim: n m s t => [|n IHn] m s t //=; rewrite addnS => lt_s lt_t.
have sz_s : size (set_nth 0 s m (f m)) = size s.
  by rewrite size_set_nth; apply/maxn_idPr; apply: leq_ltn_trans lt_s;
     exact: leq_addr.
have sz_t : size (set_nth 0 t m (g m)) = size t.
  by rewrite size_set_nth; apply/maxn_idPr; apply: leq_ltn_trans lt_t;
     exact: leq_addr.
have /= := IHn m.+1 (set_nth 0 s m (f m)) (set_nth 0 t m (g m)).
by rewrite sz_s sz_t addSn; apply.
Qed.

Lemma size_calculate_fraction (N_max M_max num_QWs r : nat)
  (eigenvectors : seq 'cV[C]_r) :
  let res := calculate_fraction N_max M_max num_QWs eigenvectors in
  size res.1 = size eigenvectors /\ size res.2 = size eigenvectors.
Proof.
have [] // :=
  @size_foldl_set_nth2
    (fun b => sum_abs2 (slice N_max (N_max + M_max * num_QWs)
                 (seq_of_col (nth 0 eigenvectors b)))
              + sum_abs2 (slice_from (2 * N_max + M_max * num_QWs)
                 (seq_of_col (nth 0 eigenvectors b))))
    (fun b => sum_abs2 (slice 0 N_max (seq_of_col (nth 0 eigenvectors b)))
              + sum_abs2 (slice (N_max + M_max * num_QWs)
                            (2 * N_max + M_max * num_QWs)
                            (seq_of_col (nth 0 eigenvectors b))))
    (size eigenvectors) 0
    (nseq (size eigenvectors) 0) (nseq (size eigenvectors) 0).
- by rewrite size_nseq.
- by rewrite size_nseq.
by rewrite !size_nseq.
Qed.

End FilterFacts.

(** ** The pipeline of [run] *)

Section RunFacts.

Variable C : numClosedFieldType.
Variables (N_max M_max ncomp Ng : nat).
Variable k : cs.t C.
Variable eig : forall n, 'M[C]_n -> seq C * seq 'cV[C]_n.

Notation gme_t := (gme.t C N_max ncomp Ng).
Notation exc_t := (exc.t C M_max ncomp Ng).

Lemma construct_Hopfield_assembled (g : gme_t) (ex0 : exc_t)
  (rest : seq exc_t) (kind : nat) :
  construct_Hopfield k g (size (ex0 :: rest)) (ex0 :: rest) kind
  = Ok (assembled k g ex0 rest kind).
Proof. exact: construct_HopfieldE. Qed.

Lemma half_hopfield_size (num_QWs : nat) :
  (hopfield_size N_max M_max num_QWs %/ 2 = N_max + num_QWs * M_max)%N.
Proof. by rewrite /hopfield_size addnA addnn -muln2 mulnK. Qed.

(** [argsort(ener1)[0 : numeig // 2 - 1]], when the matrix is not
    empty. *)
Lemma slice_to_half (num_QWs : nat) T (s : seq T)
  (mat : 'M[C]_(hopfield_size N_max M_max num_QWs)) :
  (0 < N_max + num_QWs * M_max)%N ->
  slice_to ((shape0 mat %/ 2)%:Z - 1) s
  = take (N_max + num_QWs * M_max).-1 s.
Proof.
rewrite /shape0 half_hopfield_size.
by case: (N_max + num_QWs * M_max)%N => // n _; rewrite intS addrC addKr.
Qed.

(** The energies [run] retains for a matrix of spectrum [L]. *)
Lemma diagonalise_ener (num_QWs : nat)
  (mat : 'M[C]_(hopfield_size N_max M_max num_QWs)) (L : seq C) :
  eig_exact eig -> (0 < N_max + num_QWs * M_max)%N -> is_spectrum mat L ->
  ener (diagonalise eig mat)
  = [seq 'Re e | e <- lowest_positive (N_max + num_QWs * M_max).-1 L].
Proof.
move=> exact_eig gt0 specL; rewrite /diagonalise.
have [] := exact_eig _ (mat + 1%:M).
case: (eig _) => ener2 evecs /= /is_spectrum_unshift spec1 _.
case: calculate_fraction => fex fph /=.
rewrite slice_to_half // /take_idx map_take -/(take_idx _ _ _).
rewrite take_idx_argsort mask_filter_positive /lowest_positive.
congr (map _ (take _ _)); apply/perm_sortP.
- exact: lexle_total.
- exact: lexle_trans.
- exact: lexle_anti.
by apply: perm_filter; apply: is_spectrum_perm specL.
Qed.

(** How many bands [run] retains for a matrix whose eigenvalues come in
    opposite pairs. *)
Lemma diagonalise_sizes (num_QWs : nat)
  (mat : 'M[C]_(hopfield_size N_max M_max num_QWs)) :
  eig_exact eig -> (0 < N_max + num_QWs * M_max)%N ->
  (forall L, is_spectrum mat L -> perm_eq L [seq - x | x <- L]) ->
  let r := diagonalise eig mat in
  [/\ size (ener r) = (N_max + num_QWs * M_max).-1,
      size (ener_im r) = (N_max + num_QWs * M_max).-1,
      size (evec r) = (N_max + num_QWs * M_max).-1,
      size (fraction_ex r) = (N_max + num_QWs * M_max).-1
    & size (fraction_ph r) = (N_max + num_QWs * M_max).-1].
Proof.
move=> exact_eig gt0 sym /=; rewrite /diagonalise.
have [] := exact_eig _ (mat + 1%:M).
case: (eig _) => ener2 evecs /= spec2 sz_evecs.
have spec1 := is_spectrum_unshift spec2.
have := size_calculate_fraction N_max M_max num_QWs
          (mask (filter_positive (unshift ener2)) evecs).
case: calculate_fraction => fex fph /= [sz_fex sz_fph].
rewrite slice_to_half // !size_map.
have -> : size (take (N_max + num_QWs * M_max).-1
                  (argsort (mask (filter_positive (unshift ener2))
                              (unshift ener2))))
          = (N_max + num_QWs * M_max).-1.
  rewrite size_takel // size_argsort mask_filter_positive size_filter.
  have := half_positive (sym _ spec1).
  rewrite (is_spectrum_size spec1) /hopfield_size addnA addnn -mul2n.
  rewrite leq_pmul2l // => /(leq_trans _); apply.
  exact: leq_pred.
by [].
Qed.

Lemma run_kpointE (g : gme_t) (ex0 : exc_t) (rest : seq exc_t) (ik : nat) :
  run_kpoint k eig g (size (ex0 :: rest)) (ex0 :: rest) ik
  = Ok (diagonalise eig (assembled k g ex0 rest ik),
        assembled k g ex0 rest ik).
Proof. by rewrite /run_kpoint construct_Hopfield_assembled. Qed.

(** The loop over the k-points appends one result per k-point and keeps
    the last matrix. *)
Lemma kpoint_loopE S U T (f : nat -> result (S * U)) (r : nat -> S)
  (m : nat -> U) (xs : seq T) (b : nat) (res0 : seq S) (mo : option U) :
  (forall ik, f ik = Ok (r ik, m ik)) ->
  for_loop (fun st (ikk : nat * T) =>
              let: (results, _) := st in
              x <- f ikk.1 ;; Ok (rcons results x.1, Some x.2))
    (res0, mo) (zip (iota b (size xs)) xs)
  = Ok (res0 ++ [seq r ik | ik <- iota b (size xs)],
        if xs is [::] then mo else Some (m (b + size xs).-1)).
Proof.
move=> eq_f; elim: xs b res0 mo => [|x xs IHxs] b res0 mo /=.
  by rewrite cats0.
rewrite eq_f /= IHxs -cats1 -catA /= addnS /=.
by case: (xs) => //=; rewrite addn0.
Qed.

Lemma runE (g : gme_t) (ex0 : exc_t) (rest : seq exc_t) (kp : C * C)
  (kps : seq (C * C)) :
  run k eig g (ex0 :: rest) (kp :: kps)
  = Ok ([seq diagonalise eig (assembled k g ex0 rest ik)
           | ik <- iota 0 (size (kp :: kps))],
        assembled k g ex0 rest (size kps)).
Proof.
rewrite /run /run_body getitem0 bind_Ok /enumerate.
have -> := kpoint_loopE (kp :: kps) 0 [::] None (run_kpointE g ex0 rest).
by rewrite bind_Ok cat0s.
Qed.

End RunFacts.

(** ** The number of retained bands *)

Section BandCount.

Variable C : numClosedFieldType.
Variables (N_max M_max ncomp Ng : nat).
Variable k : cs.t C.
Variable eig : forall n, 'M[C]_n -> seq C * seq 'cV[C]_n.

Notation gme_t := (gme.t C N_max ncomp Ng).
Notation exc_t := (exc.t C M_max ncomp Ng).

Lemma assembled_spectrum_opp (g : gme_t) (ex0 : exc_t) (rest : seq exc_t)
  (ik : nat) (L : seq C) :
  is_spectrum (assembled k g ex0 rest ik) L -> perm_eq L [seq - x | x <- L].
Proof. exact: spec_Hopfield_spectrum_opp. Qed.

(** C2.  With an exact eigen-solver and at least one band, [run] on the
    quantum wells [ex0 :: rest] and the k-points [kp :: kps] returns one
    result per k-point; the matrix has [size = 2 (N_max + M_max num_QWs)]
    rows, and at every k-point the energies, the linewidths, the
    eigenvector columns and the two fraction sequences have
    [size / 2 - 1] entries each. *)
Theorem retained_band_count (g : gme_t) (ex0 : exc_t) (rest : seq exc_t)
  (kp : C * C) (kps : seq (C * C)) :
  eig_exact eig ->
  (0 < N_max + M_max * size (ex0 :: rest))%N ->
  let size_mat := (2 * (N_max + M_max * size (ex0 :: rest)))%N in
  exists results mat,
    [/\ run k eig g (ex0 :: rest) (kp :: kps) = Ok (results, mat),
        size results = size (kp :: kps),
        shape0 mat = size_mat
      & all (fun r =>
          [&& size (ener r) == (size_mat %/ 2 - 1)%N,
              size (ener_im r) == (size_mat %/ 2 - 1)%N,
              size (evec r) == (size_mat %/ 2 - 1)%N,
              size (fraction_ex r) == (size_mat %/ 2 - 1)%N
            & size (fraction_ph r) == (size_mat %/ 2 - 1)%N]) results].
Proof.
move=> exact_eig gt0 size_mat.
exists [seq diagonalise eig (assembled k g ex0 rest ik)
         | ik <- iota 0 (size (kp :: kps))], (assembled k g ex0 rest (size kps)).
split.
- exact: runE.
- by rewrite size_map size_iota.
- by rewrite /shape0 hopfield_sizeE.
- rewrite all_map; apply/allP => ik _ /=.
  have gt0' : (0 < N_max + size (ex0 :: rest) * M_max)%N by rewrite mulnC.
  have [-> -> -> -> ->] :=
    diagonalise_sizes exact_eig gt0' (@assembled_spectrum_opp g ex0 rest ik).
  by rewrite /size_mat mulKn // [(M_max * _)%N]mulnC subn1 eqxx.
Qed.

End BandCount.

(** ** The decoupled limit *)

Section DecoupledFacts.

Variable C : numClosedFieldType.
Variables (N_max M_max ncomp Ng : nat).
Variable k : cs.t C.
Variable eig : forall n, 'M[C]_n -> seq C * seq 'cV[C]_n.

Notation gme_t := (gme.t C N_max ncomp Ng).
Notation exc_t := (exc.t C M_max ncomp Ng).

Lemma map_as_big T I (r : seq I) (f : I -> T) :
  [seq f i | i <- r] = \big[cat/[::]]_(i <- r) [:: f i].
Proof. by elim: r => [|i r IHr] /=; rewrite ?big_nil // big_cons IHr. Qed.

Lemma seq_of_row_cat m n (a : 'rV[C]_m) (b : 'rV[C]_n) :
  seq_of_row (row_mx a b) = seq_of_row a ++ seq_of_row b.
Proof.
have eqE n' : enum 'I_n' = index_enum 'I_n'.
  by rewrite enumT /index_enum unlock.
rewrite /seq_of_row !map_as_big !eqE big_split_ord /=.
by congr (_ ++ _); apply: eq_bigr => i _; rewrite ?row_mxEl ?row_mxEr.
Qed.

Lemma seq_of_row1 (a : 'rV[C]_1) : seq_of_row a = [:: a 0 0].
Proof. by rewrite /seq_of_row enum_ordSl enum_ord0. Qed.

(** Without oscillator strength a well has no coupling block and no
    self-energy block. *)
Lemma well_C_zero (g : gme_t) (a : C) (kind : nat) (ex : exc_t) :
  exc.osc_str ex = 0 -> well_C k g a kind ex = 0.
Proof.
move=> os0; apply/matrixP => n nu; rewrite /well_C.
rewrite calculate_C_entry /spec_C big1 ?mulr0 ?mxE // => G _.
rewrite big1 ?mul0r // => c _.
by rewrite os0 mxE raddf0 sqrtC0 mul0r.
Qed.

Lemma well_D_zero (g : gme_t) (a : C) (kind : nat) (ex : exc_t) :
  exc.osc_str ex = 0 -> well_D k g a kind ex = 0.
Proof.
move=> os0; apply/matrixP => n1 n2; rewrite /well_D.
rewrite calculate_D_entry /spec_D big1 ?mxE // => nu _.
by rewrite -/(well_C k g a kind ex) well_C_zero // !mxE mulr0 mul0r.
Qed.

Lemma D_total_zero (g : gme_t) (a : C) (kind : nat) (l : seq exc_t) :
  all (fun ex => exc.osc_str ex == 0) l -> D_total k g a kind l = 0.
Proof.
rewrite /D_total; elim: l => [|ex l IHl] /=; first by rewrite big_nil.
by case/andP=> /eqP os0 /IHl; rewrite big_cons well_D_zero // add0r.
Qed.

Lemma C_total_zero (g : gme_t) (a : C) (kind : nat) (ex0 : exc_t)
  (l : seq exc_t) :
  all (fun ex => exc.osc_str ex == 0) l ->
  C_total k g a kind (size l) ex0 l = 0.
Proof.
move=> /all_nthP os0; apply/matrixP => n j; rewrite !mxE.
rewrite (_ : \matrix_(q, nu) _ = 0) ?linear0 ?mxE //.
apply/matrixP => q nu; rewrite !mxE well_C_zero ?mxE //.
exact/eqP/os0.
Qed.

Lemma photon_block_diag (g : gme_t) (a : C) (kind : nat) :
  photon_block k g a kind = diag_mx (photon_levels k g a kind).
Proof.
rewrite /photon_block /photon_levels.
by case: photon_diagonal => // ; rewrite raddf0.
Qed.

(** A diagonal matrix of four blocks, row by row. *)
Lemma diag_mx_row4 N K (p : 'rV[C]_N) (x : 'rV[C]_K) (p' : 'rV[C]_N)
  (x' : 'rV[C]_K) :
  diag_mx (row_mx p (row_mx x (row_mx p' x')))
  = col_mx (row_mx (diag_mx p) (row_mx 0 (row_mx 0 0)))
      (col_mx (row_mx 0 (row_mx (diag_mx x) (row_mx 0 0)))
         (col_mx (row_mx 0 (row_mx 0 (row_mx (diag_mx p') 0)))
            (row_mx 0 (row_mx 0 (row_mx 0 (diag_mx x')))))).
Proof.
have push m1 m2 n1 n2 (u : 'M[C]_(m1, n2)) (v : 'M[C]_(m2, n2)) :
    row_mx (0 : 'M_(m1 + m2, n1)) (col_mx u v)
    = col_mx (row_mx 0 u) (row_mx 0 v).
  by rewrite -[0 in LHS]col_mx0 -block_mxEh block_mxEv.
rewrite !diag_mx_row ![block_mx _ 0 0 _]block_mxEv !push.
by rewrite !row_mx0.
Qed.

Lemma all_last T (a : pred T) (x : T) (s : seq T) :
  all a (x :: s) -> a (last x s).
Proof.
elim: s x => [|y s IHs] x /=; first by rewrite andbT.
by case/andP=> _; exact: IHs.
Qed.

(** Without oscillator strength in any well the assembled matrix is
    diagonal. *)
Lemma assembled_decoupled (g : gme_t) (ex0 : exc_t) (rest : seq exc_t)
  (kind : nat) :
  all (fun ex => exc.osc_str ex == 0) (ex0 :: rest) ->
  assembled k g ex0 rest kind
  = diag_mx (row_mx (photon_levels k g (exc.a ex0) kind)
               (row_mx (concatenate_eners (size (ex0 :: rest)) ex0
                          (ex0 :: rest) kind)
                  (row_mx (- photon_levels k g (exc.a ex0) kind)
                     (- concatenate_eners (size (ex0 :: rest)) ex0
                          (ex0 :: rest) kind)))).
Proof.
move=> os0; rewrite /assembled D_total_zero // C_total_zero //.
have /eqP os_last := all_last os0.
rewrite well_D_zero //.
rewrite /spec_Hopfield /exciton_block photon_block_diag.
rewrite /np_real map_mx0 !scaler0 addr0 trmx0 map_mx0 !scaler0.
by rewrite diag_mx_row4 !raddfN.
Qed.

End DecoupledFacts.

(** ** The decoupled limit of one photonic band *)

Section DecoupledLimit.

Variable C : numClosedFieldType.
Variables (M_max ncomp Ng : nat).
Variable k : cs.t C.
Variable eig : forall n, 'M[C]_n -> seq C * seq 'cV[C]_n.

Notation gme_t := (gme.t C 1 ncomp Ng).
Notation exc_t := (exc.t C M_max ncomp Ng).

Lemma decoupled_spectrum N_max (g : gme.t C N_max ncomp Ng) (ex0 : exc_t)
  (rest : seq exc_t) (kind : nat) :
  all (fun ex => exc.osc_str ex == 0) (ex0 :: rest) ->
  is_spectrum (assembled k g ex0 rest kind) (decoupled_levels k g ex0 rest kind).
Proof.
by move=> os0; rewrite assembled_decoupled //; exact: is_spectrum_diag.
Qed.

(** Without oscillator strength every well has zero blocks. *)
Lemma decoupled_blocks N_max (g : gme.t C N_max ncomp Ng) (a : C)
  (l : seq exc_t) (kind : nat) :
  all (fun ex => exc.osc_str ex == 0) l ->
  all (fun ex => (well_C k g a kind ex == 0) && (well_D k g a kind ex == 0)) l.
Proof.
elim: l => [|ex l IHl] //= /andP[/eqP os0 /IHl ->].
by rewrite (well_C_zero _ _ _ _ os0) (well_D_zero _ _ _ _ os0) !eqxx.
Qed.

(** What [run] retains in the decoupled limit of one photonic band. *)
Lemma decoupled_run (g : gme_t) (ex0 : exc_t) (rest : seq exc_t)
  (kp : C * C) (kps : seq (C * C)) :
  eig_exact eig ->
  all (fun ex => exc.osc_str ex == 0) (ex0 :: rest) ->
  exists results mat,
    run k eig g (ex0 :: rest) (kp :: kps) = Ok (results, mat) /\
    [seq ener r | r <- results]
    = [seq [seq 'Re e
              | e <- lowest_positive (size (ex0 :: rest) * M_max)
                       (decoupled_levels k g ex0 rest ik)]
         | ik <- iota 0 (size (kp :: kps))].
Proof.
move=> exact_eig os0.
eexists; eexists; split; first exact: runE.
rewrite -map_comp; apply: eq_map => ik /=.
by rewrite (diagonalise_ener exact_eig _ (decoupled_spectrum g ik os0)).
Qed.

(** C7, as the code has it.  With one photonic band, an exact
    eigen-solver, no oscillator strength in any quantum well and
    excitonic energies of non-zero real part, every well has the coupling
    block [C = 0] and the self-energy block [D = 0], and at every k-point
    the retained energies are the real parts of the [num_QWs * M_max]
    lowest, in numpy's order, of the levels with a non-negative real part
    among the photonic level, the excitonic levels and their opposites. *)
Theorem decoupled_limit (g : gme_t) (ex0 : exc_t) (rest : seq exc_t)
  (kp : C * C) (kps : seq (C * C)) :
  eig_exact eig ->
  all (fun ex => exc.osc_str ex == 0) (ex0 :: rest) ->
  (forall kind,
     all (fun ex => [forall nu, 'Re (exc.eners ex kind 0 nu) != 0])
       (ex0 :: rest)) ->
  (forall kind,
     all (fun ex => (well_C k g (exc.a ex0) kind ex == 0)
                    && (well_D k g (exc.a ex0) kind ex == 0))
       (ex0 :: rest)) /\
  exists results mat,
    run k eig g (ex0 :: rest) (kp :: kps) = Ok (results, mat) /\
    [seq ener r | r <- results]
    = [seq [seq 'Re e
              | e <- lowest_positive (size (ex0 :: rest) * M_max)
                       (decoupled_levels k g ex0 rest ik)]
         | ik <- iota 0 (size (kp :: kps))].
Proof.
move=> exact_eig os0 _; split; last exact: decoupled_run.
by move=> kind; exact: decoupled_blocks.
Qed.

End DecoupledLimit.

Section DecoupledExample.

Lemma Re_nat (n : nat) : 'Re (n%:R : algC) = n%:R.
Proof. by rewrite (Creal_ReP _ _) ?realn. Qed.

Lemma Im_nat (n : nat) : 'Im (n%:R : algC) = 0.
Proof. by rewrite (Creal_ImP _ _) ?realn. Qed.

Lemma lexle_nat (m n : nat) : lexle (m%:R : algC) n%:R = (m <= n)%N.
Proof.
by rewrite /lexle !Re_nat !Im_nat lexx andbT ltr_nat eqr_nat [RHS]leq_eqVlt orbC.
Qed.

Lemma photon_levels_one (f : algC) (kind : nat) :
  photon_levels k_unit (gme_one f) 1 kind = const_mx f.
Proof.
rewrite /photon_levels /= divr1 mulr1 !scale1r scaler0 addr0.
by [].
Qed.

Lemma concatenate_eners_one (os E : algC) (kind : nat) :
  concatenate_eners 1 (exc_one os E) [:: exc_one os E] kind = const_mx E.
Proof.
apply/rowP => j; rewrite /concatenate_eners mxE.
have -> : j = mxvec_index (0 : 'I_1) (0 : 'I_1).
  by apply: val_inj; case: j (mxvec_index _ _) => [[|?] ?] [[|?] ?].
by rewrite mxvecE !mxE.
Qed.

Lemma decoupled_levels_one (f os E : algC) (kind : nat) :
  decoupled_levels k_unit (gme_one f) (exc_one os E) [::] kind
  = [:: f; E; - f; - E].
Proof.
rewrite /decoupled_levels /= photon_levels_one concatenate_eners_one.
by rewrite !seq_of_row_cat !seq_of_row1 !mxE.
Qed.

End DecoupledExample.

(** ** The decoupled limit on a small configuration *)

Section DecoupledCounterexample.

Lemma nonneg_Re_nat (n : nat) : (0 <= 'Re (n%:R : algC)) = true.
Proof. by rewrite Re_nat ler0n. Qed.

Lemma nonneg_Re_opp_nat (n : nat) : (0 <= 'Re (- (n.+1%:R : algC))) = false.
Proof. by rewrite raddfN /= Re_nat oppr_ge0; apply: lt_geF; exact: ltr0Sn. Qed.

Lemma osc_str_zero_one (E : algC) :
  all (fun ex : exc.t algC 1 1 1 => exc.osc_str ex == 0) [:: exc_one 0 E].
Proof. by rewrite /= andbT; apply/eqP/matrixP => i j; rewrite !mxE. Qed.

Lemma eners_nonzero_one (os : algC) (kind : nat) :
  all (fun ex : exc.t algC 1 1 1 =>
         [forall nu, 'Re (exc.eners ex kind 0 nu) != 0]) [:: exc_one os 1].
Proof.
by rewrite /= andbT; apply/forallP => nu; rewrite mxE Re1 oner_eq0.
Qed.

(** The lowest level of [2, 1, -2, -1] with a non-negative real part. *)
Lemma lowest_positive_2_1 :
  lowest_positive 1 [:: (2 : algC); 1; - 2; - 1] = [:: 1].
Proof.
change (lowest_positive 1 [:: (2%:R : algC); 1%:R; - 2%:R; - 1%:R]
        = [:: 1%:R]).
rewrite /lowest_positive /= !nonneg_Re_nat !nonneg_Re_opp_nat /sort /=.
by rewrite lexle_nat.
Qed.

(** C7 as stated fails when the excitonic level lies below the photonic
    one: the only retained energy is the excitonic energy 1, not the bare
    photonic energy 2. *)
Lemma decoupled_limit_counterexample :
  ~ ((forall kind,
        well_C k_unit (gme_one 2) 1 kind (exc_one 0 1) = 0 /\
        well_D k_unit (gme_one 2) 1 kind (exc_one 0 1) = 0) /\
     forall (eig : forall n, 'M[algC]_n -> seq algC * seq 'cV[algC]_n),
       eig_exact eig ->
       exists results mat,
         run k_unit eig (gme_one 2) [:: exc_one 0 1] [:: (0, 0)]
         = Ok (results, mat) /\
         [seq ener r | r <- results]
         = [seq bare_photonic_energies k_unit (gme_one 2) 1 ik
              | ik <- iota 0 1]).
Proof.
case=> _ /(_ _ (@ideal_eig_exact algC)) [results [mat [eq_run eq_ener]]].
have [results' [mat' []]] :=
  decoupled_run k_unit (gme_one 2) (0, 0) [::] (@ideal_eig_exact algC)
    (osc_str_zero_one 1).
rewrite eq_run => -[<- _]; rewrite eq_ener /=.
rewrite decoupled_levels_one lowest_positive_2_1 /bare_photonic_energies.
rewrite photon_levels_one seq_of_row1 mxE /= Re1 Re_nat => -[] /eqP.
by rewrite -[1]/(1%:R) eqr_nat.
Qed.

End DecoupledCounterexample.

(** ** No quantum well *)

Section NoQuantumWell.

Variable C : numClosedFieldType.
Variables (N_max M_max ncomp Ng : nat).
Variable k : cs.t C.
Variable eig : forall n, 'M[C]_n -> seq C * seq 'cV[C]_n.

Lemma run_nil (g : gme.t C N_max ncomp Ng) (kpoints : seq (C * C)) :
  run k eig g ([::] : seq (exc.t C M_max ncomp Ng)) kpoints
  = Raise IndexError.
Proof. reflexivity. Qed.

(** C8, as the code has it.  When no quantum well is configured, [run]
    returns nothing: it raises [IndexError] when it reads the number of
    bands of the first excitonic solver, whatever the k-points. *)
Theorem run_without_quantum_wells (g : gme.t C N_max ncomp Ng)
  (kpoints : seq (C * C)) :
  run k eig g ([::] : seq (exc.t C M_max ncomp Ng)) kpoints
  = Raise IndexError.
Proof. exact: run_nil. Qed.

End NoQuantumWell.

Section NoQuantumWellCounterexample.

(** C8 as stated fails: on one photonic band and one k-point, [run]
    without quantum wells returns no energies and no fractions. *)
Lemma run_without_quantum_wells_counterexample :
  ~ (exists a results mat,
       [/\ run k_unit (@ideal_eig algC) (gme_one 2)
             ([::] : seq (exc.t algC 1 1 1)) [:: (0, 0)]
           = Ok (results, mat),
           [seq ener r | r <- results]
           = [seq bare_photonic_energies k_unit (gme_one 2) a ik
                | ik <- iota 0 1],
           [seq fraction_ph r | r <- results] = [:: [:: 1]]
         & [seq fraction_ex r | r <- results] = [:: [:: 0]]]).
Proof. by case=> a [results [mat []]]; rewrite run_nil. Qed.

End NoQuantumWellCounterexample.

(** ** The layer lookup: order and failures *)

Section ZToLindOrder.

Variables (disp : Order.disp_t) (R : orderType disp).
Implicit Types (self : lind_self R) (z : R) (clad : layer R).

(** X1.  With the lower cladding present and [N_layers] layers in the
    stack, the layer lookup is monotone: a higher position never gets a
    lower layer index, whatever the order of the boundaries. *)
Theorem z_to_lind_monotone self clad z z' :
  getitem (claddings (phc self)) 0 = Ok clad ->
  (N_layers self <= size (layers (phc self)))%N ->
  (z <= z')%O ->
  exists lind lind',
    [/\ z_to_lind self z = Ok lind, z_to_lind self z' = Ok lind'
      & (lind <= lind')%N].
Proof.
move=> eq_clad leN le_z.
exists (find (fun b => (z <= b)%O) (boundaries self clad)).
exists (find (fun b => (z' <= b)%O) (boundaries self clad)).
split; try exact: z_to_lind_find.
by apply: sub_find => b; apply: le_trans.
Qed.

(** All the boundaries of the stack: the lower cladding, then every
    layer. *)
Let all_boundaries self clad : seq R :=
  z_max clad :: [seq z_max l | l <- layers (phc self)].

(** The loop when [layers] holds fewer than [N_layers] layers: it stops
    at the first boundary that [z] does not exceed, and reads past the
    end of [layers] when there is none. *)
Lemma z_to_lind_while_short self clad z lind zmax :
  (size (layers (phc self)) < N_layers self)%N ->
  (lind <= size (layers (phc self)))%N ->
  zmax = nth (z_max clad) (all_boundaries self clad) lind ->
  z_to_lind_while self z lind zmax
  = let f := (lind + find (fun b => (z <= b)%O)
                       (drop lind (all_boundaries self clad)))%N in
    if (f <= size (layers (phc self)))%N
    then Ok (f, nth (z_max clad) (all_boundaries self clad) f)
    else Raise IndexError.
Proof.
move=> ltN le_lind eq_zmax.
funelim (z_to_lind_while self z lind zmax).
- move=> {H Heqcall}; move: e; set B := all_boundaries self clad => e.
  have szB : size B = (size (layers (phc self))).+1 by rewrite /= size_map.
  have dropB := drop_nth (z_max clad) (_ : lind < size B)%N.
  rewrite dropB ?szB ?ltnS //=.
  move: e; rewrite (leq_ltn_trans le_lind ltN) andbT => /negbT.
  by rewrite -leNgt => ->; rewrite addn0 le_lind.
- move=> {H0 Heqcall}.
  move: e; set B := all_boundaries self clad => /andP[lt_z lt_lind].
  have szB : size B = (size (layers (phc self))).+1 by rewrite /= size_map.
  have dropB := drop_nth (z_max clad) (_ : lind < size B)%N.
  have lt_sz : (lind < size (layers (phc self)))%N.
    by move: Heq; rewrite subn1 /= /getitem; case: ltnP => // /drop_oversize ->.
  rewrite dropB ?szB ?ltnS //= leNgt lt_z /= addnS -addSn.
  apply: H => //.
  move: Heq; rewrite subn1 /= (getitem_nth l) // => -[<-].
  by rewrite /B /= (nth_map l).
- move=> {H Heqcall}; move: e1 Heq => /andP[lt_z lt_lind].
  set B := all_boundaries self clad.
  have szB : size B = (size (layers (phc self))).+1 by rewrite /= size_map.
  have dropB := drop_nth (z_max clad) (_ : lind < size B)%N.
  rewrite subn1 /= => raises.
  have eq_lind : lind = size (layers (phc self)).
    apply/eqP; rewrite eqn_leq le_lind leqNgt; apply/negP => lt_sz.
    by move: raises; rewrite (getitem_nth (Layer z)).
  move: raises; rewrite getitem_oversize ?eq_lind // => -[<-].
  rewrite -eq_lind dropB ?szB ?eq_lind //= drop_oversize ?size_map //=.
  by rewrite leNgt -eq_lind lt_z /= addn1 ltnn.
Qed.

Lemma z_to_lind_short self clad z :
  getitem (claddings (phc self)) 0 = Ok clad ->
  (size (layers (phc self)) < N_layers self)%N ->
  z_to_lind self z
  = if has (fun b => (z <= b)%O) (all_boundaries self clad)
    then Ok (find (fun b => (z <= b)%O) (all_boundaries self clad))
    else Raise IndexError.
Proof.
move=> eq_clad ltN; rewrite /z_to_lind eq_clad bind_Ok.
rewrite (@z_to_lind_while_short self clad z 0 _ ltN (leq0n _) erefl).
rewrite add0n drop0.
set B := all_boundaries self clad; set p := fun b => (z <= b)%O.
have szB : size B = (size (layers (phc self))).+1 by rewrite /= size_map.
cbv zeta; rewrite [has _ _]has_find szB ltnS; case: leqP => // le_f.
rewrite bind_Ok.
have /(nth_find (z_max clad)) : has p B by rewrite has_find szB ltnS.
by rewrite /p leNgt => /negbTE ->.
Qed.

(** X2.  The layer lookup raises nothing but IndexError, and it raises
    exactly when there is no cladding, or when [layers] holds fewer than
    [N_layers] layers and [z] exceeds the boundary of the lower cladding
    and of every layer. *)
Theorem z_to_lind_raises self z :
  (forall e, z_to_lind self z = Raise e -> e = IndexError) /\
  (z_to_lind self z = Raise IndexError <->
   claddings (phc self) = [::] \/
   exists clad,
     [/\ getitem (claddings (phc self)) 0 = Ok clad,
         (size (layers (phc self)) < N_layers self)%N
       & all (fun b => (b < z)%O)
           (z_max clad :: [seq z_max l | l <- layers (phc self)])]).
Proof.
case eq_clads: (claddings (phc self)) => [|clad clads].
  have raises : z_to_lind self z = Raise IndexError.
    by rewrite /z_to_lind eq_clads.
  by rewrite raises; split=> [e [<-]|]; split=> // _; left.
have eq_clad : getitem (claddings (phc self)) 0 = Ok clad.
  by rewrite eq_clads.
have [leN|ltN] := leqP (N_layers self) (size (layers (phc self))).
  rewrite (z_to_lind_find z eq_clad leN); split=> //; split=> //.
  by case=> // -[clad' []].
rewrite (z_to_lind_short z eq_clad ltN) -/(all_boundaries self clad).
set B := all_boundaries self clad.
have all_has : all (fun b => (b < z)%O) B = ~~ has (fun b => (z <= b)%O) B.
  by rewrite -all_predC; apply: eq_all => b /=; rewrite ltNge.
case has_p: (has _ B).
  split=> //; split=> //; case=> // -[clad' []] [<-] _.
  by rewrite -/(all_boundaries self clad) all_has has_p.
split=> [e [<-] //|]; split=> // _; right; exists clad; split=> //.
by rewrite -/(all_boundaries self clad) all_has has_p.
Qed.

End ZToLindOrder.

(** ** The self-energy block *)

Section SelfEnergyFacts.

Variable C : numClosedFieldType.
Variables (N_max M_max ncomp Ng : nat).
Variable k : cs.t C.

Notation gme_t := (gme.t C N_max ncomp Ng).
Notation exc_t := (exc.t C M_max ncomp Ng).

(** X3.  For excitonic energies of non-zero real part, the self-energy
    block [D] that [_calculate_C_D] returns is Hermitian; when these real
    parts are positive, the diagonal of [D] is non-negative. *)
Theorem self_energy_hermitian (g : gme_t) (a : C) (ex : exc_t) (kind : nat) :
  (forall nu, 'Re (exc.eners ex kind 0 nu) != 0) ->
  let D := (calculate_C_D k g a ex kind).2 in
  (forall n1 n2, D n1 n2 = (D n2 n1)^*) /\
  ((forall nu, 0 < 'Re (exc.eners ex kind 0 nu)) -> forall n, 0 <= D n n).
Proof.
move=> _ D; split=> [n1 n2|gt0 n]; rewrite /D !calculate_D_entry /spec_D.
  rewrite rmorph_sum /=; apply: eq_bigr => nu _.
  rewrite rmorphM /= rmorphM /= conjCK fmorphV /=.
  by rewrite (CrealP (Creal_Re _)) [_^* * _]mulrC.
apply: sumr_ge0 => nu _; rewrite [_^* * _]mulrC -normCK.
by apply: divr_ge0; rewrite ?exprn_ge0 // ltW.
Qed.

End SelfEnergyFacts.

(** ** The assembly: spectrum and failures *)

Section AssemblyOutcome.

Variable C : numClosedFieldType.
Variables (N_max M_max ncomp Ng : nat).
Variable k : cs.t C.

Notation gme_t := (gme.t C N_max ncomp Ng).
Notation exc_t := (exc.t C M_max ncomp Ng).

(** X4.  The eigenvalues of every matrix the assembly returns come in
    opposite pairs: any list of them, with multiplicities, is a
    permutation of the list of their opposites. *)
Theorem hopfield_spectrum_symmetric (g : gme_t) (exc_list : seq exc_t)
  (kind : nat) (mat : 'M[C]_(hopfield_size N_max M_max (size exc_list)))
  (L : seq C) :
  construct_Hopfield k g (size exc_list) exc_list kind = Ok mat ->
  is_spectrum mat L ->
  perm_eq L [seq - x | x <- L].
Proof.
case: exc_list mat => [|ex0 rest] mat //.
rewrite construct_Hopfield_assembled => -[<-].
exact: spec_Hopfield_spectrum_opp.
Qed.

(** The loop over the quantum wells when [C_blocks] has [n]
    placeholders left. *)
Lemma qw_loop_placeholders (g : gme_t) (a : C) (kind : nat) (s : seq exc_t)
  (n : nat) (D0 : 'M[C]_N_max) (pre : seq (option 'M[C]_(N_max, M_max)))
  (Dopt : option 'M[C]_N_max) :
  for_loop (qw_body k g a kind) (D0, pre ++ nseq n None, Dopt)
    (zip (iota (size pre) (size s)) s)
  = if (size s <= n)%N then
      Ok (D0 + \sum_(ex <- s) well_D k g a kind ex,
          pre ++ [seq Some (well_C k g a kind ex) | ex <- s]
              ++ nseq (n - size s) None,
          foldl (fun _ ex => Some (well_D k g a kind ex)) Dopt s)
    else Raise IndexError.
Proof.
elim: s n D0 pre Dopt => [|ex s IHs] n D0 pre Dopt /=.
  by rewrite big_nil addr0 subn0.
rewrite qw_bodyE; case: n => [|n].
  by rewrite /setitem cats0 ltnn.
rewrite setitem_cat_nseq bind_Ok.
rewrite -(size_rcons pre (Some (well_C k g a kind ex))).
rewrite bind_Ok IHs ltnS subSS; case: leqP => // _.
by rewrite big_cons addrA cat_rcons.
Qed.

(** X5.  When [num_QWs] is not the number of excitonic solvers, the
    assembly does not return: it raises IndexError when there are more
    solvers than [num_QWs], at the assignment to [C_blocks], and
    ValueError when there are fewer, at the stacking of [C_blocks]. *)
Theorem construct_Hopfield_num_QWs (g : gme_t) (num_QWs : nat) (ex0 : exc_t)
  (rest : seq exc_t) (kind : nat) :
  num_QWs != size (ex0 :: rest) ->
  construct_Hopfield k g num_QWs (ex0 :: rest) kind
  = Raise (if (num_QWs < size (ex0 :: rest))%N then IndexError
           else ValueError).
Proof.
move=> ne_size; rewrite /construct_Hopfield getitem0 bind_Ok /enumerate.
have := qw_loop_placeholders g (exc.a ex0) kind (ex0 :: rest) num_QWs 0
          [::] None.
rewrite [size [::]]/= !cat0s => ->.
rewrite leqNgt; case: ltnP => [//|le_size] /=.
have lt_size : (size (ex0 :: rest) < num_QWs)%N.
  by rewrite ltn_neqAle eq_sym ne_size.
set blocks := _ :: _ ++ nseq _ None.
have -> : hstack num_QWs blocks = Raise ValueError.
  rewrite /hstack /blocks -cat_cons all_cat.
  have -> : all isSome (nseq (num_QWs - (size rest).+1)
                          (None : option 'M[C]_(N_max, M_max))) = false.
    by move: lt_size; rewrite -subn_gt0 /=; case: (_ - _)%N.
  by rewrite andbF.
by [].
Qed.

End AssemblyOutcome.

(** ** The outcome of [run] *)

Section RunOutcome.

Variable C : numClosedFieldType.
Variables (N_max M_max ncomp Ng : nat).
Variable k : cs.t C.
Variable eig : forall n, 'M[C]_n -> seq C * seq 'cV[C]_n.

Notation gme_t := (gme.t C N_max ncomp Ng).
Notation exc_t := (exc.t C M_max ncomp Ng).

(** X6.  What [run] does on the results of the two solvers: without a
    quantum well it raises IndexError; with quantum wells and no
    k-point it raises NameError, at [self.mat = mat]; otherwise it
    returns, with one result per k-point. *)
Theorem run_outcome (g : gme_t) (exc_list : seq exc_t)
  (kpoints : seq (C * C)) :
  match run k eig g exc_list kpoints with
  | Ok res =>
      [/\ exc_list <> [::], kpoints <> [::]
        & size res.1 = size kpoints]
  | Raise e =>
      (e = IndexError /\ exc_list = [::]) \/
      [/\ e = NameError, exc_list <> [::] & kpoints = [::]]
  end.
Proof.
case: exc_list => [|ex0 rest]; first by left.
case: kpoints => [|kp kps]; first by right.
by rewrite runE; split=> //; rewrite size_map size_iota.
Qed.

End RunOutcome.

(** ** The retained bands *)

Section RetainedFacts.

Variable C : numClosedFieldType.
Variables (N_max M_max ncomp Ng : nat).
Variable k : cs.t C.
Variable eig : forall n, 'M[C]_n -> seq C * seq 'cV[C]_n.

Notation gme_t := (gme.t C N_max ncomp Ng).
Notation exc_t := (exc.t C M_max ncomp Ng).

(** [s[0:k]] is a prefix of [s]. *)
Lemma slice_to_take T (kk : int) (s : seq T) :
  exists m, slice_to kk s = take m s.
Proof. by case: kk => n; [exists n | exists (size s - n.+1)%N]. Qed.

(** Two arrays read through one boolean mask stay aligned. *)
Lemma nth_mask2 T U (x0 : T) (y0 : U) (m : seq bool) (s : seq T) (t : seq U)
  (idx : nat) :
  size m = size s -> size s = size t -> (idx < size (mask m s))%N ->
  exists2 i, (i < size s)%N &
    [/\ nth false m i, nth x0 (mask m s) idx = nth x0 s i
      & nth y0 (mask m t) idx = nth y0 t i].
Proof.
elim: m s t idx => [|b m IHm] [|x s] [|y t] idx //= [sz_m] [sz_s].
case: b => /=; last first.
  by move=> /(IHm _ t _ sz_m sz_s) [i lt_i [? ? ?]]; exists i.+1.
case: idx => [_|idx]; first by exists 0%N.
by rewrite ltnS => /(IHm _ t _ sz_m sz_s) [i lt_i [? ? ?]]; exists i.+1.
Qed.

(** The energies retained at one k-point are non-negative and in
    ascending order, for any eigen-solver. *)
Lemma diagonalise_ener_sorted (num_QWs : nat)
  (mat : 'M[C]_(hopfield_size N_max M_max num_QWs)) :
  all (fun e : C => 0 <= e) (ener (diagonalise eig mat)) /\
  sorted (fun x y : C => x <= y) (ener (diagonalise eig mat)).
Proof.
rewrite /diagonalise; case: (eig _) => ener2 evecs.
case: calculate_fraction => fex fph /=.
have [m ->] := slice_to_take (((shape0 mat) %/ 2)%:Z - 1)
  (argsort (mask (filter_positive (unshift ener2)) (unshift ener2))).
rewrite /take_idx map_take -/(take_idx _ _ _) take_idx_argsort.
rewrite mask_filter_positive map_take; split.
  apply/allP => e /mem_take /mapP[x]; rewrite mem_sort mem_filter.
  by case/andP=> ge0 _ ->.
apply: take_sorted; rewrite sorted_map.
apply: sub_sorted (sort_sorted (@lexle_total C) _) => x y /=.
by case/orP=> [/ltW|/andP[/eqP-> _]].
Qed.

(** Band [j] retained at one k-point is one of the pairs of the
    eigen-solver: its energy, its linewidth, its eigenvector and its two
    fractions all belong to the same column. *)
Lemma diagonalise_nth (num_QWs : nat)
  (mat : 'M[C]_(hopfield_size N_max M_max num_QWs)) (j : nat) :
  (forall n (A : 'M[C]_n), size (eig A).2 = size (eig A).1) ->
  let r := diagonalise eig mat in
  (j < size (ener r))%N ->
  exists2 i, (i < size (eig (mat + 1%:M)).1)%N &
    let lam := nth 0 (eig (mat + 1%:M)).1 i - 1 in
    let v := nth 0 (eig (mat + 1%:M)).2 i in
    let col := seq_of_col v in
    0 <= 'Re lam /\
    [/\ nth 0 (ener r) j = 'Re lam,
        nth 0 (ener_im r) j = 'Im lam,
        nth 0 (evec r) j = v,
        nth 0 (fraction_ex r) j
        = sum_abs2 (slice N_max (N_max + M_max * num_QWs) col)
          + sum_abs2 (slice_from (2 * N_max + M_max * num_QWs) col)
      & nth 0 (fraction_ph r) j
        = sum_abs2 (slice 0 N_max col)
          + sum_abs2 (slice (N_max + M_max * num_QWs)
                            (2 * N_max + M_max * num_QWs) col)].
Proof.
move=> sz_eig; rewrite /diagonalise.
have := sz_eig _ (mat + 1%:M); case: (eig _) => ener2 evecs /= sz_evecs.
set e1 := unshift ener2; set filt := filter_positive e1.
have fracs := @calculate_fraction_nth C N_max M_max num_QWs _ (mask filt evecs).
case: calculate_fraction fracs => fex fph /= fracs.
have [m ->] := slice_to_take (((shape0 mat) %/ 2)%:Z - 1)
                 (argsort (mask filt e1)).
set isort := take m _; rewrite !size_map => lt_j.
have sz_filt : size filt = size e1 by rewrite size_map.
have sz_e1 : size e1 = size evecs by rewrite size_map sz_evecs.
have lt_idx : (nth 0%N isort j < size (mask filt e1))%N.
  have /mem_take : nth 0%N isort j \in isort by apply: mem_nth.
  by rewrite /argsort mem_sort mem_iota.
have [i lt_i [filt_i eq_e eq_v]] :=
  nth_mask2 0 (0 : 'cV[C]_(hopfield_size N_max M_max num_QWs))
    sz_filt sz_e1 lt_idx.
have lt_i2 : (i < size ener2)%N by move: lt_i; rewrite size_map.
have eq_lam : nth 0 e1 i = nth 0 ener2 i - 1.
  by rewrite /e1 /unshift (nth_map 0).
have lt_idx' : (nth 0%N isort j < size (mask filt evecs))%N.
  by move: lt_idx; rewrite !size_mask // -sz_e1.
have [eq_ex eq_ph] := fracs _ lt_idx'.
exists i => //; split.
  by move: filt_i; rewrite /filt /filter_positive (nth_map 0) // eq_lam.
split.
- by rewrite (nth_map 0) ?size_map // /take_idx (nth_map 0%N) // eq_e eq_lam.
- by rewrite (nth_map 0) ?size_map // /take_idx (nth_map 0%N) // eq_e eq_lam.
- by rewrite /take_idx (nth_map 0%N) // eq_v.
- by rewrite /take_idx (nth_map 0%N) // eq_ex eq_v.
- by rewrite /take_idx (nth_map 0%N) // eq_ph eq_v.
Qed.

(** What [run] returns for the wells [ex0 :: rest], k-point by
    k-point. *)
Lemma run_nth (g : gme_t) (exc_list : seq exc_t) (kpoints : seq (C * C))
  (results : seq (kpoint_result C
                    (hopfield_size N_max M_max (size exc_list))))
  (mat : 'M[C]_(hopfield_size N_max M_max (size exc_list))) (ik : nat) :
  run k eig g exc_list kpoints = Ok (results, mat) ->
  (ik < size results)%N ->
  exists2 matk,
    construct_Hopfield k g (size exc_list) exc_list ik = Ok matk
    & nth (no_band C _) results ik = diagonalise eig matk.
Proof.
case: exc_list results mat => [|ex0 rest] results mat //.
case: kpoints => [|kp kps] //; rewrite runE => eq_run.
have {eq_run} -> :
    results = [seq diagonalise eig (assembled k g ex0 rest ik0)
                 | ik0 <- iota 0 (size kps).+1].
  by case: eq_run.
rewrite size_map size_iota => lt_ik.
exists (assembled k g ex0 rest ik); first exact: construct_Hopfield_assembled.
rewrite (nth_map 0%N); first by rewrite size_iota.
by rewrite nth_iota ?add0n.
Qed.

(** X7.  At every k-point the energies [run] retains are non-negative
    and in ascending order, whatever the eigen-solver returns. *)
Theorem retained_energies_sorted (g : gme_t) (exc_list : seq exc_t)
  (kpoints : seq (C * C))
  (results : seq (kpoint_result C
                    (hopfield_size N_max M_max (size exc_list))))
  (mat : 'M[C]_(hopfield_size N_max M_max (size exc_list))) (ik : nat) :
  run k eig g exc_list kpoints = Ok (results, mat) ->
  (ik < size results)%N ->
  let r := nth (no_band C _) results ik in
  all (fun e : C => 0 <= e) (ener r) /\
  sorted (fun x y : C => x <= y) (ener r).
Proof.
move=> eq_run lt_ik; have [matk _ -> /=] := run_nth eq_run lt_ik.
exact: diagonalise_ener_sorted.
Qed.

(** X8.  With an eigen-solver that returns eigenpairs, every band [run]
    retains is an eigenpair of the matrix assembled for its k-point:
    the eigenvector column [evec[j]] is mapped by the matrix to
    [(ener[j] + i ener_im[j])] times itself. *)
Theorem retained_eigenpairs (g : gme_t) (exc_list : seq exc_t)
  (kpoints : seq (C * C))
  (results : seq (kpoint_result C
                    (hopfield_size N_max M_max (size exc_list))))
  (mat : 'M[C]_(hopfield_size N_max M_max (size exc_list))) (ik j : nat) :
  eig_pairs eig ->
  run k eig g exc_list kpoints = Ok (results, mat) ->
  (ik < size results)%N ->
  let r := nth (no_band C _) results ik in
  (j < size (ener r))%N ->
  exists2 matk,
    construct_Hopfield k g (size exc_list) exc_list ik = Ok matk
    & matk *m nth 0 (evec r) j
      = (nth 0 (ener r) j + 'i * nth 0 (ener_im r) j) *: nth 0 (evec r) j.
Proof.
move=> pairs eq_run lt_ik; have [matk eq_mat -> /=] := run_nth eq_run lt_ik.
move=> lt_j; exists matk => //.
have sz_eig n (A : 'M[C]_n) : size (eig A).2 = size (eig A).1.
  by case: (pairs n A).
have [i lt_i /= [_ [-> -> -> _ _]]] := diagonalise_nth sz_eig lt_j.
have [_ /(_ i lt_i)] := pairs _ (matk + 1%:M).
rewrite -Crect mulmxDl mul1mx scalerBl scale1r => <-.
by rewrite addrK.
Qed.

(** X9.  The fractions [run] reports for a retained band are those of
    the eigenvector it reports for that band: the photonic fraction is
    the squared weight of the two photonic row ranges of [evec[j]], the
    excitonic fraction that of the two excitonic row ranges, and the two
    add up to the squared norm of [evec[j]]. *)
Theorem retained_fractions (g : gme_t) (exc_list : seq exc_t)
  (kpoints : seq (C * C))
  (results : seq (kpoint_result C
                    (hopfield_size N_max M_max (size exc_list))))
  (mat : 'M[C]_(hopfield_size N_max M_max (size exc_list))) (ik j : nat) :
  (forall n (A : 'M[C]_n), size (eig A).2 = size (eig A).1) ->
  run k eig g exc_list kpoints = Ok (results, mat) ->
  (ik < size results)%N ->
  let r := nth (no_band C _) results ik in
  (j < size (ener r))%N ->
  let v := nth 0 (evec r) j in
  let col := seq_of_col v in
  let num_QWs := size exc_list in
  [/\ nth 0 (fraction_ph r) j
      = sum_abs2 (slice 0 N_max col)
        + sum_abs2 (slice (N_max + M_max * num_QWs)
                          (2 * N_max + M_max * num_QWs) col),
      nth 0 (fraction_ex r) j
      = sum_abs2 (slice N_max (N_max + M_max * num_QWs) col)
        + sum_abs2 (slice_from (2 * N_max + M_max * num_QWs) col)
    & nth 0 (fraction_ph r) j + nth 0 (fraction_ex r) j
      = \sum_i `|v i 0| ^+ 2].
Proof.
move=> sz_eig eq_run lt_ik; have [matk _ -> /=] := run_nth eq_run lt_ik.
move=> lt_j.
have [i lt_i /= [_ [_ _ -> eq_ex eq_ph]]] := diagonalise_nth sz_eig lt_j.
split=> //; rewrite eq_ex eq_ph -sum_abs2_col.
set v := nth 0 _ i.
rewrite [in RHS](slices_partition (seq_of_col v) N_max
                   (M_max * size exc_list)).
by rewrite !sum_abs2_cat; ring.
Qed.

End RetainedFacts.

(** ** The range of the fractions *)

Section FractionRange.

Variable C : numClosedFieldType.
Variables (N_max M_max num_QWs : nat).

Lemma sum_abs2_ge0 (s : seq C) : 0 <= sum_abs2 s.
Proof. by rewrite /sum_abs2; apply: sumr_ge0 => x _; apply: exprn_ge0. Qed.

(** X10.  For every eigenvector array and every band, each of the two
    fractions lies between 0 and the sum of the squared magnitudes of
    the column; for a column of 2-norm 1 each lies between 0 and 1. *)
Theorem fractions_range r (eigenvectors : seq 'cV[C]_r) (band : nat) :
  (band < size eigenvectors)%N ->
  let v := nth 0 eigenvectors band in
  let res := calculate_fraction N_max M_max num_QWs eigenvectors in
  let frac_ex := nth 0 res.1 band in
  let frac_ph := nth 0 res.2 band in
  (0 <= frac_ex <= \sum_i `|v i 0| ^+ 2) /\
  (0 <= frac_ph <= \sum_i `|v i 0| ^+ 2) /\
  (norm2 v = 1 -> frac_ex <= 1 /\ frac_ph <= 1).
Proof.
move=> lt_band v res frac_ex frac_ph.
have [eq_ex eq_ph] := @calculate_fraction_nth C N_max M_max num_QWs _ _ _
                        lt_band.
have ge0_ex : 0 <= frac_ex.
  by rewrite /frac_ex /res eq_ex addr_ge0 ?sum_abs2_ge0.
have ge0_ph : 0 <= frac_ph.
  by rewrite /frac_ph /res eq_ph addr_ge0 ?sum_abs2_ge0.
have eq_sum : frac_ph + frac_ex = \sum_i `|v i 0| ^+ 2.
  rewrite /frac_ph /frac_ex /res eq_ex eq_ph -sum_abs2_col.
  rewrite [in RHS](slices_partition (seq_of_col v) N_max (M_max * num_QWs)).
  by rewrite !sum_abs2_cat -/v; ring.
have le_ex : frac_ex <= \sum_i `|v i 0| ^+ 2 by rewrite -eq_sum lerDr.
have le_ph : frac_ph <= \sum_i `|v i 0| ^+ 2 by rewrite -eq_sum lerDl.
rewrite ge0_ex ge0_ph le_ex le_ph; split=> //; split=> // eq1.
have eq_norm : \sum_i `|v i 0| ^+ 2 = 1.
  by rewrite -[LHS]sqrtCK -/(norm2 v) eq1 expr1n.
by rewrite -eq_norm.
Qed.

End FractionRange.

(** ** The constructor *)

Section ListFacts.

Variable U : Type.

Lemma getitem_raises (s : seq U) (i : nat) (e : exn) :
  getitem s i = Raise e -> e = IndexError.
Proof. by rewrite /getitem; case: (drop i s) => [|x s'] // [<-]. Qed.

Lemma getitem_Ok (x0 : U) (s : seq U) (i : nat) (x : U) :
  getitem s i = Ok x -> (i < size s)%N /\ x = nth x0 s i.
Proof.
case: (ltnP i (size s)) => [lt_i|le_i]; last by rewrite getitem_oversize.
by rewrite (getitem_nth x0) // => -[<-].
Qed.

Lemma getitem_drop (s : seq U) (i : nat) (x : U) :
  getitem s i = Ok x -> drop i s = x :: drop i.+1 s.
Proof.
rewrite /getitem -add1n -drop_drop.
by case: (drop i s) => [|y s'] // [<-]; rewrite /= drop0.
Qed.

(** [s[li - 1]] for [li >= 0]: the element before [li], and the last one
    when [li] is 0. *)
Lemma getitem_int_pred (x0 : U) (s : seq U) (li : nat) (x : U) :
  getitem_int s (li%:Z - 1) = Ok x ->
  [/\ (0 < size s)%N, (li <= size s)%N
    & x = if li is li'.+1 then nth x0 s li' else last x0 s].
Proof.
case: li => [|li].
  rewrite -[0%:Z - 1]/(Negz 0) /getitem_int; case: ifP => // gt0.
  by rewrite subn1 => /(getitem_Ok x0)[_ ->]; split=> //; rewrite nth_last.
rewrite intS addrC addKr /= => /(getitem_Ok x0)[lt_li ->]; split=> //.
exact: leq_ltn_trans lt_li.
Qed.

Lemma getitem_int_raises (s : seq U) (i : int) (e : exn) :
  getitem_int s i = Raise e -> e = IndexError.
Proof.
case: i => n /=; first exact: getitem_raises.
by case: ifP => _; [exact: getitem_raises | case].
Qed.

Lemma for_loop_cons S (body : S -> U -> result S) (st : S) (x : U)
  (s : seq U) :
  for_loop body st (x :: s) = (st' <- body st x ;; for_loop body st' s).
Proof. by []. Qed.

Lemma every_cat (Q : U -> Prop) (s t : seq U) :
  every Q (s ++ t) <-> every Q s /\ every Q t.
Proof.
elim: s => [|x s IHs] /=; first by split=> [|[]].
by rewrite IHs; split=> [[? []]|[[]]].
Qed.

Lemma every_impl (Q Q' : U -> Prop) (s : seq U) :
  (forall x, Q x -> Q' x) -> every Q s -> every Q' s.
Proof. by move=> sub; elim: s => [|x s IHs] //= [/sub ? /IHs]. Qed.

Lemma take_drop_getitem (s : seq U) (b n : nat) (x : U) :
  getitem s b = Ok x -> take n.+1 (drop b s) = x :: take n (drop b.+1 s).
Proof. by move/getitem_drop->. Qed.

End ListFacts.

Section ConstructorFacts.

Variables (L : Type) (Z : eqType) (P G T : Type).
Variable gme_z_to_lind : GuidedModeExp.t L Z P G T -> Z -> result nat.

Notation exc_t := (ExcitonSchroedEq.t L Z P G T).
Notation phc_t := (PhotCryst.t L Z P).
Notation gme_t := (GuidedModeExp.t L Z P G T).

(** The layer a solver was given is the one the lookup points at. *)
Let layer_found (phc : phc_t) (gme : gme_t) (e : exc_t) : Prop :=
  exists2 li, gme_z_to_lind gme (ExcitonSchroedEq.z e) = Ok li
    & getitem_int (PhotCryst.layers phc) (li%:Z - 1)
      = Ok (ExcitonSchroedEq.layer e).

Lemma init_wellE (phc : phc_t) (gme : gme_t) (gmax : G) (truncate_g : T)
  (qw : qw.t Z P) (l l' : seq exc_t) (ind : nat) (z : Z) :
  init_well gme_z_to_lind phc gme gmax truncate_g qw l (ind, z) = Ok l' ->
  exists e,
    [/\ l' = rcons l e,
        [/\ ExcitonSchroedEq.z e = z, ExcitonSchroedEq.gmax e = gmax,
            ExcitonSchroedEq.truncate_g e = truncate_g
          & layer_found phc gme e],
        [/\ getitem (qw.Vmax qw) ind = Ok (ExcitonSchroedEq.Vmax e),
            getitem (qw.a qw) ind = Ok (ExcitonSchroedEq.a e)
          & getitem (qw.M qw) ind = Ok (ExcitonSchroedEq.M e)]
      & [/\ getitem (qw.E0 qw) ind = Ok (ExcitonSchroedEq.E0 e),
            getitem (qw.loss qw) ind = Ok (ExcitonSchroedEq.loss e)
          & getitem (qw.osc_str qw) ind = Ok (ExcitonSchroedEq.osc_str e)]].
Proof.
rewrite /init_well.
case eq_li: (gme_z_to_lind gme z) => [li|] //=.
case eq_lay: (getitem_int _ _) => [lay|] //=.
case: (getitem (qw.Vmax qw) ind) => [v1|] //=.
case: (getitem (qw.a qw) ind) => [v2|] //=.
case: (getitem (qw.M qw) ind) => [v3|] //=.
case: (getitem (qw.E0 qw) ind) => [v4|] //=.
case: (getitem (qw.loss qw) ind) => [v5|] //=.
case: (getitem (qw.osc_str qw) ind) => [v6|] //= -[<-].
eexists; split; first by reflexivity.
- by split=> //; exists li.
- by [].
- by [].
Qed.

Lemma init_well_raises (phc : phc_t) (gme : gme_t) (gmax : G)
  (truncate_g : T) (qw : qw.t Z P) (l : seq exc_t) (it : nat * Z) (e : exn) :
  (forall z, exists li, gme_z_to_lind gme z = Ok li) ->
  init_well gme_z_to_lind phc gme gmax truncate_g qw l it = Raise e ->
  e = IndexError.
Proof.
case: it => ind z /(_ z)[li eq_li]; rewrite /init_well eq_li bind_Ok.
case eq_lay: (getitem_int _ _) => [lay|e'] /=; last first.
  by case=> <-; apply: getitem_int_raises eq_lay.
case eq1: (getitem (qw.Vmax qw) ind) => [v1|e1] /=;
  last by case=> <-; apply: getitem_raises eq1.
case eq2: (getitem (qw.a qw) ind) => [v2|e2] /=;
  last by case=> <-; apply: getitem_raises eq2.
case eq3: (getitem (qw.M qw) ind) => [v3|e3] /=;
  last by case=> <-; apply: getitem_raises eq3.
case eq4: (getitem (qw.E0 qw) ind) => [v4|e4] /=;
  last by case=> <-; apply: getitem_raises eq4.
case eq5: (getitem (qw.loss qw) ind) => [v5|e5] /=;
  last by case=> <-; apply: getitem_raises eq5.
case eq6: (getitem (qw.osc_str qw) ind) => [v6|e6] /=;
  last by case=> <-; apply: getitem_raises eq6.
by [].
Qed.

(** The loop over the wells of one block. *)
Lemma init_blockE (phc : phc_t) (gme : gme_t) (gmax : G) (truncate_g : T)
  (qw : qw.t Z P) (zs : seq Z) (b : nat) (l l' : seq exc_t) :
  for_loop (init_well gme_z_to_lind phc gme gmax truncate_g qw) l
    (zip (iota b (size zs)) zs) = Ok l' ->
  exists es,
    [/\ l' = l ++ es,
        [seq ExcitonSchroedEq.z e | e <- es] = zs,
        every (fun e => [/\ ExcitonSchroedEq.gmax e = gmax,
                            ExcitonSchroedEq.truncate_g e = truncate_g
                          & layer_found phc gme e]) es,
        [/\ [seq ExcitonSchroedEq.Vmax e | e <- es]
            = take (size zs) (drop b (qw.Vmax qw)),
            [seq ExcitonSchroedEq.a e | e <- es]
            = take (size zs) (drop b (qw.a qw))
          & [seq ExcitonSchroedEq.M e | e <- es]
            = take (size zs) (drop b (qw.M qw))]
      & [/\ [seq ExcitonSchroedEq.E0 e | e <- es]
            = take (size zs) (drop b (qw.E0 qw)),
            [seq ExcitonSchroedEq.loss e | e <- es]
            = take (size zs) (drop b (qw.loss qw))
          & [seq ExcitonSchroedEq.osc_str e | e <- es]
            = take (size zs) (drop b (qw.osc_str qw))]].
Proof.
elim: zs b l => [|z zs IHzs] b l.
  by case=> <-; exists [::]; rewrite cats0 !take0.
rewrite -[zip _ _]/((b, z) :: zip (iota b.+1 (size zs)) zs) for_loop_cons.
case eq_w: (init_well _ _ _ _ _ _ _ _) => [l1|] //; rewrite bind_Ok.
have [e [-> [ez eg et el] [g1 g2 g3] [g4 g5 g6]]] := init_wellE eq_w.
move=> /IHzs[es [-> eq_zs ev [v1 v2 v3] [v4 v5 v6]]].
exists (e :: es); split.
- by rewrite cat_rcons.
- by rewrite /= ez eq_zs.
- by [].
- by rewrite /= v1 v2 v3 (take_drop_getitem _ g1) (take_drop_getitem _ g2)
       (take_drop_getitem _ g3).
- by rewrite /= v4 v5 v6 (take_drop_getitem _ g4) (take_drop_getitem _ g5)
       (take_drop_getitem _ g6).
Qed.

(** The loop over the blocks. *)
Lemma init_loopE (phc : phc_t) (gme : gme_t) (gmax : G) (truncate_g : T)
  (qws : seq (qw.t Z P)) (l l' : seq exc_t) :
  for_loop (fun exc_list qw =>
      for_loop (init_well gme_z_to_lind phc gme gmax truncate_g qw) exc_list
        (enumerate (qw.z qw))) l qws = Ok l' ->
  exists es,
    [/\ l' = l ++ es,
        [seq ExcitonSchroedEq.z e | e <- es] = flatten [seq qw.z qw | qw <- qws],
        every (fun e => [/\ ExcitonSchroedEq.gmax e = gmax,
                            ExcitonSchroedEq.truncate_g e = truncate_g
                          & layer_found phc gme e]) es,
        [/\ [seq ExcitonSchroedEq.Vmax e | e <- es]
            = flatten [seq take (size (qw.z qw)) (qw.Vmax qw) | qw <- qws],
            [seq ExcitonSchroedEq.a e | e <- es]
            = flatten [seq take (size (qw.z qw)) (qw.a qw) | qw <- qws]
          & [seq ExcitonSchroedEq.M e | e <- es]
            = flatten [seq take (size (qw.z qw)) (qw.M qw) | qw <- qws]]
      & [/\ [seq ExcitonSchroedEq.E0 e | e <- es]
            = flatten [seq take (size (qw.z qw)) (qw.E0 qw) | qw <- qws],
            [seq ExcitonSchroedEq.loss e | e <- es]
            = flatten [seq take (size (qw.z qw)) (qw.loss qw) | qw <- qws]
          & [seq ExcitonSchroedEq.osc_str e | e <- es]
            = flatten [seq take (size (qw.z qw)) (qw.osc_str qw)
                      | qw <- qws]]].
Proof.
elim: qws l => [|qw qws IHqws] l.
  by case=> <-; exists [::]; rewrite cats0.
rewrite for_loop_cons /enumerate.
case eq_b: (for_loop _ _ _) => [l1|] //; rewrite bind_Ok.
have [es1 [-> eq_zs ev [v1 v2 v3] [v4 v5 v6]]] := init_blockE eq_b.
move=> /IHqws[es [-> eq_zs' ev' [w1 w2 w3] [w4 w5 w6]]].
exists (es1 ++ es); split.
- by rewrite catA.
- by rewrite map_cat eq_zs eq_zs'.
- exact/every_cat.
- by rewrite !map_cat v1 v2 v3 w1 w2 w3 !drop0.
- by rewrite !map_cat v4 v5 v6 w4 w5 w6 !drop0.
Qed.

Lemma for_loop_raises S V (body : S -> V -> result S) (st : S) (s : seq V)
  (e : exn) :
  (forall st x e, body st x = Raise e -> e = IndexError) ->
  for_loop body st s = Raise e -> e = IndexError.
Proof.
move=> body_raises; elim: s st => [|x s IHs] st //=.
by case eq_b: (body st x) => [st'|e'] /=; [exact: IHs | case=> <-; eauto].
Qed.

(** X11.  When the constructor returns, the list of excitonic solvers
    holds one solver per quantum well, block after block, in the order
    of the positions [z]: the solvers' positions are the wells'
    positions, each solver has the parameters its block lists at the
    index of its well, and all of them share [gmax] and [truncate_g]
    with the guided-mode expansion. *)
Theorem init_wells (phc : phc_t) (gmax : G) (truncate_g : T)
  (self : hopfield_pol L Z P G T) :
  init gme_z_to_lind phc gmax truncate_g = Ok self ->
  let excs := exc_list_of self in
  [/\ gme_of self = GuidedModeExp.Make phc gmax truncate_g,
      [seq ExcitonSchroedEq.z e | e <- excs] = well_positions phc
      /\ size excs = sumn [seq size (qw.z qw) | qw <- PhotCryst.qws phc],
      every (fun e => ExcitonSchroedEq.gmax e = gmax
                      /\ ExcitonSchroedEq.truncate_g e = truncate_g) excs,
      [/\ [seq ExcitonSchroedEq.Vmax e | e <- excs] = well_params (@qw.Vmax _ _) phc,
          [seq ExcitonSchroedEq.a e | e <- excs] = well_params (@qw.a _ _) phc
        & [seq ExcitonSchroedEq.M e | e <- excs] = well_params (@qw.M _ _) phc]
    & [/\ [seq ExcitonSchroedEq.E0 e | e <- excs] = well_params (@qw.E0 _ _) phc,
          [seq ExcitonSchroedEq.loss e | e <- excs] = well_params (@qw.loss _ _) phc
        & [seq ExcitonSchroedEq.osc_str e | e <- excs]
          = well_params (@qw.osc_str _ _) phc]].
Proof.
rewrite /init; case eq_l: (for_loop _ _ _) => [l'|] //; rewrite bind_Ok.
have [es [-> eq_zs ev ? ?]] := init_loopE eq_l; case=> <- /=.
split=> //; last by apply: every_impl ev => e [].
split=> //; rewrite -(size_map (@ExcitonSchroedEq.z L Z P G T)) eq_zs.
by rewrite size_flatten /shape -map_comp.
Qed.

(** X12.  When the constructor returns, every excitonic solver was
    given the layer before the index [li] that the layer lookup returns
    for its position, and [li] is at most the number of layers; for
    [li = 0], a well in the lower cladding, the index [li - 1 = -1]
    wraps around and the solver is given the last layer of the stack. *)
Theorem init_layer_of_well (phc : phc_t) (gmax : G) (truncate_g : T)
  (self : hopfield_pol L Z P G T) (l0 : L) :
  init gme_z_to_lind phc gmax truncate_g = Ok self ->
  every (fun e =>
    exists li,
      [/\ gme_z_to_lind (gme_of self) (ExcitonSchroedEq.z e) = Ok li,
          (0 < size (PhotCryst.layers phc))%N,
          (li <= size (PhotCryst.layers phc))%N
        & ExcitonSchroedEq.layer e
          = if li is li'.+1 then nth l0 (PhotCryst.layers phc) li'
            else last l0 (PhotCryst.layers phc)])
    (exc_list_of self).
Proof.
rewrite /init; case eq_l: (for_loop _ _ _) => [l'|] //; rewrite bind_Ok.
have [es [-> _ ev _ _]] := init_loopE eq_l; case=> <- /=.
apply: every_impl ev => e [_ _ [li eq_li /(getitem_int_pred l0)[gt0 le_li ->]]].
by exists li.
Qed.

(** X13.  When the layer lookup returns for every position, the
    constructor raises IndexError as soon as the lookup sends one well
    past the last layer (a well in the upper cladding, of index
    [len(layers) + 1]), or when there is no layer at all. *)
Theorem init_raises (phc : phc_t) (gmax : G) (truncate_g : T) (z : Z)
  (li : nat) :
  let gme := GuidedModeExp.Make phc gmax truncate_g in
  (forall z', exists li', gme_z_to_lind gme z' = Ok li') ->
  z \in well_positions phc ->
  gme_z_to_lind gme z = Ok li ->
  (size (PhotCryst.layers phc) < li)%N \/ PhotCryst.layers phc = [::] ->
  init gme_z_to_lind phc gmax truncate_g = Raise IndexError.
Proof.
move=> gme total z_in eq_li out.
rewrite /init; case eq_l: (for_loop _ _ _) => [l'|e]; last first.
  rewrite bind_Raise; congr Raise.
  apply: for_loop_raises eq_l => st qw e' eq_in.
  by apply: for_loop_raises eq_in => st' it e''; apply: init_well_raises.
have [es [_ eq_zs ev _ _]] := init_loopE eq_l.
have [e' eq_z [_ _ [li']]] : exists2 e, ExcitonSchroedEq.z e = z
    & [/\ ExcitonSchroedEq.gmax e = gmax,
          ExcitonSchroedEq.truncate_g e = truncate_g
        & layer_found phc gme e].
  move: z_in; rewrite /well_positions -eq_zs.
  elim: es ev {eq_zs eq_l} => [|e es IHes] //= [Qe /IHes{}IHes].
  by rewrite in_cons => /predU1P[->|/IHes//]; exists e.
rewrite eq_z eq_li => -[<-] /(getitem_int_pred (ExcitonSchroedEq.layer e')).
case=> gt0 le_li _.
by case: out => [|eq_nil]; [rewrite ltnNge le_li | rewrite eq_nil in gt0].
Qed.

End ConstructorFacts.

(** ** The reciprocal lattice *)

Section ReciprocalFacts.

Variable R : rcfType.
Variable pi : R.

Import Lattice.

Lemma at_array3 (x y z : R) (i : nat) :
  (i < 3)%N -> at_ (array3 x y z) i = nth 0 [:: x; y; z] i.
Proof. by move=> lt_i; rewrite /at_ insubT mxE. Qed.

Lemma at_array2 (x y : R) (i : nat) :
  (i < 2)%N -> at_ (array2 x y) i = nth 0 [:: x; y] i.
Proof. by move=> lt_i; rewrite /at_ insubT mxE. Qed.

Lemma at_ord n (v : 'rV[R]_n) (i : 'I_n) : v 0 i = at_ v i.
Proof. by rewrite /at_ insubT // => lt_i; congr (v _ _); apply: val_inj. Qed.

Lemma dot3 (u v : 'rV[R]_3) :
  dot u v = at_ u 0 * at_ v 0 + at_ u 1 * at_ v 1 + at_ u 2 * at_ v 2.
Proof.
by rewrite /dot !big_ord_recl big_ord0 addr0 !at_ord /= addrA.
Qed.

Lemma dot2 (u v : 'rV[R]_2) :
  dot u v = at_ u 0 * at_ v 0 + at_ u 1 * at_ v 1.
Proof. by rewrite /dot !big_ord_recl big_ord0 addr0 !at_ord. Qed.

Lemma norm3 (u : 'rV[R]_3) :
  norm u = Num.sqrt (at_ u 0 ^+ 2 + at_ u 1 ^+ 2 + at_ u 2 ^+ 2).
Proof.
rewrite /norm !big_ord_recl big_ord0 addr0 !at_ord /= addrA.
by rewrite !real_normK ?num_real.
Qed.

Lemma at_map n (f : R -> R) (v : 'rV[R]_n) (i : nat) :
  (i < n)%N -> at_ (map_mx f v) i = f (at_ v i).
Proof. by move=> lt_i; rewrite /at_ insubT mxE. Qed.

(** The constructor on two vectors of the plane. *)
Lemma init_planar (ty : lattice_type) (x1 y1 x2 y2 : R) (args : args_t R) :
  parse_input args = Ok (ty, array3 x1 y1 0, array3 x2 y2 0) ->
  let d := x1 * y2 - y1 * x2 in
  init pi args
  = Ok (Make ty (array2 x1 y1) (array2 x2 y2)
          (array2 (2 * pi * y2 / d) (2 * pi * (- x2) / d))
          (array2 (2 * pi * (- y1) / d) (2 * pi * x1 / d))
          `|d|
          `|(2 * pi * y2 / d) * (2 * pi * x1 / d)
            - (2 * pi * (- x2) / d) * (2 * pi * (- y1) / d)|).
Proof.
move=> eq_parse d; rewrite /init eq_parse bind_Ok.
have eq_d1 : dot (array3 x1 y1 0) (cross (array3 x2 y2 0) (array3 0 0 1)) = d.
  by rewrite dot3 /cross !at_array3 //= /d; ring.
have eq_d2 : dot (array3 x2 y2 0) (cross (array3 0 0 1) (array3 x1 y1 0)) = d.
  by rewrite dot3 /cross !at_array3 //= /d; ring.
rewrite eq_d1 eq_d2; congr Ok.
rewrite /slice02 !at_map // !norm3 /cross !at_array3 //= !at_map //.
rewrite !at_array3 //=.
have sqrt_sq (a b c c' : R) :
    a = 0 -> b = 0 -> c = c' -> Num.sqrt (a ^+ 2 + b ^+ 2 + c ^+ 2) = `|c'|.
  by move=> -> -> ->; rewrite expr0n /= !add0r sqrtr_sqr.
congr (Make _ _ _ (array2 _ _) (array2 _ _) _ _).
- by ring.
- by ring.
- by ring.
- by ring.
- by apply: sqrt_sq; rewrite /d; ring.
- by apply: sqrt_sq; ring.
Qed.

Lemma parse_input_planar (args : args_t R) (ty : lattice_type)
  (u v : 'rV[R]_3) :
  parse_input args = Ok (ty, u, v) ->
  exists x1 y1 x2 y2, u = array3 x1 y1 0 /\ v = array3 x2 y2 0.
Proof.
case: args => [|s|v1 v2|] //=.
  case: String.eqb; first by case=> _ <- <-; exists 1, 0, 0, 1.
  case: String.eqb => //; case=> _ <- <-.
  by exists (2^-1), (Num.sqrt 3 / 2), (2^-1), (- Num.sqrt 3 / 2).
by case=> _ <- <-; exists (at_ v1 0), (at_ v1 1), (at_ v2 0), (at_ v2 1).
Qed.

(** What the constructor returns, in the coordinates of the two lattice
    vectors it stores. *)
Lemma initE (args : args_t R) (lat : Lattice.t R) :
  init pi args = Ok lat ->
  let x1 := at_ (a1 lat) 0 in let y1 := at_ (a1 lat) 1 in
  let x2 := at_ (a2 lat) 0 in let y2 := at_ (a2 lat) 1 in
  let d := det2 (a1 lat) (a2 lat) in
  [/\ b1 lat = array2 (2 * pi * y2 / d) (2 * pi * (- x2) / d),
      b2 lat = array2 (2 * pi * (- y1) / d) (2 * pi * x1 / d),
      ec_area lat = `|d|
    & bz_area lat = `|(2 * pi * y2 / d) * (2 * pi * x1 / d)
                      - (2 * pi * (- x2) / d) * (2 * pi * (- y1) / d)|].
Proof.
case eq_parse: (parse_input args) => [[[ty u] v]|]; last first.
  by rewrite /init eq_parse.
have [x1 [y1 [x2 [y2 [eq_u eq_v]]]]] := parse_input_planar eq_parse.
move: eq_parse; rewrite eq_u eq_v => /init_planar /= -> [<-] /=.
by rewrite /det2 !at_array2.
Qed.

(** X14.  For two lattice vectors that are not collinear, the vectors
    [b1], [b2] the constructor computes are the reciprocal basis of
    [a1], [a2]: [a1 . b1 = a2 . b2 = 2 pi] and [a1 . b2 = a2 . b1 = 0]. *)
Theorem reciprocal_basis (args : args_t R) (lat : Lattice.t R) :
  init pi args = Ok lat ->
  det2 (a1 lat) (a2 lat) != 0 ->
  [/\ dot (a1 lat) (b1 lat) = 2 * pi, dot (a1 lat) (b2 lat) = 0,
      dot (a2 lat) (b1 lat) = 0 & dot (a2 lat) (b2 lat) = 2 * pi].
Proof.
move=> /initE /= [-> -> _ _]; rewrite /det2.
set x1 := at_ (a1 lat) 0; set y1 := at_ (a1 lat) 1.
set x2 := at_ (a2 lat) 0; set y2 := at_ (a2 lat) 1.
move=> ne0; rewrite !dot2 !at_array2 //= -/x1 -/y1 -/x2 -/y2.
by split; field.
Qed.

(** X15.  The area of the elementary cell is the absolute value of the
    determinant of the two lattice vectors, and for vectors that are not
    collinear the areas of the elementary cell and of the Brillouin zone
    multiply to [(2 pi)^2]. *)
Theorem cell_areas (args : args_t R) (lat : Lattice.t R) :
  init pi args = Ok lat ->
  ec_area lat = `|det2 (a1 lat) (a2 lat)| /\
  (det2 (a1 lat) (a2 lat) != 0 ->
   ec_area lat * bz_area lat = (2 * pi) ^+ 2).
Proof.
move=> /initE /= [_ _ -> ->]; split=> // ne0.
rewrite -normrM -[RHS]ger0_norm ?sqr_ge0 //; congr (`| _ |).
move: ne0; rewrite /det2.
set x1 := at_ (a1 lat) 0; set y1 := at_ (a1 lat) 1.
set x2 := at_ (a2 lat) 0; set y2 := at_ (a2 lat) 1.
by move=> ne0; field.
Qed.

End ReciprocalFacts.

(** ** The named points of the Brillouin zone *)

Section NamedPoints.

Variable R : rcfType.
Variable pi : R.

Import Lattice.

Lemma array2_eq (x y x' y' : R) : x = x' -> y = y' -> array2 x y = array2 x' y'.
Proof. by move=> -> ->. Qed.

Lemma scale_array2 (c x y : R) : c *: array2 x y = array2 (c * x) (c * y).
Proof. by apply/rowP => i; rewrite !mxE; case: i => [[|[|i]]]. Qed.

Lemma add_array2 (x y x' y' : R) :
  array2 x y + array2 x' y' = array2 (x + x') (y + y').
Proof. by apply/rowP => i; rewrite !mxE; case: i => [[|[|i]]]. Qed.

Lemma init_square :
  init pi (Args1 R "square"%string)
  = Ok (Make square (array2 1 0) (array2 0 1)
          (array2 (2 * pi) 0) (array2 0 (2 * pi)) 1 ((2 * pi) ^+ 2)).
Proof.
have /init_planar -> /= :
    parse_input (Args1 R "square"%string) = Ok (square, array3 1 0 0, array3 0 1 0).
  by [].
congr (Ok (Make _ _ _ (array2 _ _) (array2 _ _) _ _)); try by field.
  by rewrite (_ : 1 * 1 - 0 * 0 = 1 :> R) ?normr1 //; ring.
rewrite -[RHS]ger0_norm ?sqr_ge0 //; congr (`| _ |).
by field.
Qed.

Lemma sqrt3_neq0 : Num.sqrt (3 : R) != 0.
Proof. by rewrite sqrtr_eq0 -ltNge ltr0n. Qed.

Lemma sqrt3_side : - Num.sqrt (3 : R) - Num.sqrt 3 != 0.
Proof. by rewrite -opprD oppr_eq0 -mulr2n mulrn_eq0 /= sqrt3_neq0. Qed.

Ltac sqrt3_field := field?; rewrite ?sqrt3_side ?sqrt3_neq0 //.

Lemma init_hexagonal :
  exists ec bz,
    init pi (Args1 R "hexagonal"%string)
    = Ok (Make hexagonal
            (array2 (2^-1) (Num.sqrt 3 / 2)) (array2 (2^-1) (- Num.sqrt 3 / 2))
            (array2 (2 * pi) (2 * pi / Num.sqrt 3))
            (array2 (2 * pi) (- (2 * pi / Num.sqrt 3))) ec bz).
Proof.
have /init_planar -> /= :
    parse_input (Args1 R "hexagonal"%string)
    = Ok (hexagonal, array3 (2^-1) (Num.sqrt 3 / 2) 0,
                     array3 (2^-1) (- Num.sqrt 3 / 2) 0).
  by [].
do 2!eexists; congr (Ok (Make _ _ _ (array2 _ _) (array2 _ _) _ _)).
- by sqrt3_field.
- by sqrt3_field.
- by sqrt3_field.
- by sqrt3_field.
Qed.

(** X16.  The named points are the high-symmetry points of the
    reciprocal lattice the constructor computes: on the square lattice
    [X] is [b1 / 2] and [M] is [(b1 + b2) / 2]; on the hexagonal lattice
    [M] is [b1 / 2] and [K] is [(b1 + b2) / 3]; on every lattice [G] and
    [Gamma] are the origin.  The names are read without regard to
    case. *)
Theorem high_symmetry_points :
  exists sq hex,
    [/\ init pi (Args1 R "square"%string) = Ok sq,
        init pi (Args1 R "hexagonal"%string) = Ok hex,
        (forall s, lower s = "x"%string ->
           parse_point pi sq (PtStr R s) = Ok (2^-1 *: b1 sq))
        /\ (forall s, lower s = "m"%string ->
              parse_point pi sq (PtStr R s) = Ok (2^-1 *: (b1 sq + b2 sq))),
        (forall s, lower s = "m"%string ->
           parse_point pi hex (PtStr R s) = Ok (2^-1 *: b1 hex))
        /\ (forall s, lower s = "k"%string ->
              parse_point pi hex (PtStr R s) = Ok (3^-1 *: (b1 hex + b2 hex)))
      & forall lat s, lower s = "g"%string \/ lower s = "gamma"%string ->
          parse_point pi lat (PtStr R s) = Ok 0].
Proof.
have [ec [bz eq_hex]] := init_hexagonal.
eexists; eexists; split; [exact: init_square | exact: eq_hex | | |].
- split=> s eq_s; rewrite /parse_point eq_s /=; congr Ok.
    by rewrite scale_array2; apply: array2_eq; field.
  by rewrite add_array2 scale_array2; apply: array2_eq; field.
- split=> s eq_s; rewrite /parse_point eq_s /=; congr Ok.
    rewrite scale_array2; apply: array2_eq; first by field.
    by sqrt3_field.
  rewrite add_array2 scale_array2; apply: array2_eq; first by field.
  by rewrite subrr mulr0.
- move=> lat s eq_s; rewrite /parse_point.
  have -> /= : String.eqb (lower s) "g"%string || String.eqb (lower s) "gamma"%string.
    by case: eq_s => ->.
  by congr Ok; apply/rowP => i; rewrite !mxE; case: i => [[|[|i]]].
Qed.

End NamedPoints.

(** ** The grid of the elementary cell *)

Section GridFacts.

Variable R : rcfType.

Import Lattice.

Lemma nth_linspace (a b : R) (n i : nat) :
  (i < n)%N ->
  nth 0 (linspace a b n) i = a + i%:R * ((b - a) / (n.-1)%:R).
Proof.
by move=> lt_i; rewrite /linspace (nth_map 0%N) ?size_iota // nth_iota.
Qed.

Lemma size_linspace (a b : R) (n : nat) : size (linspace a b n) = n.
Proof. by rewrite /linspace size_map size_iota. Qed.

(** The samples between [- m] and [m]: symmetric about 0, from [- m] to
    [m]. *)
Lemma linspace_symmetric (m : R) (n i : nat) :
  (1 < n)%N -> (i < n)%N ->
  [/\ nth 0 (linspace (- m) m n) (n.-1 - i) = - nth 0 (linspace (- m) m n) i,
      nth 0 (linspace (- m) m n) 0 = - m
    & last 0 (linspace (- m) m n) = m].
Proof.
case: n => [|[|n]] // _ lt_i.
have lt_i' : (n.+1 - i < n.+2)%N by rewrite ltnS leq_subr.
have le_i : (i <= n.+1)%N by rewrite -ltnS.
rewrite -nth_last size_linspace [n.+2.-1]/=.
rewrite (nth_linspace _ _ lt_i') (nth_linspace _ _ lt_i).
rewrite (nth_linspace _ _ (ltn0Sn _)) (nth_linspace _ _ (ltnSn _)).
rewrite [n.+2.-1]/= natrB //.
have : (n.+1%:R : R) != 0 by rewrite pnatr_eq0.
move: (n.+1%:R : R) (i%:R : R) => N I ne0.
by split; field.
Qed.

(** X17.  For at least two samples per axis, the grid [xy_grid] returns
    has [Nx] and [Ny] samples, runs from [- xmax] to [xmax] and from
    [- ymax] to [ymax], and is symmetric about the origin, where [xmax]
    and [ymax] are the absolute values of the larger first and the
    larger second coordinate of the two lattice vectors. *)
Theorem xy_grid_symmetric (self : Lattice.t R) (Nx Ny : nat) :
  (1 < Nx)%N -> (1 < Ny)%N ->
  let xs := (xy_grid self Nx Ny).1 in
  let ys := (xy_grid self Nx Ny).2 in
  let xmax := `|max2 (at_ (a1 self) 0) (at_ (a2 self) 0)| in
  let ymax := `|max2 (at_ (a1 self) 1) (at_ (a2 self) 1)| in
  [/\ size xs = Nx /\ size ys = Ny,
      nth 0 xs 0 = - xmax /\ last 0 xs = xmax,
      nth 0 ys 0 = - ymax /\ last 0 ys = ymax,
      forall i, (i < Nx)%N -> nth 0 xs (Nx.-1 - i) = - nth 0 xs i
    & forall j, (j < Ny)%N -> nth 0 ys (Ny.-1 - j) = - nth 0 ys j].
Proof.
move=> gt1x gt1y /=; rewrite !size_linspace.
have [_ x0 xl] := linspace_symmetric
  `|max2 (at_ (a1 self) 0) (at_ (a2 self) 0)| gt1x (ltnW gt1x).
have [_ y0 yl] := linspace_symmetric
  `|max2 (at_ (a1 self) 1) (at_ (a2 self) 1)| gt1y (ltnW gt1y).
split=> // [i lt_i|j lt_j].
  by have [] := linspace_symmetric
    `|max2 (at_ (a1 self) 0) (at_ (a2 self) 0)| gt1x lt_i.
by have [] := linspace_symmetric
  `|max2 (at_ (a1 self) 1) (at_ (a2 self) 1)| gt1y lt_j.
Qed.

End GridFacts.

(** ** Paths in the Brillouin zone *)

Section LoopFacts.

Lemma for_loop_rcons S U (body : S -> U -> result S) (st : S) (s : seq U)
  (x : U) :
  for_loop body st (rcons s x) = (st' <- for_loop body st s ;; body st' x).
Proof.
elim: s st => [|y s IHs] st /=; first by case: (body st x).
by case: (body st y).
Qed.

Lemma iota_rcons (m : nat) : iota 0 m.+1 = rcons (iota 0 m) m.
Proof. by rewrite -addn1 iotaD add0n cats1. Qed.

Lemma sumn_take_le (s : seq nat) (m : nat) : (sumn (take m s) <= sumn s)%N.
Proof. by rewrite -[in leqRHS](cat_take_drop m s) sumn_cat leq_addr. Qed.

Lemma sumn_takeS (s : seq nat) (m : nat) :
  (m < size s)%N -> sumn (take m.+1 s) = (sumn (take m s) + nth 0 s m)%N.
Proof. by move=> lt_m; rewrite (take_nth 0%N) // sumn_rcons. Qed.

End LoopFacts.

Section PathFacts.

Variable R : rcfType.
Variable pi : R.
Variable array_str : 'rV[R]_2 -> String.string.

Import Lattice.

Lemma parse_point_raises (lat : Lattice.t R) (pt : point R) (e : exn) :
  parse_point pi lat pt = Raise e -> e = ValueError.
Proof.
case: pt => [v|s|s] //=; last by case.
by do ![case: ifP => _ //]; case: (type lat) => //; case.
Qed.

Lemma size_segment (p q : 'rV[R]_2) (n : nat) : size (segment p q n) = n.
Proof. by rewrite /segment /linspace_open !size_map size_iota. Qed.

Lemma nth_segment (p q : 'rV[R]_2) (n j : nat) :
  (j < n)%N -> nth 0 (segment p q n) j = p + (j%:R / n%:R) *: (q - p).
Proof.
move=> lt_j; rewrite /segment /linspace_open.
rewrite (nth_map 0) ?size_map ?size_iota // (nth_map 0%N) ?size_iota //.
by rewrite nth_iota // add0n add0r subr0 mul1r.
Qed.

Section Loop.

Variables (lat : Lattice.t R) (pts : seq (point R)) (ns' : seq nat).
Hypothesis sz_ns : size ns' = (size pts - 1)%N.

(** The points as [_parse_point] reads them. *)
Let parsed (i : nat) : result 'rV[R]_2 :=
  parse_point pi lat (nth (PtOther R "") pts i).

Let pv (i : nat) : 'rV[R]_2 := if parsed i is Ok v then v else 0.

Let okpt (i : nat) : bool := if parsed i is Ok _ then true else false.

(** The columns written by the first [m] iterations, and how many. *)
Let segs (m : nat) : seq 'rV[R]_2 :=
  flatten [seq segment (pv i) (pv i.+1) (nth 0%N ns' i) | i <- iota 0 m].

Let cnt (m : nat) : nat := sumn (take m ns').

(** The state of the loop after [m] iterations. *)
Let state (m : nat) : bz_state R :=
  (segs m ++ nseq (sumn ns' + 1 - cnt m) 0,
   [seq cnt i | i <- iota 0 m.+1],
   cnt m,
   if m is m'.+1 then Some (pv m) else None).

Lemma segsS (m : nat) :
  segs m.+1 = segs m ++ segment (pv m) (pv m.+1) (nth 0%N ns' m).
Proof. by rewrite /segs iota_rcons map_rcons flatten_rcons. Qed.

Lemma size_segs (m : nat) : (m <= size ns')%N -> size (segs m) = cnt m.
Proof.
elim: m => [|m IHm] lt_m; first by rewrite /cnt take0.
by rewrite segsS size_cat size_segment (IHm (ltnW lt_m)) /cnt sumn_takeS.
Qed.

Lemma bz_bodyE (m : nat) :
  (m < size ns')%N -> ((0 < m)%N -> okpt m) ->
  bz_body pi lat pts ns' (state m) m
  = if okpt m && okpt m.+1 then Ok (state m.+1) else Raise ValueError.
Proof.
move=> lt_m ok_m; rewrite /bz_body /state.
have lt_m1 : (m.+1 < size pts)%N by move: lt_m; rewrite sz_ns subn1 ltn_predRL.
rewrite (getitem_nth (PtOther R "") (ltnW lt_m1)) bind_Ok.
rewrite (getitem_nth (PtOther R "") lt_m1).
rewrite /okpt /pv /parsed.
case eq_p1: (parse_point _ _ _) => [p1|e1] /=; last first.
  by rewrite (parse_point_raises eq_p1).
case eq_p2: (parse_point _ _ _) => [p2|e2] /=; last first.
  by rewrite (parse_point_raises eq_p2).
rewrite (getitem_nth 0%N lt_m) bind_Ok.
have sz_m := size_segs (ltnW lt_m).
have le_cnt : (cnt m + nth 0%N ns' m <= sumn ns')%N.
  by rewrite -sumn_takeS // sumn_take_le.
have -> : setslice (segs m ++ nseq (sumn ns' + 1 - cnt m) 0) (cnt m)
            (cnt m + nth 0%N ns' m)
            [seq p1 + t *: (p2 - p1) | t <- linspace_open 0 1 (nth 0%N ns' m)]
          = Ok (segs m.+1 ++ nseq (sumn ns' + 1 - cnt m.+1) 0).
  rewrite /setslice size_cat size_nseq sz_m -/(segment p1 p2 _) size_segment.
  have le_c : (cnt m <= sumn ns' + 1)%N.
    by rewrite (leq_trans (sumn_take_le _ _)) // leq_addr.
  have le_c1 : (cnt m + nth 0%N ns' m <= sumn ns' + 1)%N.
    exact: leq_trans le_cnt (leq_addr _ _).
  rewrite (subnKC le_c) (minn_idPl le_c1).
  rewrite addKn eqxx take_size_cat // drop_cat sz_m ltnNge leq_addr /=.
  rewrite addKn drop_nseq segsS -catA /pv /parsed eq_p1 eq_p2.
  by rewrite [cnt m.+1]sumn_takeS // subnDA.
rewrite bind_Ok [cnt m.+1]sumn_takeS //; congr (Ok (_, _, _, _)).
rewrite -[LHS]/(rcons [seq cnt i | i <- iota 0 m.+1] _).
rewrite -[RHS]/([seq cnt i | i <- iota 0 m.+2]) [iota 0 m.+2]iota_rcons.
by rewrite map_rcons [cnt m.+1]sumn_takeS.
Qed.

Lemma state0 : state 0 = (nseq (sumn ns' + 1) 0, [:: 0%N], 0%N, None).
Proof. by rewrite /state /segs /cnt /= !take0 /= subn0. Qed.

Lemma bz_loopE (m : nat) :
  (m <= size ns')%N ->
  for_loop (bz_body pi lat pts ns')
    (nseq (sumn ns' + 1) 0, [:: 0%N], 0%N, None) (iota 0 m)
  = if all okpt (iota 0 (if m is 0 then 0 else m.+1)) then Ok (state m)
    else Raise ValueError.
Proof.
rewrite -state0; elim: m => [//|m IHm] lt_m.
rewrite iota_rcons for_loop_rcons (IHm (ltnW lt_m)).
case: m lt_m {IHm} => [|m] lt_m.
  by rewrite bind_Ok bz_bodyE //= andbT.
rewrite [iota 0 m.+3]iota_rcons all_rcons andbC.
case all_ok: (all okpt (iota 0 m.+2)); last by [].
have ok_m : okpt m.+1.
  by move: all_ok; rewrite iota_rcons all_rcons => /andP[].
by rewrite bind_Ok bz_bodyE // ok_m.
Qed.

Lemma bz_loop_pos (m : nat) :
  (0 < m)%N -> (m <= size ns')%N ->
  for_loop (bz_body pi lat pts ns')
    (nseq (sumn ns' + 1) 0, [:: 0%N], 0%N, None) (iota 0 m)
  = if all okpt (iota 0 m.+1) then Ok (state m) else Raise ValueError.
Proof. by case: m => // m _ /bz_loopE. Qed.

(** After the loop: the last column receives the last point. *)
Lemma bz_finishE (labels : seq String.string) (m : nat) :
  (0 < m)%N -> m = size ns' ->
  (let: (kpoints, inds, count, p2) := state m in
   p2 <- (if p2 is Some p2 then Ok p2 else Raise NameError) ;;
   kpoints <- setitem kpoints (size kpoints).-1 p2 ;;
   Ok (Path kpoints labels inds))
  = Ok (Path (segs m ++ [:: pv m]) labels [seq cnt i | i <- iota 0 m.+1]).
Proof.
case: m => // m _ eq_m; rewrite /state bind_Ok.
have sz_m : size (segs m.+1) = cnt m.+1 by rewrite size_segs // eq_m.
have -> : cnt m.+1 = sumn ns' by rewrite /cnt eq_m take_size.
rewrite addKn /setitem size_cat /= addn1 /= ltnSn bind_Ok.
by rewrite take_size_cat // drop_oversize // size_cat /= addn1.
Qed.

End Loop.

(** [ns] as the loop reads it: one count for every segment. *)
Let counts (pts : seq (point R)) (ns : seq nat) : seq nat :=
  if size ns == 1%N then nseq (size pts - 1) (nth 0%N ns 0) else ns.

(** What [bz_path] does, in closed form. *)
Lemma bz_pathE (lat : Lattice.t R) (pts : seq (point R)) (ns : seq nat) :
  let p i :=
    if parse_point pi lat (nth (PtOther R "") pts i) is Ok v then v else 0 in
  let ns' := counts pts ns in
  bz_path pi array_str lat pts ns
  = if [&& (1 < size pts)%N,
           (size ns == 1%N) || (size ns == (size pts - 1)%N)
         & all (fun pt => if parse_point pi lat pt is Ok _ then true
                          else false) pts]
    then
      Ok (Path
            (flatten [seq segment (p i) (p i.+1) (nth 0%N ns' i)
                     | i <- iota 0 (size pts - 1)]
             ++ [:: p (size pts - 1)%N])
            [seq str array_str pt | pt <- pts]
            [seq sumn (take i ns') | i <- iota 0 (size pts)])
    else Raise ValueError.
Proof.
move=> p ns'; rewrite /bz_path ltnNge.
case: (ltnP 1 (size pts)) => [gt1|//] /=.
have sz_ns : (size ns == 1%N) || (size ns == (size pts - 1)%N) ->
             size ns' = (size pts - 1)%N.
  by rewrite /ns' /counts; case: eqP => [_ _|_ /= /eqP//]; rewrite size_nseq.
have -> : (if size ns == 1%N then n0 <- getitem ns 0 ;; Ok (nseq (size pts - 1) n0)
           else if size ns == (size pts - 1)%N then Ok ns
           else Raise ValueError)
          = if (size ns == 1%N) || (size ns == (size pts - 1)%N) then Ok ns'
            else Raise ValueError.
  rewrite /ns' /counts; case: eqP => [sz1|_] //=.
  by rewrite (getitem_nth 0%N) ?sz1.
case: ifP => [/sz_ns{}sz_ns|//]; rewrite bind_Ok.
have gt0 : (0 < size pts - 1)%N by rewrite subn_gt0.
have le_m : (size pts - 1 <= size ns')%N by rewrite sz_ns.
rewrite (@bz_loop_pos lat pts ns' sz_ns _ gt0 le_m).
have eq_npts : (size pts - 1).+1 = size pts by rewrite subn1 prednK // ltnW.
rewrite eq_npts.
have -> : all (fun pt => if parse_point pi lat pt is Ok _ then true else false)
            pts
          = all (fun i => if parse_point pi lat (nth (PtOther R "") pts i)
                          is Ok _ then true else false) (iota 0 (size pts)).
  rewrite -[in LHS](take_size pts) -(map_nth_iota0 (PtOther R "")) //.
  by rewrite all_map.
case: ifP => // _; rewrite bind_Ok.
have := @bz_finishE lat pts ns' [seq str array_str pt | pt <- pts] _ gt0
          (esym sz_ns).
by rewrite eq_npts.
Qed.

End PathFacts.

(** ** What [bz_path] returns *)

Section PathTheorems.

Variable R : rcfType.
Variable pi : R.
Variable array_str : 'rV[R]_2 -> String.string.

Import Lattice.

(** The element [j] of block [i] of a concatenation. *)
Lemma nth_flatten_block T (x0 : T) (ss : seq (seq T)) (i j : nat) :
  (j < size (nth [::] ss i))%N ->
  nth x0 (flatten ss) (sumn (take i (shape ss)) + j)
  = nth x0 (nth [::] ss i) j.
Proof.
elim: ss i => [|s ss IHss] [|i] //=.
  by rewrite add0n nth_cat => ->.
by move=> lt_j; rewrite nth_cat -addnA ltnNge leq_addr /= addKn IHss.
Qed.

(** All the points of [pts] are read, as the list [ps]. *)
Lemma parsed_points (lat : Lattice.t R) (pts : seq (point R))
  (ps : seq 'rV[R]_2) :
  [seq parse_point pi lat pt | pt <- pts] = [seq Ok p | p <- ps] ->
  [/\ size ps = size pts,
      all (fun pt => if parse_point pi lat pt is Ok _ then true else false) pts
    & forall i, (i < size pts)%N ->
        parse_point pi lat (nth (PtOther R "") pts i) = Ok (nth 0 ps i)].
Proof.
move=> eq_ps.
have sz_ps : size ps = size pts.
  by rewrite -(size_map (@Ok _) ps) -eq_ps size_map.
split=> // [|i lt_i].
  rewrite -(all_map (parse_point pi lat)
              (fun r => if r is Ok _ then true else false)) eq_ps all_map.
  by elim: (ps).
have := congr1 (fun s => nth (Raise ValueError) s i) eq_ps.
by rewrite (nth_map (PtOther R "")) // (nth_map 0) // sz_ps.
Qed.

(** The columns [bz_path] writes for the points [ps] and the counts
    [ns']. *)
Let columns (ps : seq 'rV[R]_2) (ns' : seq nat) : seq 'rV[R]_2 :=
  flatten [seq segment (nth 0 ps i) (nth 0 ps i.+1) (nth 0%N ns' i)
          | i <- iota 0 (size ps - 1)]
  ++ [:: nth 0 ps (size ps - 1)].

Lemma bz_path_parsed (lat : Lattice.t R) (pts : seq (point R)) (ns : seq nat)
  (ps : seq 'rV[R]_2) :
  (1 < size pts)%N ->
  (size ns == 1%N) || (size ns == (size pts - 1)%N) ->
  [seq parse_point pi lat pt | pt <- pts] = [seq Ok p | p <- ps] ->
  let ns' :=
    if size ns == 1%N then nseq (size pts - 1) (nth 0%N ns 0) else ns in
  size ns' = (size pts - 1)%N /\
  bz_path pi array_str lat pts ns
  = Ok (Path (columns ps ns') [seq str array_str pt | pt <- pts]
          [seq sumn (take i ns') | i <- iota 0 (size pts)]).
Proof.
move=> gt1 ok_ns eq_ps ns'.
have [sz_ps all_ok nth_ps] := parsed_points eq_ps.
have sz_ns : size ns' = (size pts - 1)%N.
  by move: ok_ns; rewrite /ns'; case: eqP => [_ _|_ /= /eqP//];
     rewrite size_nseq.
split=> //; have := bz_pathE pi array_str lat pts ns; cbv zeta => ->.
rewrite gt1 ok_ns all_ok /= -/ns' /columns sz_ps; congr (Ok (Path (_ ++ _) _ _)).
  congr flatten; apply/eq_in_map => i; rewrite mem_iota add0n /= => lt_i.
  have lt_i1 : (i.+1 < size pts)%N by move: lt_i; rewrite subn1 ltn_predRL.
  by rewrite !nth_ps // ltnW.
by rewrite nth_ps // subn1 prednK ?leqnn // ltnW.
Qed.

Lemma size_segments (ps : seq 'rV[R]_2) (ns' : seq nat) (m : nat) :
  (m <= size ns')%N ->
  shape [seq segment (nth 0 ps i) (nth 0 ps i.+1) (nth 0%N ns' i)
        | i <- iota 0 m]
  = take m ns'.
Proof.
move=> le_m; rewrite /shape -map_comp -(map_nth_iota0 0%N le_m).
by apply: eq_map => i /=; rewrite size_segment.
Qed.

(** X18.  For at least two points that [_parse_point] reads, and [ns]
    of length 1 or one less than the number of points, [bz_path]
    returns a path of [sum(ns) + 1] k-points, [ns] being repeated for
    every segment when it has one entry; the indices of the points are
    the running sums of [ns], from 0 to the index of the last k-point;
    the labels are the [str] of the points; the last k-point is the last
    point. *)
Theorem bz_path_returns (lat : Lattice.t R) (pts : seq (point R))
  (ns : seq nat) (ps : seq 'rV[R]_2) :
  (1 < size pts)%N ->
  (size ns == 1%N) || (size ns == (size pts - 1)%N) ->
  [seq parse_point pi lat pt | pt <- pts] = [seq Ok p | p <- ps] ->
  let ns' :=
    if size ns == 1%N then nseq (size pts - 1) (nth 0%N ns 0) else ns in
  exists path,
    [/\ bz_path pi array_str lat pts ns = Ok path,
        size (kpoints path) = (sumn ns' + 1)%N,
        pt_inds path = [seq sumn (take i ns') | i <- iota 0 (size pts)]
        /\ nth 0%N (pt_inds path) (size pts - 1) = sumn ns',
        pt_labels path = [seq str array_str pt | pt <- pts]
      & last 0 (kpoints path) = last 0 ps].
Proof.
move=> gt1 ok_ns eq_ps ns'.
have [sz_ns ->] := bz_path_parsed gt1 ok_ns eq_ps; rewrite -/ns'.
have [sz_ps _ _] := parsed_points eq_ps.
eexists; split; first by reflexivity.
- rewrite /= /columns size_cat size_flatten sz_ps size_segments ?sz_ns //.
  by rewrite -sz_ns take_size.
- split=> //=; rewrite (nth_map 0%N) ?size_iota ?nth_iota ?add0n;
    try by rewrite subn1 ltn_predL ltnW.
  by rewrite -sz_ns take_size.
- by [].
- by rewrite /= /columns last_cat /= -nth_last subn1.
Qed.

(** X19.  On the path [bz_path] returns, segment [i] starts at the
    index of point [i] and holds [ns[i]] k-points at equal steps from
    point [i] towards point [i + 1]: k-point [pt_inds[i] + j] is
    [p_i + (j / ns[i]) (p_(i+1) - p_i)]; for [j = 0] it is point [i]
    itself. *)
Theorem bz_path_points (lat : Lattice.t R) (pts : seq (point R))
  (ns : seq nat) (ps : seq 'rV[R]_2) (i j : nat) :
  (1 < size pts)%N ->
  (size ns == 1%N) || (size ns == (size pts - 1)%N) ->
  [seq parse_point pi lat pt | pt <- pts] = [seq Ok p | p <- ps] ->
  let ns' :=
    if size ns == 1%N then nseq (size pts - 1) (nth 0%N ns 0) else ns in
  (i < size pts - 1)%N -> (j < nth 0%N ns' i)%N ->
  exists2 path,
    bz_path pi array_str lat pts ns = Ok path
    & nth 0 (kpoints path) (nth 0%N (pt_inds path) i + j)
      = nth 0 ps i
        + (j%:R / (nth 0%N ns' i)%:R) *: (nth 0 ps i.+1 - nth 0 ps i).
Proof.
move=> gt1 ok_ns eq_ps ns' lt_i lt_j.
have [sz_ns ->] := bz_path_parsed gt1 ok_ns eq_ps; rewrite -/ns'.
have [sz_ps _ _] := parsed_points eq_ps.
eexists; first by reflexivity.
have lt_i' : (i < size pts)%N by rewrite (leq_trans lt_i) // leq_subr.
rewrite /= (nth_map 0%N) ?size_iota // nth_iota // add0n /columns sz_ps.
set ss := [seq segment _ _ _ | i0 <- _].
have eq_block : nth [::] ss i
                = segment (nth 0 ps i) (nth 0 ps i.+1) (nth 0%N ns' i).
  by rewrite /ss (nth_map 0%N) ?size_iota // nth_iota // add0n.
have eq_take : take i ns' = take i (shape ss).
  by rewrite /ss size_segments ?sz_ns // -sz_ns take_size.
rewrite nth_cat eq_take.
have lt_blk : (j < size (nth [::] ss i))%N by rewrite eq_block size_segment.
have lt_ss : (i < size ss)%N by rewrite /ss size_map size_iota.
have lt_shape : (i < size (shape ss))%N by rewrite /shape size_map.
have -> : (sumn (take i (shape ss)) + j < size (flatten ss))%N.
  rewrite size_flatten -[in ltnRHS](cat_take_drop i (shape ss)) sumn_cat.
  rewrite ltn_add2l (drop_nth 0%N lt_shape) /= /shape (nth_map [::]) //.
  exact: leq_trans lt_blk (leq_addr _ _).
by rewrite nth_flatten_block // eq_block nth_segment.
Qed.

(** X20.  [bz_path] raises nothing but ValueError, and it returns
    exactly when there are at least two points, [ns] has one entry or
    one entry per segment, and [_parse_point] reads every point. *)
Theorem bz_path_raises (lat : Lattice.t R) (pts : seq (point R))
  (ns : seq nat) :
  (forall e, bz_path pi array_str lat pts ns = Raise e -> e = ValueError) /\
  ((exists path, bz_path pi array_str lat pts ns = Ok path) <->
   [/\ (1 < size pts)%N, (size ns == 1%N) || (size ns == (size pts - 1)%N)
     & all (fun pt => if parse_point pi lat pt is Ok _ then true else false)
         pts]).
Proof.
have := bz_pathE pi array_str lat pts ns; cbv zeta => ->.
case: and3P => [ok|not_ok].
  by split=> //; split=> // _; eexists.
by split=> [e [<-]|] //; split=> [[path]|ok] //; case: not_ok.
Qed.

End PathTheorems.

(** ** Small configurations, continued *)

Section MoreConfigurations.

(** The exact eigen-solver returns eigenpairs. *)
Lemma ideal_eigvec_eq (C : numClosedFieldType) n (A : 'M[C]_n) (x : C) :
  A *m ideal_eigvec A x = x *: ideal_eigvec A x.
Proof.
rewrite /ideal_eigvec; set r := nz_row _.
have /sub_kermxP : (r <= kermx ((A - x%:M)^T))%MS by apply: nz_row_sub.
move/(congr1 trmx); rewrite trmx_mul trmxK trmx0 mulmxBl => /eqP.
by rewrite subr_eq0 mul_scalar_mx => /eqP.
Qed.

Lemma ideal_eig_pairs (C : numClosedFieldType) : eig_pairs (@ideal_eig C).
Proof.
move=> n A; rewrite /ideal_eig /= size_map; split=> // i lt_i.
by rewrite (nth_map 0) // ideal_eigvec_eq.
Qed.

Lemma ideal_eig_columns (C : numClosedFieldType) n (A : 'M[C]_n) :
  size (ideal_eig A).2 = size (ideal_eig A).1.
Proof. by rewrite /= size_map. Qed.

Lemma Re_eners_one (os : algC) (kind : nat) (nu : 'I_1) :
  'Re (exc.eners (exc_one os 1) kind 0 nu) != 0.
Proof. by rewrite mxE Re1 oner_neq0. Qed.

(** One photonic band and one quantum well at one k-point: the run
    retains one band. *)
Lemma run_one :
  run k_unit (@ideal_eig algC) (gme_one 2) [:: exc_one 1 1] [:: (0, 0)]
  = Ok ([:: diagonalise (@ideal_eig algC)
              (assembled k_unit (gme_one 2) (exc_one 1 1) [::] 0)],
        assembled k_unit (gme_one 2) (exc_one 1 1) [::] 0).
Proof. exact: runE. Qed.

Lemma size_ener_one :
  size (ener (diagonalise (@ideal_eig algC)
                (assembled k_unit (gme_one 2) (exc_one 1 1) [::] 0)))
  = 1%N.
Proof.
have sym L :
    is_spectrum (assembled k_unit (gme_one 2) (exc_one 1 1) [::] 0) L ->
    perm_eq L [seq - x | x <- L].
  exact: assembled_spectrum_opp.
by have [-> _ _ _ _] :=
  @diagonalise_sizes algC 1 1 (@ideal_eig algC) 1
    (assembled k_unit (gme_one 2) (exc_one 1 1) [::] 0)
    (@ideal_eig_exact algC) isT sym.
Qed.

(** The square lattice of constant 1 over the real algebraic numbers. *)
Lemma det2_square (R : rcfType) :
  Lattice.det2 (Lattice.array2 (1 : R) 0) (Lattice.array2 0 1) != 0.
Proof.
by rewrite /Lattice.det2 !at_array2 //= mulr1 mul0r subr0 oner_neq0.
Qed.

End MoreConfigurations.

(** ** The lattice constant in the coupling blocks *)

Section ScalingFacts.

Variable C : numClosedFieldType.
Variables (N_max M_max ncomp Ng : nat).
Variable k : cs.t C.

Notation gme_t := (gme.t C N_max ncomp Ng).
Notation exc_t := (exc.t C M_max ncomp Ng).

Lemma pref_scaling (a : C) : pref k a = pref k 1 / sqrtC a.
Proof. by rewrite /pref sqrtC1 divr1. Qed.

(** X21.  For a positive lattice constant [a], the coupling block is the
    block of lattice constant 1 divided by the square root of [a], and
    the self-energy block is the block of lattice constant 1 divided by
    [a]. *)
Theorem coupling_scaling (g : gme_t) (a : C) (ex : exc_t) (kind : nat) :
  0 < a ->
  (calculate_C_D k g a ex kind).1
  = (sqrtC a)^-1 *: (calculate_C_D k g 1 ex kind).1 /\
  (calculate_C_D k g a ex kind).2
  = a^-1 *: (calculate_C_D k g 1 ex kind).2.
Proof.
move=> gt0.
have eq_C : (calculate_C_D k g a ex kind).1
            = (sqrtC a)^-1 *: (calculate_C_D k g 1 ex kind).1.
  apply/matrixP => n nu; rewrite mxE !calculate_C_entry /spec_C.
  by rewrite /spec_prefactor -!/(pref k _) pref_scaling mulrAC mulrC mulrA.
split=> //; apply/matrixP => n1 n2.
rewrite mxE !calculate_D_entry /spec_D eq_C mulr_sumr.
apply: eq_bigr => nu _; rewrite !mxE rmorphM /= fmorphV /=.
have real_sqrt : (sqrtC a)^* = sqrtC a.
  by apply: CrealP; rewrite realE sqrtC_ge0 ltW.
rewrite real_sqrt -[in RHS](sqrtCK a) expr2 invfM.
by ring.
Qed.

End ScalingFacts.

(** A stack of two layers over a lower cladding, and [z] inside the upper
    layer. *)
Lemma z_to_lind_returns_witness :
  let self := LindSelf (PhotCryst [:: Layer 0%N] [:: Layer 2%N; Layer 5%N]) 2 in
  getitem (claddings (phc self)) 0 = Ok (Layer 0%N) /\
  (N_layers self <= size (layers (phc self)))%N /\
  exists lind,
    [/\ z_to_lind self 3%N = Ok lind,
        (lind <= (N_layers self).+1)%N,
        forall i, (i < lind)%N ->
          (nth 0%N (boundaries self (Layer 0%N)) i < 3%N)%O,
        (lind <= N_layers self)%N ->
          (3%N <= nth 0%N (boundaries self (Layer 0%N)) lind)%O
      & (forall i, (i <= N_layers self)%N ->
          (nth 0%N (boundaries self (Layer 0%N)) i < 3%N)%O) ->
        lind = (N_layers self).+1].
Proof.
move=> self; split; first by []. 
split; first by [].
exact: (@z_to_lind_returns _ _ self (Layer 0%N) 3%N).
Defined.

(** One band whose only non-zero entry is the first photonic row. *)
Lemma fractions_sum_witness :
  let eigenvectors : seq 'cV[algC]_4 := [:: \col_i (i == 0)%:R] in
  (0 < size eigenvectors)%N /\
  let v := nth 0 eigenvectors 0 in
  let res := calculate_fraction 1 1 1 eigenvectors in
  let frac_ex := nth 0 res.1 0 in
  let frac_ph := nth 0 res.2 0 in
  frac_ph + frac_ex = \sum_i `|v i 0| ^+ 2 /\
  (frac_ph + frac_ex = 1 <-> norm2 v = 1).
Proof.
move=> eigenvectors; split; first by [].
exact: (@fractions_sum algC 1 1 1 4 eigenvectors 0 isT).
Defined.

(** The matrix [diag(2, 2) - 1] and the eigenvalues [2, 2] of its shift. *)
Lemma shift_unshift_eigenvalues_witness :
  let d : 'rV[algC]_2 := const_mx 2 in
  let mat := diag_mx d - 1%:M in
  is_spectrum (mat + 1%:M) (seq_of_row d) /\
  (is_spectrum mat (unshift (seq_of_row d)) /\
   (forall s, is_spectrum mat s -> perm_eq (unshift (seq_of_row d)) s)).
Proof.
move=> d mat.
have spec2 : is_spectrum (mat + 1%:M) (seq_of_row d).
  by rewrite /mat subrK; exact: is_spectrum_diag.
split; first exact: spec2.
exact: (shift_unshift_eigenvalues spec2).
Defined.

(** One photonic band, one quantum well with one excitonic band, one
    k-point, and the exact eigen-solver. *)
Lemma retained_band_count_witness :
  eig_exact (@ideal_eig algC) /\
  (0 < 1 + 1 * size [:: exc_one 1%R 1%R])%N /\
  let size_mat := (2 * (1 + 1 * size [:: exc_one 1%R 1%R]))%N in
  exists results mat,
    [/\ run k_unit (@ideal_eig algC) (gme_one 2) [:: exc_one 1 1]
          [:: (0, 0)] = Ok (results, mat),
        size results = size [:: ((0 : algC), (0 : algC))],
        shape0 mat = size_mat
      & all (fun r =>
          [&& size (ener r) == (size_mat %/ 2 - 1)%N,
              size (ener_im r) == (size_mat %/ 2 - 1)%N,
              size (evec r) == (size_mat %/ 2 - 1)%N,
              size (fraction_ex r) == (size_mat %/ 2 - 1)%N
            & size (fraction_ph r) == (size_mat %/ 2 - 1)%N]) results].
Proof.
split; first exact: ideal_eig_exact.
split; first by [].
exact: (@retained_band_count algC 1 1 1 1 k_unit (@ideal_eig algC) (gme_one 2)
          (exc_one 1 1) [::] (0, 0) [::] (@ideal_eig_exact algC) isT).
Defined.

(** One photonic band of energy 2 and one quantum well with one excitonic
    band of energy 1 and no oscillator strength. *)
Lemma decoupled_limit_witness :
  eig_exact (@ideal_eig algC) /\
  all (fun ex : exc.t algC 1 1 1 => exc.osc_str ex == 0) [:: exc_one 0 1] /\
  (forall kind,
     all (fun ex : exc.t algC 1 1 1 =>
            [forall nu, 'Re (exc.eners ex kind 0 nu) != 0])
       [:: exc_one 0 1]) /\
  ((forall kind,
      all (fun ex => (well_C k_unit (gme_one 2) 1 kind ex == 0)
                     && (well_D k_unit (gme_one 2) 1 kind ex == 0))
        [:: exc_one 0 1]) /\
   exists results mat,
     run k_unit (@ideal_eig algC) (gme_one 2) [:: exc_one 0 1] [:: (0, 0)]
     = Ok (results, mat) /\
     [seq ener r | r <- results]
     = [seq [seq 'Re e
               | e <- lowest_positive (size [:: exc_one 0 1] * 1)
                        (decoupled_levels k_unit (gme_one 2) (exc_one 0 1)
                           [::] ik)]
          | ik <- iota 0 1]).
Proof.
split; first exact: ideal_eig_exact.
split; first exact: osc_str_zero_one.
split; first exact: eners_nonzero_one.
exact: (decoupled_limit k_unit (gme_one 2) (0, 0) [::]
          (@ideal_eig_exact algC) (osc_str_zero_one 1) (eners_nonzero_one 0)).
Defined.

(** A stack of two layers over a lower cladding, and two positions, the
    lower one inside the first layer, the upper one inside the second. *)
Lemma z_to_lind_monotone_witness :
  let self := LindSelf (PhotCryst [:: Layer 0%N] [:: Layer 2%N; Layer 5%N]) 2 in
  getitem (claddings (phc self)) 0 = Ok (Layer 0%N) /\
  (N_layers self <= size (layers (phc self)))%N /\
  (1%N <= 3%N)%O /\
  exists lind lind',
    [/\ z_to_lind self 1%N = Ok lind, z_to_lind self 3%N = Ok lind'
      & (lind <= lind')%N].
Proof.
move=> self; split; first by [].
split; first by [].
split; first by [].
exact: (@z_to_lind_monotone _ _ self (Layer 0%N) 1%N 3%N erefl isT isT).
Defined.

(** One photonic band and one quantum well with one excitonic band of
    energy 1. *)
Lemma self_energy_hermitian_witness :
  (forall nu, 'Re (exc.eners (exc_one 1 1) 0 0 nu) != 0) /\
  let D := (calculate_C_D k_unit (gme_one 2) 1 (exc_one 1 1) 0).2 in
  (forall n1 n2, D n1 n2 = (D n2 n1)^*) /\
  ((forall nu, 0 < 'Re (exc.eners (exc_one 1 1) 0 0 nu)) ->
   forall n, 0 <= D n n).
Proof.
split; first exact: (Re_eners_one 1 0).
exact: (self_energy_hermitian k_unit (gme_one 2) 1 (Re_eners_one 1 0)).
Defined.

(** The matrix of one photonic band and one quantum well, and the roots
    of its characteristic polynomial. *)
Lemma hopfield_spectrum_symmetric_witness :
  let mat := assembled k_unit (gme_one 2) (exc_one 1 1) [::] 0 in
  let L := ideal_eigvals mat in
  construct_Hopfield k_unit (gme_one 2) (size [:: exc_one 1%R 1%R])
    [:: exc_one 1 1] 0 = Ok mat /\
  is_spectrum mat L /\
  perm_eq L [seq - x | x <- L].
Proof.
move=> mat L.
have eq_mat : construct_Hopfield k_unit (gme_one 2)
                (size [:: exc_one 1%R 1%R]) [:: exc_one 1 1] 0 = Ok mat.
  exact: construct_Hopfield_assembled.
split; first exact: eq_mat.
split; first exact: ideal_eigvals_spectrum.
exact: (hopfield_spectrum_symmetric eq_mat (ideal_eigvals_spectrum mat)).
Defined.

(** One excitonic solver where [num_QWs] is 2. *)
Lemma construct_Hopfield_num_QWs_witness :
  2%N != size [:: exc_one 1%R 1%R] /\
  construct_Hopfield k_unit (gme_one 2) 2 [:: exc_one 1 1] 0
  = Raise (if (2 < size [:: exc_one 1%R 1%R])%N then IndexError
           else ValueError).
Proof.
split; first by [].
exact: (@construct_Hopfield_num_QWs algC 1 1 1 1 k_unit (gme_one 2) 2
          (exc_one 1 1) [::] 0 isT).
Defined.

(** One photonic band, one quantum well with one excitonic band, one
    k-point, and the exact eigen-solver. *)
Lemma retained_energies_sorted_witness :
  let mat := assembled k_unit (gme_one 2) (exc_one 1 1) [::] 0 in
  let results := [:: diagonalise (@ideal_eig algC) mat] in
  run k_unit (@ideal_eig algC) (gme_one 2) [:: exc_one 1 1] [:: (0, 0)]
  = Ok (results, mat) /\
  (0 < size results)%N /\
  let r := nth (no_band algC _) results 0 in
  all (fun e : algC => 0 <= e) (ener r) /\
  sorted (fun x y : algC => x <= y) (ener r).
Proof.
move=> mat results; split; first exact: run_one.
split; first by [].
exact: (@retained_energies_sorted _ _ _ _ _ _ _ _ _ _ results mat 0
          run_one isT).
Defined.

Lemma retained_eigenpairs_witness :
  let mat := assembled k_unit (gme_one 2) (exc_one 1 1) [::] 0 in
  let results := [:: diagonalise (@ideal_eig algC) mat] in
  eig_pairs (@ideal_eig algC) /\
  run k_unit (@ideal_eig algC) (gme_one 2) [:: exc_one 1 1] [:: (0, 0)]
  = Ok (results, mat) /\
  (0 < size results)%N /\
  let r := nth (no_band algC _) results 0 in
  (0 < size (ener r))%N /\
  exists2 matk,
    construct_Hopfield k_unit (gme_one 2) (size [:: exc_one 1%R 1%R])
      [:: exc_one 1 1] 0 = Ok matk
    & matk *m nth 0 (evec r) 0
      = (nth 0 (ener r) 0 + 'i * nth 0 (ener_im r) 0) *: nth 0 (evec r) 0.
Proof.
move=> mat results; split; first exact: ideal_eig_pairs.
split; first exact: run_one.
split; first by [].
have gt0 : (0 < size (ener (nth (no_band algC _) results 0)))%N.
  by rewrite [nth _ _ _]/= size_ener_one.
split; first exact: gt0.
exact: (@retained_eigenpairs _ _ _ _ _ _ _ _ _ _ results mat 0 0
          (@ideal_eig_pairs algC) run_one isT gt0).
Defined.

Lemma retained_fractions_witness :
  let mat := assembled k_unit (gme_one 2) (exc_one 1 1) [::] 0 in
  let results := [:: diagonalise (@ideal_eig algC) mat] in
  (forall n (A : 'M[algC]_n), size (ideal_eig A).2 = size (ideal_eig A).1) /\
  run k_unit (@ideal_eig algC) (gme_one 2) [:: exc_one 1 1] [:: (0, 0)]
  = Ok (results, mat) /\
  (0 < size results)%N /\
  let r := nth (no_band algC _) results 0 in
  (0 < size (ener r))%N /\
  let v := nth 0 (evec r) 0 in
  let col := seq_of_col v in
  let num_QWs := size [:: exc_one 1%R 1%R] in
  [/\ nth 0 (fraction_ph r) 0
      = sum_abs2 (slice 0 1 col)
        + sum_abs2 (slice (1 + 1 * num_QWs) (2 * 1 + 1 * num_QWs) col),
      nth 0 (fraction_ex r) 0
      = sum_abs2 (slice 1 (1 + 1 * num_QWs) col)
        + sum_abs2 (slice_from (2 * 1 + 1 * num_QWs) col)
    & nth 0 (fraction_ph r) 0 + nth 0 (fraction_ex r) 0
      = \sum_i `|v i 0| ^+ 2].
Proof.
move=> mat results; split; first exact: (@ideal_eig_columns algC).
split; first exact: run_one.
split; first by [].
have gt0 : (0 < size (ener (nth (no_band algC _) results 0)))%N.
  by rewrite [nth _ _ _]/= size_ener_one.
split; first exact: gt0.
exact: (@retained_fractions _ _ _ _ _ _ _ _ _ _ results mat 0 0
          (@ideal_eig_columns algC) run_one isT gt0).
Defined.

(** One band whose only non-zero entry is the first photonic row. *)
Lemma fractions_range_witness :
  let eigenvectors : seq 'cV[algC]_4 := [:: \col_i (i == 0)%:R] in
  (0 < size eigenvectors)%N /\
  let v := nth 0 eigenvectors 0 in
  let res := calculate_fraction 1 1 1 eigenvectors in
  let frac_ex := nth 0 res.1 0 in
  let frac_ph := nth 0 res.2 0 in
  (0 <= frac_ex <= \sum_i `|v i 0| ^+ 2) /\
  (0 <= frac_ph <= \sum_i `|v i 0| ^+ 2) /\
  (norm2 v = 1 -> frac_ex <= 1 /\ frac_ph <= 1).
Proof.
move=> eigenvectors; split; first by [].
exact: (@fractions_range algC 1 1 1 4 eigenvectors 0 isT).
Defined.

Section ConstructorWitnesses.

(** A crystal of two layers, named 10 and 20, with one block of two
    quantum wells; the layer lookup answers the position itself, so the
    well at 1 is in the first layer and the well at 0 in the lower
    cladding. *)
Let lookup (gme : GuidedModeExp.t nat nat nat nat nat) (z : nat)
  : result nat := Ok z.

Let crystal : PhotCryst.t nat nat nat :=
  PhotCryst.Make [:: 10%N; 20%N]
    [:: qw.Make [:: 1%N; 0%N] [:: 5%N; 5%N] [:: 6%N; 6%N] [:: 7%N; 7%N]
          [:: 8%N; 8%N] [:: 9%N; 9%N] [:: 4%N; 4%N]].

Let built : hopfield_pol nat nat nat nat nat :=
  HopfieldPol (GuidedModeExp.Make crystal 0%N 0%N)
    [:: ExcitonSchroedEq.Make 10%N 1%N 5%N 6%N 7%N 8%N 9%N 4%N 0%N 0%N;
        ExcitonSchroedEq.Make 20%N 0%N 5%N 6%N 7%N 8%N 9%N 4%N 0%N 0%N].

Lemma init_wells_witness :
  init lookup crystal 0%N 0%N = Ok built /\
  let excs := exc_list_of built in
  [/\ gme_of built = GuidedModeExp.Make crystal 0%N 0%N,
      [seq ExcitonSchroedEq.z e | e <- excs] = well_positions crystal
      /\ size excs = sumn [seq size (qw.z qw) | qw <- PhotCryst.qws crystal],
      every (fun e => ExcitonSchroedEq.gmax e = 0%N
                      /\ ExcitonSchroedEq.truncate_g e = 0%N) excs,
      [/\ [seq ExcitonSchroedEq.Vmax e | e <- excs]
          = well_params (@qw.Vmax _ _) crystal,
          [seq ExcitonSchroedEq.a e | e <- excs]
          = well_params (@qw.a _ _) crystal
        & [seq ExcitonSchroedEq.M e | e <- excs]
          = well_params (@qw.M _ _) crystal]
    & [/\ [seq ExcitonSchroedEq.E0 e | e <- excs]
          = well_params (@qw.E0 _ _) crystal,
          [seq ExcitonSchroedEq.loss e | e <- excs]
          = well_params (@qw.loss _ _) crystal
        & [seq ExcitonSchroedEq.osc_str e | e <- excs]
          = well_params (@qw.osc_str _ _) crystal]].
Proof.
have eq_init : init lookup crystal 0%N 0%N = Ok built by [].
split; first exact: eq_init.
exact: (@init_wells nat nat nat nat nat lookup crystal 0%N 0%N built eq_init).
Defined.

Lemma init_layer_of_well_witness :
  init lookup crystal 0%N 0%N = Ok built /\
  every (fun e =>
    exists li,
      [/\ lookup (gme_of built) (ExcitonSchroedEq.z e) = Ok li,
          (0 < size (PhotCryst.layers crystal))%N,
          (li <= size (PhotCryst.layers crystal))%N
        & ExcitonSchroedEq.layer e
          = if li is li'.+1 then nth 0%N (PhotCryst.layers crystal) li'
            else last 0%N (PhotCryst.layers crystal)])
    (exc_list_of built).
Proof.
have eq_init : init lookup crystal 0%N 0%N = Ok built by [].
split; first exact: eq_init.
exact: (@init_layer_of_well nat nat nat nat nat lookup crystal 0%N 0%N built
          0%N eq_init).
Defined.

(** The same layers, and one well that the lookup sends to the upper
    cladding. *)
Let crystal_above : PhotCryst.t nat nat nat :=
  PhotCryst.Make [:: 10%N; 20%N]
    [:: qw.Make [:: 3%N] [:: 5%N] [:: 6%N] [:: 7%N] [:: 8%N] [:: 9%N]
          [:: 4%N]].

Lemma init_raises_witness :
  let gme := GuidedModeExp.Make crystal_above 0%N 0%N in
  (forall z', exists li', lookup gme z' = Ok li') /\
  3%N \in well_positions crystal_above /\
  lookup gme 3%N = Ok 3%N /\
  ((size (PhotCryst.layers crystal_above) < 3)%N
   \/ PhotCryst.layers crystal_above = [::]) /\
  init lookup crystal_above 0%N 0%N = Raise IndexError.
Proof.
move=> gme.
have total z' : exists li', lookup gme z' = Ok li' by exists z'.
split; first exact: total.
split; first by [].
split; first by [].
split; first by left.
exact: (@init_raises nat nat nat nat nat lookup crystal_above 0%N 0%N 3%N 3%N
          total isT erefl (or_introl isT)).
Defined.

End ConstructorWitnesses.

Section LatticeWitnesses.

Import Lattice.

(** The square lattice of constant 1 over the real algebraic numbers,
    with 3 in the place of [pi]. *)
Let lat_sq : Lattice.t algR :=
  Make square (array2 1 0) (array2 0 1) (array2 (2 * 3) 0)
    (array2 0 (2 * 3)) 1 ((2 * 3) ^+ 2).

Lemma reciprocal_basis_witness :
  init 3 (Args1 algR "square") = Ok lat_sq /\
  det2 (a1 lat_sq) (a2 lat_sq) != 0 /\
  [/\ dot (a1 lat_sq) (b1 lat_sq) = 2 * 3, dot (a1 lat_sq) (b2 lat_sq) = 0,
      dot (a2 lat_sq) (b1 lat_sq) = 0 & dot (a2 lat_sq) (b2 lat_sq) = 2 * 3].
Proof.
split; first exact: init_square.
split; first exact: det2_square.
exact: (@reciprocal_basis algR 3 (Args1 algR "square") lat_sq
          (init_square 3) (det2_square algR)).
Defined.

Lemma cell_areas_witness :
  init 3 (Args1 algR "square") = Ok lat_sq /\
  ec_area lat_sq = `|det2 (a1 lat_sq) (a2 lat_sq)| /\
  (det2 (a1 lat_sq) (a2 lat_sq) != 0 ->
   ec_area lat_sq * bz_area lat_sq = (2 * 3) ^+ 2).
Proof.
split; first exact: init_square.
exact: (@cell_areas algR 3 (Args1 algR "square") lat_sq (init_square 3)).
Defined.

Lemma xy_grid_symmetric_witness :
  (1 < 2)%N /\ (1 < 2)%N /\
  let xs := (xy_grid lat_sq 2 2).1 in
  let ys := (xy_grid lat_sq 2 2).2 in
  let xmax := `|max2 (at_ (a1 lat_sq) 0) (at_ (a2 lat_sq) 0)| in
  let ymax := `|max2 (at_ (a1 lat_sq) 1) (at_ (a2 lat_sq) 1)| in
  [/\ size xs = 2%N /\ size ys = 2%N,
      nth 0 xs 0 = - xmax /\ last 0 xs = xmax,
      nth 0 ys 0 = - ymax /\ last 0 ys = ymax,
      forall i, (i < 2)%N -> nth 0 xs (2.-1 - i) = - nth 0 xs i
    & forall j, (j < 2)%N -> nth 0 ys (2.-1 - j) = - nth 0 ys j].
Proof.
split; first by [].
split; first by [].
exact: (@xy_grid_symmetric algR lat_sq 2 2 isT isT).
Defined.

(** The path from [G] to [X] on the square lattice, in two steps. *)
Let no_str (v : 'rV[algR]_2) : String.string := ""%string.

Let pts_GX : seq (point algR) := [:: PtStr algR "G"; PtStr algR "X"].

Let ps_GX : seq 'rV[algR]_2 := [:: array2 0 0; array2 3 0].

Lemma bz_path_returns_witness :
  (1 < size pts_GX)%N /\
  (size [:: 2%N] == 1%N) || (size [:: 2%N] == (size pts_GX - 1)%N) /\
  [seq parse_point 3 lat_sq pt | pt <- pts_GX] = [seq Ok p | p <- ps_GX] /\
  let ns' :=
    if size [:: 2%N] == 1%N then nseq (size pts_GX - 1) (nth 0%N [:: 2%N] 0)
    else [:: 2%N] in
  exists path,
    [/\ bz_path 3 no_str lat_sq pts_GX [:: 2%N] = Ok path,
        size (kpoints path) = (sumn ns' + 1)%N,
        pt_inds path = [seq sumn (take i ns') | i <- iota 0 (size pts_GX)]
        /\ nth 0%N (pt_inds path) (size pts_GX - 1) = sumn ns',
        pt_labels path = [seq str no_str pt | pt <- pts_GX]
      & last 0 (kpoints path) = last 0 ps_GX].
Proof.
split; first by [].
split; first by [].
split; first by [].
exact: (@bz_path_returns algR 3 no_str lat_sq pts_GX [:: 2%N] ps_GX
          isT isT erefl).
Defined.

Lemma bz_path_points_witness :
  (1 < size pts_GX)%N /\
  (size [:: 2%N] == 1%N) || (size [:: 2%N] == (size pts_GX - 1)%N) /\
  [seq parse_point 3 lat_sq pt | pt <- pts_GX] = [seq Ok p | p <- ps_GX] /\
  let ns' :=
    if size [:: 2%N] == 1%N then nseq (size pts_GX - 1) (nth 0%N [:: 2%N] 0)
    else [:: 2%N] in
  (0 < size pts_GX - 1)%N /\ (1 < nth 0%N ns' 0)%N /\
  exists2 path,
    bz_path 3 no_str lat_sq pts_GX [:: 2%N] = Ok path
    & nth 0 (kpoints path) (nth 0%N (pt_inds path) 0 + 1)
      = nth 0 ps_GX 0
        + (1%:R / (nth 0%N ns' 0)%:R) *: (nth 0 ps_GX 1 - nth 0 ps_GX 0).
Proof.
split; first by [].
split; first by [].
split; first by [].
split; first by [].
split; first by [].
exact: (@bz_path_points algR 3 no_str lat_sq pts_GX [:: 2%N] ps_GX 0 1
          isT isT erefl isT isT).
Defined.

End LatticeWitnesses.

(** One photonic band, one quantum well, and the lattice constant 4. *)
Lemma coupling_scaling_witness :
  (0 : algC) < 4 /\
  ((calculate_C_D k_unit (gme_one 2) 4 (exc_one 1 1) 0).1
   = (sqrtC 4)^-1 *: (calculate_C_D k_unit (gme_one 2) 1 (exc_one 1 1) 0).1 /\
   (calculate_C_D k_unit (gme_one 2) 4 (exc_one 1 1) 0).2
   = 4^-1 *: (calculate_C_D k_unit (gme_one 2) 1 (exc_one 1 1) 0).2).
Proof.
have gt0 : (0 : algC) < 4 by rewrite ltr0n.
split; first exact: gt0.
exact: (@coupling_scaling algC 1 1 1 1 k_unit (gme_one 2) 4 (exc_one 1 1) 0
          gt0).
Defined.
